(** * AWS inventory fetchers: S3 bucket reconciliation and Redshift Serverless discovery

    A shallow embedding of
    - [lib/srv/discovery/fetchers/aws-sync/s3.go] (module [S3Sync]) and
    - [lib/srv/discovery/fetchers/db/aws_redshift_serverless.go]
      (module [RedshiftServerless]),
    together with the properties of the inventory specification that concern
    them.  Go pointers are optional locations of an explicit store, Go
    [error] values are an inductive type, calls to the cloud provider are
    fields of a client record that give the provider's answer. *)

From stdpp Require Import gmap strings list pretty.
From Stdlib Require Import ZArith.
From Stdlib.Strings Require Import Byte.

#[local] Set Warnings "-register-all".

Local Open Scope string_scope.
Local Open Scope list_scope.

(** ** Errors *)

Module Errors.

(** The Go [error] values the fetchers handle.  [AwsErr] is an
    [awserr.Error] with its code, [Wrapped] is what [trace.Wrap] builds
    around a non-nil error (the message is kept as its format string and the
    arguments of its verbs; no message is the empty format) and [Aggregate]
    what [trace.NewAggregate] builds around a non-empty list.  A nil [error]
    is [None : option error]. *)
Inductive error : Type :=
| AwsErr (code message : string)
| OtherErr (message : string)
| Wrapped (format : string) (args : list string) (inner : error)
| Aggregate (errs : list error).

(** [errors.As(err, &awsErr)] with [awsErr : awserr.Error]: the first
    [awserr.Error] on the unwrap chain, depth first through aggregates. *)
Fixpoint errorsAsAws (e : error) : option (string * string) :=
  match e with
  | AwsErr code message => Some (code, message)
  | OtherErr _ => None
  | Wrapped _ _ inner => errorsAsAws inner
  | Aggregate errs =>
      (fix first (l : list error) : option (string * string) :=
         match l with
         | [] => None
         | x :: l' =>
             match errorsAsAws x with
             | Some r => Some r
             | None => first l'
             end
         end) errs
  end.

(** [trace.Wrap(err)] of a non-nil error. *)
Definition Wrap (err : error) : error := Wrapped EmptyString [] err.

(** [trace.NewAggregate(errs...)]: nil for no error at all. *)
Definition NewAggregate (errs : list error) : option error :=
  match errs with
  | [] => None
  | _ :: _ => Some (Aggregate errs)
  end.

End Errors.
Import Errors.

(** ** The provider's S3 types (package [s3] of the AWS SDK) *)

Module s3.

(** A [*string] is an [option string]; [aws.ToString] reads it. *)
Record Bucket := { Name : option string }.

Record GetBucketPolicyOutput := { Policy : option string }.

Record PolicyStatus := { IsPublic : option bool }.

Record GetBucketPolicyStatusOutput := { PolicyStatus_ : option PolicyStatus }.

Record Grantee := {
  ID : option string;
  DisplayName : option string;
  Type_ : option string;
  URI : option string;
  EmailAddress : option string
}.

(** [awsACLsToProtoACLs] reads [grant.Grantee] of every grant without a nil
    test: grants and their grantees are present in every answer it is given. *)
Record Grant := { Grantee_ : Grantee; Permission : option string }.

Record GetBucketAclOutput := { Grants : list Grant }.

Record Tag := { Key : option string; Value : option string }.

Record GetBucketTaggingOutput := { TagSet : list Tag }.

End s3.

Definition ToString (p : option string) : string := default EmptyString p.
Definition ToBool (p : option bool) : bool := default false p.

(** ** The canonical records (package [accessgraphv1alpha]) *)

Module accessgraphv1alpha.

Record AWSTag := { Key : string; Value : option string }.

Record AWSS3BucketACLGrantee := {
  Id : string;
  DisplayName : string;
  Type_ : string;
  Uri : string;
  EmailAddress : string
}.

Record AWSS3BucketACL := { Grantee : AWSS3BucketACLGrantee; Permission : string }.

(** Slices are lists, the nil slice is the empty list. *)
Record AWSS3BucketV1 := {
  Name : string;
  AccountId : string;
  PolicyDocument : list Byte.byte;
  IsPublic : bool;
  Acls : list AWSS3BucketACL;
  Tags : list AWSTag;
  LastSyncTime : Z
}.

End accessgraphv1alpha.

Import accessgraphv1alpha.

(** ** The store of bucket records *)

Abbreviation loc := positive.
Abbreviation store := (gmap positive AWSS3BucketV1).

(** A [*AWSS3BucketV1]; nil is [None]. *)
Abbreviation ptr := (option positive).

(** A computation on the store.  [None] is an access through a pointer that
    names no record, which a Go program cannot make. *)
Definition M (A : Type) : Type := store → option (store * A).

Definition ret {A} (a : A) : M A := λ h, Some (h, a).

Definition bind {A B} (m : M A) (k : A → M B) : M B :=
  λ h, match m h with
       | None => None
       | Some (h', a) => k a h'
       end.

Notation "'do' x <- m ; k" := (bind m (λ x, k))
  (at level 10, x name, m at level 100, k at level 200).
Notation "m ;; k" := (bind m (λ _, k))
  (at level 100, k at level 200, right associativity).

Definition load (l : loc) : M AWSS3BucketV1 :=
  λ h, match h !! l with
       | None => None
       | Some v => Some (h, v)
       end.

Definition storeAt (l : loc) (f : AWSS3BucketV1 → AWSS3BucketV1) : M unit :=
  λ h, match h !! l with
       | None => None
       | Some v => Some (<[l := f v]> h, tt)
       end.

(** [&T{...}]: a new record at a location the store does not use. *)
Definition alloc (v : AWSS3BucketV1) : M loc :=
  λ h, let l := fresh (dom h) in Some (<[l := v]> h, l).

(** [proto.Clone(p)]: a deep copy, at a new location. *)
Definition protoClone (p : loc) : M loc :=
  do v <- load p; alloc v.

Definition when (b : bool) (m : M unit) : M unit := if b then m else ret tt.

Definition set_PolicyDocument (x : list Byte.byte) (b : AWSS3BucketV1) : AWSS3BucketV1 :=
  {| Name := Name b; AccountId := AccountId b; PolicyDocument := x;
     IsPublic := IsPublic b; Acls := Acls b; Tags := Tags b;
     LastSyncTime := LastSyncTime b |}.

Definition set_IsPublic (x : bool) (b : AWSS3BucketV1) : AWSS3BucketV1 :=
  {| Name := Name b; AccountId := AccountId b; PolicyDocument := PolicyDocument b;
     IsPublic := x; Acls := Acls b; Tags := Tags b;
     LastSyncTime := LastSyncTime b |}.

Definition set_Acls (x : list AWSS3BucketACL) (b : AWSS3BucketV1) : AWSS3BucketV1 :=
  {| Name := Name b; AccountId := AccountId b; PolicyDocument := PolicyDocument b;
     IsPublic := IsPublic b; Acls := x; Tags := Tags b;
     LastSyncTime := LastSyncTime b |}.

Definition set_Tags (x : list AWSTag) (b : AWSS3BucketV1) : AWSS3BucketV1 :=
  {| Name := Name b; AccountId := AccountId b; PolicyDocument := PolicyDocument b;
     IsPublic := IsPublic b; Acls := Acls b; Tags := x;
     LastSyncTime := LastSyncTime b |}.

(** ** [s3.go] *)

Module S3Sync.

Record failedRequests := {
  policyFailed : bool;
  failedPolicyStatus : bool;
  failedAcls : bool;
  failedTags : bool;
  headFailed : bool
}.

(** The zero value of [failedRequests]. *)
Definition noFailedRequests : failedRequests :=
  {| policyFailed := false; failedPolicyStatus := false; failedAcls := false;
     failedTags := false; headFailed := false |}.

Definition mergeS3Protos (existing new : ptr) (failedReqs : failedRequests) : M ptr :=
  match existing with
  | None => ret new
  | Some existing' =>
      match new with
      | None => ret existing
      | Some new' =>
          do clone <- protoClone new';
          when (policyFailed failedReqs)
            (do e <- load existing'; storeAt clone (set_PolicyDocument (PolicyDocument e)));;
          when (failedPolicyStatus failedReqs)
            (do e <- load existing'; storeAt clone (set_IsPublic (IsPublic e)));;
          when (failedAcls failedReqs)
            (do e <- load existing'; storeAt clone (set_Acls (Acls e)));;
          when (failedTags failedReqs)
            (do e <- load existing'; storeAt clone (set_Tags (Tags e)));;
          ret (Some clone)
      end
  end.

Record s3Details := {
  policy : option s3.GetBucketPolicyOutput;
  policyStatus : option s3.GetBucketPolicyStatusOutput;
  acls : option s3.GetBucketAclOutput;
  tags : option s3.GetBucketTaggingOutput
}.

(** The calls of [s3iface.S3API] the fetcher makes, each as the answer of
    the provider for the bucket named.  The two listing calls give a
    response or an error; the four detail calls give the pair the fetcher
    stores and tests, the output and the error. *)
Record S3Client := {
  ListBucketsWithContext : error + list s3.Bucket;
  GetBucketLocationWithContext : option string → error + option string;
  GetBucketPolicyWithContext :
    option string → option s3.GetBucketPolicyOutput * option error;
  GetBucketPolicyStatusWithContext :
    option string → option s3.GetBucketPolicyStatusOutput * option error;
  GetBucketAclWithContext :
    option string → option s3.GetBucketAclOutput * option error;
  GetBucketTaggingWithContext :
    option string → option s3.GetBucketTaggingOutput * option error
}.

(** [Resources], of which this file uses [S3Buckets]; [collect] never
    appends nil, so its elements are locations. *)
Record Resources := { S3Buckets : list loc }.

Record awsFetcher := {
  AccountID : string;
  Regions : list string;
  (** [a.CloudClients.GetAWSS3Client(ctx, region, a.getAWSOptions()...)] *)
  GetAWSS3Client : string → error + S3Client;
  lastResult : Resources
}.

Section Fetcher.

(** [awsutil.GetKnownRegions()[0]] *)
Variable knownRegion : string.

(** [timestamppb.Now()] when the record of the bucket named is built. *)
Variable timestampNow : string → Z.

(** Modelled from the spec: the helper [strPtrToWrapper] is not part of the
    sources at hand; field absence is represented explicitly, so a nil
    pointer gives an absent value and any other pointer its string. *)
Definition strPtrToWrapper (s : option string) : option string := s.

(** Modelled from the spec: the helper [sliceFilterPickFirst] is not part of
    the sources at hand; it gives the first element of the previous result
    set that has the identity asked for, and nil when there is none. *)
Fixpoint sliceFilterPickFirst (s : list loc) (f : AWSS3BucketV1 → bool) : M ptr :=
  match s with
  | [] => ret None
  | v :: s' =>
      do b <- load v;
      if f b then ret (Some v) else sliceFilterPickFirst s' f
  end.

Definition awsACLsToProtoACLs (grants : list s3.Grant) : list AWSS3BucketACL :=
  foldl (λ acls grant,
           acls ++ [ {| Grantee :=
                          {| Id := ToString (s3.ID (s3.Grantee_ grant));
                             DisplayName := ToString (s3.DisplayName (s3.Grantee_ grant));
                             Type_ := ToString (s3.Type_ (s3.Grantee_ grant));
                             Uri := ToString (s3.URI (s3.Grantee_ grant));
                             EmailAddress := ToString (s3.EmailAddress (s3.Grantee_ grant)) |};
                        Permission := ToString (s3.Permission grant) |} ])
        [] grants.

Definition awsS3Bucket (name : string)
    (policy : option s3.GetBucketPolicyOutput)
    (policyStatus : option s3.GetBucketPolicyStatusOutput)
    (acls : option s3.GetBucketAclOutput)
    (tags : option s3.GetBucketTaggingOutput)
    (accountID : string) : M loc :=
  do s3 <- alloc {| Name := name; AccountId := accountID;
                    PolicyDocument := []; IsPublic := false; Acls := []; Tags := [];
                    LastSyncTime := timestampNow name |};
  match policy with
  | Some policy' =>
      storeAt s3 (set_PolicyDocument (String.list_byte_of_string (ToString (s3.Policy policy'))))
  | None => ret tt
  end;;
  match policyStatus with
  | Some {| s3.PolicyStatus_ := Some status |} =>
      storeAt s3 (set_IsPublic (ToBool (s3.IsPublic status)))
  | _ => ret tt
  end;;
  match acls with
  | Some acls' => storeAt s3 (set_Acls (awsACLsToProtoACLs (s3.Grants acls')))
  | None => ret tt
  end;;
  match tags with
  | Some tags' =>
      foldl (λ m tag,
               m;; storeAt s3 (λ b, set_Tags
                                      (Tags b ++ [ {| Key := ToString (s3.Key tag);
                                                      Value := strPtrToWrapper (s3.Value tag) |} ])
                                      b))
            (ret tt) (s3.TagSet tags')
  | None => ret tt
  end;;
  ret s3.

Definition isS3BucketPolicyNotFound (err : error) : bool :=
  match errorsAsAws err with
  | Some (code, _) => String.eqb code "NoSuchBucketPolicy"
  | None => false
  end.

Definition isS3BucketNoTagSet (err : error) : bool :=
  match errorsAsAws err with
  | Some (code, _) => String.eqb code "NoSuchTagSet"
  | None => false
  end.

Definition set_policyFailed (f : failedRequests) : failedRequests :=
  {| policyFailed := true; failedPolicyStatus := failedPolicyStatus f;
     failedAcls := failedAcls f; failedTags := failedTags f; headFailed := headFailed f |}.

Definition set_failedPolicyStatus (f : failedRequests) : failedRequests :=
  {| policyFailed := policyFailed f; failedPolicyStatus := true;
     failedAcls := failedAcls f; failedTags := failedTags f; headFailed := headFailed f |}.

Definition set_failedAcls (f : failedRequests) : failedRequests :=
  {| policyFailed := policyFailed f; failedPolicyStatus := failedPolicyStatus f;
     failedAcls := true; failedTags := failedTags f; headFailed := headFailed f |}.

Definition set_failedTags (f : failedRequests) : failedRequests :=
  {| policyFailed := policyFailed f; failedPolicyStatus := failedPolicyStatus f;
     failedAcls := failedAcls f; failedTags := true; headFailed := headFailed f |}.

Definition getS3BucketDetails (a : awsFetcher) (bucket : s3.Bucket) (bucketRegion : string)
  : s3Details * failedRequests * list error :=
  let failedReqs := noFailedRequests in
  let errs : list error := [] in
  match GetAWSS3Client a bucketRegion with
  | inl err =>
      let errs :=
        errs ++ [Wrapped "failed to create s3 client for bucket %q"
                         [ToString (s3.Name bucket)] err] in
      ({| policy := None; policyStatus := None; acls := None; tags := None |},
       {| headFailed := true; policyFailed := true; failedPolicyStatus := true;
          failedAcls := true; failedTags := true |},
       errs)
  | inr s3Client =>
      let '(policy', err) := GetBucketPolicyWithContext s3Client (s3.Name bucket) in
      let '(errs, failedReqs) :=
        match err with
        | Some e =>
            if negb (isS3BucketPolicyNotFound e)
            then (errs ++ [Wrapped "failed to fetch bucket %q inline policy"
                                   [ToString (s3.Name bucket)] e],
                  set_policyFailed failedReqs)
            else (errs, failedReqs)
        | None => (errs, failedReqs)
        end in
      let '(policyStatus', err) := GetBucketPolicyStatusWithContext s3Client (s3.Name bucket) in
      let '(errs, failedReqs) :=
        match err with
        | Some e =>
            if negb (isS3BucketPolicyNotFound e)
            then (errs ++ [Wrapped "failed to fetch bucket %q policy status"
                                   [ToString (s3.Name bucket)] e],
                  set_failedPolicyStatus failedReqs)
            else (errs, failedReqs)
        | None => (errs, failedReqs)
        end in
      let '(acls', err) := GetBucketAclWithContext s3Client (s3.Name bucket) in
      let '(errs, failedReqs) :=
        match err with
        | Some e =>
            (errs ++ [Wrapped "failed to fetch bucket %q acls policies"
                              [ToString (s3.Name bucket)] e],
             set_failedAcls failedReqs)
        | None => (errs, failedReqs)
        end in
      let '(tags', err) := GetBucketTaggingWithContext s3Client (s3.Name bucket) in
      let '(errs, failedReqs) :=
        match err with
        | Some e =>
            if negb (isS3BucketNoTagSet e)
            then (errs ++ [Wrapped "failed to fetch bucket %q tags"
                                   [ToString (s3.Name bucket)] e],
                  set_failedTags failedReqs)
            else (errs, failedReqs)
        | None => (errs, failedReqs)
        end in
      ({| policy := policy'; policyStatus := policyStatus'; acls := acls'; tags := tags' |},
       failedReqs, errs)
  end.

(** The closure [listS3Buckets] returns with the listing. *)
Definition getBucketRegion (s3Client : S3Client) (bucket : option string)
  : string * option error :=
  match GetBucketLocationWithContext s3Client bucket with
  | inl err =>
      (EmptyString, Some (Wrapped "failed to fetch bucket %q region" [ToString bucket] err))
  | inr None => ("us-east-1", None)
  | inr (Some constraint) => (constraint, None)
  end.

Definition listS3Buckets (a : awsFetcher)
  : error + (list s3.Bucket * (option string → string * option error)) :=
  let region := knownRegion in
  let region := match Regions a with r :: _ => r | [] => region end in
  match GetAWSS3Client a region with
  | inl err => inl (Wrap err)
  | inr s3Client =>
      match ListBucketsWithContext s3Client with
      | inl err => inl (Wrap err)
      | inr buckets => inr (buckets, getBucketRegion s3Client)
      end
  end.

(** *** The batch run of [fetchS3Buckets]

    [fetchS3Buckets] starts one closure per bucket on an [errgroup.Group] of
    limit 5 and waits for all of them.  A closure is followed through the
    points at which it meets the variables it shares with the others:
    [s3s], [errs] and the mutex [mu].  What it does before [collect] (the
    provider calls, the records it builds) touches none of them and is one
    step. *)

Inductive pc : Type :=
| Spawned                                   (* accepted by [eG.Go], body not started *)
| AtCollect (s3 : ptr) (err : option error) (* at [collect(s3, err)], before [mu.Lock()] *)
| Locked (s3 : ptr) (err : option error)    (* holds [mu], at [if err != nil] *)
| ErrsDone (s3 : ptr)                       (* holds [mu], at [if s3 != nil] *)
| S3sDone                                   (* holds [mu], at the deferred [mu.Unlock()] *)
| AtReturn                                  (* [collect] returned, at [return nil] *)
| Returned (r : option error).              (* the closure gave [r] to the group *)

(** A closure with the [bucket] it captured. *)
Record thread := { bucket : s3.Bucket; at_ : pc }.

(** What the closures share: the store, the two slices and the mutex of
    [fetchS3Buckets], and the first error a closure returned, which the
    group keeps for [eG.Wait]. *)
Record shared := {
  heap : store;
  s3s : list loc;
  errs : list error;
  mu : bool;                    (* the mutex is held *)
  groupErr : option error
}.

Record group := {
  vars : shared;
  pending : list s3.Bucket;     (* what is left of [for _, bucket := range buckets] *)
  threads : list thread
}.

(** The body of the closure up to the call of [collect], with the arguments
    of that call. *)
Definition task (a : awsFetcher) (getBucketRegion : option string → string * option error)
    (existing : Resources) (bucket : s3.Bucket) : M (ptr * option error) :=
  let errs : list error := [] in
  do existingBucket <-
    sliceFilterPickFirst (S3Buckets existing)
      (λ b, String.eqb (Name b) (ToString (s3.Name bucket))
            && String.eqb (AccountId b) (AccountID a));
  match getBucketRegion (s3.Name bucket) with
  | (_, Some err) =>
      let errs := errs ++ [Wrap err] in
      let failedReqs :=
        {| policyFailed := true; failedPolicyStatus := true; failedAcls := true;
           failedTags := true; headFailed := false |} in
      do newBucket <- awsS3Bucket (ToString (s3.Name bucket)) None None None None (AccountID a);
      do merged <- mergeS3Protos existingBucket (Some newBucket) failedReqs;
      ret (merged, NewAggregate errs)
  | (bucketRegion, None) =>
      let '(details, failedReqs, errsL) := getS3BucketDetails a bucket bucketRegion in
      do newBucket <-
        awsS3Bucket (ToString (s3.Name bucket)) (policy details) (policyStatus details)
          (acls details) (tags details) (AccountID a);
      do merged <- mergeS3Protos existingBucket (Some newBucket) failedReqs;
      ret (merged, NewAggregate (errs ++ errsL))
  end.

Definition running (t : thread) : bool :=
  match at_ t with Returned _ => false | _ => true end.

(** The closures that have not returned. *)
Definition active (ts : list thread) : nat :=
  sum_list_with (λ t, if running t then 1 else 0)%nat ts.

(** What the scheduler may pick: the loop of [fetchS3Buckets] starts the next
    closure, or the closure started as number [i] takes its next step. *)
Inductive action : Type :=
| Dispatch
| Run (i : nat).

(** The next step of a closure: where it is afterwards and what it made of
    the shared variables.  [None] when it cannot move: [mu.Lock()] blocks
    while the mutex is held, a closure that returned has no step. *)
Definition closureStep (a : awsFetcher)
    (getBucketRegion : option string → string * option error)
    (existing : Resources) (t : thread) (v : shared) : option (pc * shared) :=
  match at_ t with
  | Spawned =>
      match task a getBucketRegion existing (bucket t) (heap v) with
      | None => None
      | Some (h', (s3, err)) =>
          Some (AtCollect s3 err,
                {| heap := h'; s3s := s3s v; errs := errs v; mu := mu v;
                   groupErr := groupErr v |})
      end
  | AtCollect s3 err =>
      if mu v then None
      else Some (Locked s3 err,
                 {| heap := heap v; s3s := s3s v; errs := errs v; mu := true;
                    groupErr := groupErr v |})
  | Locked s3 err =>
      Some (ErrsDone s3,
            {| heap := heap v; s3s := s3s v;
               errs := match err with
                       | Some e => errs v ++ [e]
                       | None => errs v
                       end;
               mu := mu v; groupErr := groupErr v |})
  | ErrsDone s3 =>
      Some (S3sDone,
            {| heap := heap v;
               s3s := match s3 with
                      | Some l => s3s v ++ [l]
                      | None => s3s v
                      end;
               errs := errs v; mu := mu v; groupErr := groupErr v |})
  | S3sDone =>
      Some (AtReturn,
            {| heap := heap v; s3s := s3s v; errs := errs v; mu := false;
               groupErr := groupErr v |})
  | AtReturn =>
      let r : option error := None in
      Some (Returned r,
            {| heap := heap v; s3s := s3s v; errs := errs v; mu := mu v;
               groupErr := match groupErr v with
                           | Some e => Some e
                           | None => r
                           end |})
  | Returned _ => None
  end.

(** One step of the group; [eG.Go] blocks while five closures run. *)
Definition step (a : awsFetcher) (getBucketRegion : option string → string * option error)
    (existing : Resources) (act : action) (g : group) : option group :=
  match act with
  | Dispatch =>
      match pending g with
      | [] => None
      | b :: rest =>
          if decide (active (threads g) < 5)%nat
          then Some {| vars := vars g; pending := rest;
                       threads := threads g ++ [ {| bucket := b; at_ := Spawned |} ] |}
          else None
      end
  | Run i =>
      match threads g !! i with
      | None => None
      | Some t =>
          match closureStep a getBucketRegion existing t (vars g) with
          | None => None
          | Some (p, v) =>
              Some {| vars := v; pending := pending g;
                      threads := <[i := {| bucket := bucket t; at_ := p |}]> (threads g) |}
          end
      end
  end.

Fixpoint exec (a : awsFetcher) (getBucketRegion : option string → string * option error)
    (existing : Resources) (sched : list action) (g : group) : option group :=
  match sched with
  | [] => Some g
  | act :: sched' =>
      match step a getBucketRegion existing act g with
      | None => None
      | Some g' => exec a getBucketRegion existing sched' g'
      end
  end.

(** [eG.Wait()] returns once the loop is over and every closure returned. *)
Definition finished (g : group) : bool :=
  match pending g with
  | [] => forallb (λ t, negb (running t)) (threads g)
  | _ :: _ => false
  end.

Definition start (h : store) (buckets : list s3.Bucket) : group :=
  {| vars := {| heap := h; s3s := []; errs := []; mu := false; groupErr := None |};
     pending := buckets; threads := [] |}.

(** [fetchS3Buckets] under the schedule [sched] of its closures.  [None] when
    [sched] is not a run of the group up to the return of [eG.Wait()]. *)
Definition fetchS3Buckets (a : awsFetcher) (sched : list action)
  : M (list loc * option error) :=
  λ h,
    let existing := lastResult a in
    match listS3Buckets a with
    | inl err => Some (h, (S3Buckets existing, Some (Wrap err)))
    | inr (buckets, getBucketRegion) =>
        match exec a getBucketRegion existing sched (start h buckets) with
        | None => None
        | Some g =>
            if finished g
            then Some (heap (vars g), (s3s (vars g), NewAggregate (errs (vars g))))
            else None
        end
    end.

(** The function [pollAWSS3Buckets] returns: [result] is the [*Resources] it
    fills, [collected] what [collectErr] has been given so far. *)
Definition pollAWSS3Buckets (a : awsFetcher) (sched : list action)
    (result : Resources) (collected : list error)
  : M (Resources * list error * option error) :=
  do r <- fetchS3Buckets a sched;
  let result := {| S3Buckets := r.1 |} in
  let collected :=
    match r.2 with
    | Some err => collected ++ [Wrapped "failed to fetch s3 buckets" [] err]
    | None => collected
    end in
  ret (result, collected, None).

End Fetcher.

End S3Sync.

(** ** The provider's Redshift Serverless types (package [redshiftserverless]) *)

Module redshiftserverless.

Record Tag := { Key : option string; Value : option string }.

(** The fields this file reads, and the address the conversion to a
    database resource uses. *)
Record Workgroup := {
  WorkgroupName : option string;
  WorkgroupArn : option string;
  Status : option string;
  Endpoint : option string
}.

Record EndpointAccess := {
  EndpointName : option string;
  EndpointStatus : option string;
  Address : option string;
  (** the field [WorkgroupName] of [EndpointAccess] *)
  WorkgroupName_ : option string
}.

End redshiftserverless.

(** ** Logging ([log/slog]) *)

Inductive level : Type := LevelDebug | LevelInfo | LevelWarn.

Inductive attr : Type :=
| String_ (key value : string)
| Error_ (key : string) (err : error).

Record logRecord := { Level : level; Message : string; Attrs : list attr }.

(** ** [aws_redshift_serverless.go] *)

Module RedshiftServerless.
Import redshiftserverless.

(** [aws.StringValue] *)
Definition StringValue (p : option string) : string := default EmptyString p.

Record workgroupWithTags := {
  Workgroup_ : Workgroup;      (* the embedded [*redshiftserverless.Workgroup] *)
  Tags : list Tag
}.

(** What the provider answers to the request for page [i] of a listing. *)
Inductive pageResult (A : Type) : Type :=
| Page (items : list A) (hasNextPage : bool)
| PageError (err : error).
Arguments Page {A} items hasNextPage.
Arguments PageError {A} err.

(** The calls of [redshiftserverlessiface.RedshiftServerlessAPI] the fetcher
    makes; a paginated listing is given by its pages. *)
Record rssAPI := {
  ListWorkgroupsPages : nat → pageResult Workgroup;
  ListEndpointAccessPages : nat → pageResult EndpointAccess;
  ListTagsForResourceWithContext : option string → error + list Tag
}.

(** The SDK's [List...PagesWithContext(ctx, input, fn)]: request page after
    page, hand each to [fn] with [lastPage], stop when [fn] returns false,
    when the provider has no further page or on an error, which is returned.
    [fn] works on the variables it closes over, here the state [St].  [None]
    when [fuel] requests did not suffice. *)
Fixpoint PagesWithContext {A St : Type} (fuel : nat) (pages : nat → pageResult A) (i : nat)
    (fn : list A → bool → St → St * bool) (st : St) : option (St * option error) :=
  match fuel with
  | 0 => None
  | S fuel' =>
      match pages i with
      | PageError err => Some (st, Some err)
      | Page items hasNextPage =>
          let '(st', continue) := fn items (negb hasNextPage) st in
          if continue && hasNextPage
          then PagesWithContext fuel' pages (S i) fn st'
          else Some (st', None)
      end
  end.

(** Modelled from the spec: the helper [flatten] is not part of the sources
    at hand; it returns the concatenation of all pages in arrival order. *)
Definition flatten {A : Type} (pages : list (list A)) : list A := concat pages.

Section Plugin.

(** The database resource, [types.Database]. *)
Variable Database : Type.

(** The constant [maxAWSPages] of the package. *)
Variable maxAWSPages : nat.

(** [libcloudaws.IsResourceAvailable(r, status)], a function of the status. *)
Variable IsResourceAvailable : option string → bool.

(** [libcloudaws.ConvertRequestFailureError] on a non-nil error; nil stays nil. *)
Variable ConvertRequestFailureError : error → error.

(** [trace.IsAccessDenied] *)
Variable IsAccessDenied : error → bool.

(** [common.NewDatabaseFromRedshiftServerlessWorkgroup] and
    [common.NewDatabaseFromRedshiftServerlessVPCEndpoint]. *)
Variable NewDatabaseFromRedshiftServerlessWorkgroup :
  Workgroup → list Tag → error + Database.
Variable NewDatabaseFromRedshiftServerlessVPCEndpoint :
  EndpointAccess → Workgroup → list Tag → error + Database.

Definition getRSSWorkgroups (fuel : nat) (client : rssAPI)
  : option (list Workgroup * option error) :=
  let pages : list (list Workgroup) := [] in
  match PagesWithContext fuel (ListWorkgroupsPages client) 0
          (λ page lastPage pages,
             let pages := pages ++ [page] in
             (pages, bool_decide (length pages ≤ maxAWSPages)%nat))
          pages with
  | None => None
  | Some (pages, err) => Some (flatten pages, ConvertRequestFailureError <$> err)
  end.

Definition getRSSVPCEndpoints (fuel : nat) (client : rssAPI)
  : option (list EndpointAccess * option error) :=
  let pages : list (list EndpointAccess) := [] in
  match PagesWithContext fuel (ListEndpointAccessPages client) 0
          (λ page lastPage pages,
             let pages := pages ++ [page] in
             (pages, bool_decide (length pages ≤ maxAWSPages)%nat))
          pages with
  | None => None
  | Some (pages, err) => Some (flatten pages, ConvertRequestFailureError <$> err)
  end.

(** [Some w] is the result [(w, true)], [None] the result [(nil, false)]. *)
Fixpoint findWorkgroupWithName (workgroups : list workgroupWithTags) (name : string)
  : option workgroupWithTags :=
  match workgroups with
  | [] => None
  | workgroup :: rest =>
      if String.eqb (StringValue (WorkgroupName (Workgroup_ workgroup))) name
      then Some workgroup
      else findWorkgroupWithName rest name
  end.

(** The tags and the records logged. *)
Definition getRSSResourceTags (arn : option string) (client : rssAPI)
  : list Tag * list logRecord :=
  match ListTagsForResourceWithContext client arn with
  | inl err =>
      if IsAccessDenied err
      then ([], [ {| Level := LevelDebug;
                     Message := "No Permission to get Redshift Serverless tags";
                     Attrs := [String_ "arn" (StringValue arn); Error_ "error" err] |} ])
      else ([], [ {| Level := LevelWarn;
                     Message := "Failed to get Redshift Serverless tags";
                     Attrs := [String_ "arn" (StringValue arn); Error_ "error" err] |} ])
  | inr output => (output, [])
  end.

(** Every function below takes the records logged so far and returns them
    with its own appended. *)
Definition getDatabasesFromWorkgroups (fuel : nat) (client : rssAPI) (log : list logRecord)
  : option (list Database * list workgroupWithTags * option error * list logRecord) :=
  match getRSSWorkgroups fuel client with
  | None => None
  | Some (_, Some err) => Some ([], [], Some (Wrap err), log)
  | Some (workgroups, None) =>
      let '(databases, workgroupsWithTags, log) :=
        foldl (λ '(databases, workgroupsWithTags, log) workgroup,
                 if negb (IsResourceAvailable (Status workgroup))
                 then (databases, workgroupsWithTags,
                       log ++ [ {| Level := LevelDebug;
                                   Message := "Skipping unavailable  Redshift Serverless workgroup";
                                   Attrs := [String_ "workgroup" (StringValue (WorkgroupName workgroup));
                                             String_ "status" (StringValue (Status workgroup))] |} ])
                 else
                   let '(tags, logged) := getRSSResourceTags (WorkgroupArn workgroup) client in
                   let log := log ++ logged in
                   match NewDatabaseFromRedshiftServerlessWorkgroup workgroup tags with
                   | inl err =>
                       (databases, workgroupsWithTags,
                        log ++ [ {| Level := LevelInfo;
                                    Message := "Could not convert Redshift Serverless workgroup to database resource";
                                    Attrs := [String_ "workgroup" (StringValue (WorkgroupName workgroup));
                                              Error_ "error" err] |} ])
                   | inr database =>
                       (databases ++ [database],
                        workgroupsWithTags ++ [ {| Workgroup_ := workgroup; Tags := tags |} ],
                        log)
                   end)
              ([], [], log) workgroups in
      Some (databases, workgroupsWithTags, None, log)
  end.

(** The body of the loop of [getDatabasesFromVPCEndpoints]. *)
Definition endpointDatabase (workgroups : list workgroupWithTags)
    (st : list Database * list logRecord) (endpoint : EndpointAccess)
  : list Database * list logRecord :=
  let '(databases, log) := st in
  match findWorkgroupWithName workgroups (StringValue (WorkgroupName_ endpoint)) with
  | None =>
      (databases,
       log ++ [ {| Level := LevelDebug;
                   Message := "Could not find matching workgroup for Redshift Serverless endpoint";
                   Attrs := [String_ "endpoint" (StringValue (EndpointName endpoint))] |} ])
  | Some workgroup =>
      if negb (IsResourceAvailable (EndpointStatus endpoint))
      then (databases,
            log ++ [ {| Level := LevelDebug;
                        Message := "Skipping unavailable Redshift Serverless endpoint";
                        Attrs := [String_ "endpoint" (StringValue (EndpointName endpoint));
                                  String_ "status" (StringValue (EndpointStatus endpoint))] |} ])
      else
        match NewDatabaseFromRedshiftServerlessVPCEndpoint endpoint
                (Workgroup_ workgroup) (Tags workgroup) with
        | inl err =>
            (databases,
             log ++ [ {| Level := LevelInfo;
                         Message := "Could not convert Redshift Serverless endpoint to database resource";
                         Attrs := [String_ "endpoint" (StringValue (EndpointName endpoint));
                                   Error_ "error" err] |} ])
        | inr database => (databases ++ [database], log)
        end
  end.

(** The database the loop adds for one endpoint, if any. *)
Definition endpointRecord (workgroups : list workgroupWithTags) (endpoint : EndpointAccess)
  : option Database :=
  match findWorkgroupWithName workgroups (StringValue (WorkgroupName_ endpoint)) with
  | None => None
  | Some workgroup =>
      if IsResourceAvailable (EndpointStatus endpoint)
      then match NewDatabaseFromRedshiftServerlessVPCEndpoint endpoint
                   (Workgroup_ workgroup) (Tags workgroup) with
           | inl _ => None
           | inr database => Some database
           end
      else None
  end.

Definition getDatabasesFromVPCEndpoints (fuel : nat) (workgroups : list workgroupWithTags)
    (client : rssAPI) (log : list logRecord)
  : option (list Database * option error * list logRecord) :=
  match getRSSVPCEndpoints fuel client with
  | None => None
  | Some (_, Some err) => Some ([], Some (Wrap err), log)
  | Some (endpoints, None) =>
      let '(databases, log) := foldl (endpointDatabase workgroups) ([], log) endpoints in
      Some (databases, None, log)
  end.

(** [cfg.AWSClients.GetAWSRedshiftServerlessClient(ctx, cfg.Region, ...)] *)
Record awsFetcherConfig := { GetAWSRedshiftServerlessClient : error + rssAPI }.

Definition GetDatabases (fuel : nat) (cfg : awsFetcherConfig) (log : list logRecord)
  : option (list Database * option error * list logRecord) :=
  match GetAWSRedshiftServerlessClient cfg with
  | inl err => Some ([], Some (Wrap err), log)
  | inr client =>
      match getDatabasesFromWorkgroups fuel client log with
      | None => None
      | Some (_, _, Some err, log) => Some ([], Some (Wrap err), log)
      | Some (databases, workgroups, None, log) =>
          if bool_decide (0 < length workgroups)%nat
          then
            match getDatabasesFromVPCEndpoints fuel workgroups client log with
            | None => None
            | Some (vpcEndpointDatabases, err, log) =>
                let log :=
                  match err with
                  | Some err =>
                      if IsAccessDenied err
                      then log ++ [ {| Level := LevelDebug;
                                       Message := "No permission to get Redshift Serverless VPC endpoints";
                                       Attrs := [Error_ "error" err] |} ]
                      else log ++ [ {| Level := LevelWarn;
                                       Message := "Failed to get Redshift Serverless VPC endpoints";
                                       Attrs := [Error_ "error" err] |} ]
                  | None => log
                  end in
                Some (databases ++ vpcEndpointDatabases, None, log)
            end
          else Some (databases, None, log)
      end
  end.

End Plugin.

End RedshiftServerless.

(** ** The records a cycle is expected to produce

    The values, without the store, that the reconciliation is specified
    by.  The properties below relate the runs of [S3Sync] to them. *)

Module Snapshots.
Import S3Sync.

(** The snapshot the specification describes: [fresh], with every field
    whose flag is set taken from [prior]. *)
Definition mergedSnapshot (prior fresh : AWSS3BucketV1) (flags : failedRequests)
  : AWSS3BucketV1 :=
  {| Name := Name fresh;
     AccountId := AccountId fresh;
     PolicyDocument :=
       if policyFailed flags then PolicyDocument prior else PolicyDocument fresh;
     IsPublic := if failedPolicyStatus flags then IsPublic prior else IsPublic fresh;
     Acls := if failedAcls flags then Acls prior else Acls fresh;
     Tags := if failedTags flags then Tags prior else Tags fresh;
     LastSyncTime := LastSyncTime fresh |}.

(** The record [awsS3Bucket] builds. *)
Definition newSnapshot (timestampNow : string → Z) (name : string)
    (policy : option s3.GetBucketPolicyOutput)
    (policyStatus : option s3.GetBucketPolicyStatusOutput)
    (acls : option s3.GetBucketAclOutput)
    (tags : option s3.GetBucketTaggingOutput)
    (accountID : string) : AWSS3BucketV1 :=
  {| Name := name;
     AccountId := accountID;
     PolicyDocument :=
       match policy with
       | Some policy' => String.list_byte_of_string (ToString (s3.Policy policy'))
       | None => []
       end;
     IsPublic :=
       match policyStatus with
       | Some {| s3.PolicyStatus_ := Some status |} => ToBool (s3.IsPublic status)
       | _ => false
       end;
     Acls :=
       match acls with
       | Some acls' => awsACLsToProtoACLs (s3.Grants acls')
       | None => []
       end;
     Tags :=
       match tags with
       | Some tags' =>
           (λ tag, {| Key := ToString (s3.Key tag);
                      Value := strPtrToWrapper (s3.Value tag) |}) <$> s3.TagSet tags'
       | None => []
       end;
     LastSyncTime := timestampNow name |}.

(** The identity of a snapshot: name and account. *)
Definition sameIdentity (a : awsFetcher) (bucket : s3.Bucket) (b : AWSS3BucketV1) : bool :=
  String.eqb (Name b) (ToString (s3.Name bucket)) && String.eqb (AccountId b) (AccountID a).

(** The first snapshot of [s] in the store [h] that satisfies [f]. *)
Definition pickFirst (h : store) (s : list loc) (f : AWSS3BucketV1 → bool) : ptr :=
  List.find (λ l, match h !! l with Some b => f b | None => false end) s.

(** Every flag of the four fields set, as after a failed region lookup. *)
Definition allFieldsFailed : failedRequests :=
  {| policyFailed := true; failedPolicyStatus := true; failedAcls := true;
     failedTags := true; headFailed := false |}.

(** What the provider calls for one bucket give: the details, the flags and
    the errors. *)
Definition fetched (a : awsFetcher) (getBucketRegion : option string → string * option error)
    (bucket : s3.Bucket) : s3Details * failedRequests * list error :=
  match getBucketRegion (s3.Name bucket) with
  | (_, Some err) =>
      ({| policy := None; policyStatus := None; acls := None; tags := None |},
       allFieldsFailed, [Wrap err])
  | (bucketRegion, None) => getS3BucketDetails a bucket bucketRegion
  end.

(** The snapshot built from the calls alone. *)
Definition freshSnapshot (timestampNow : string → Z) (a : awsFetcher)
    (getBucketRegion : option string → string * option error) (bucket : s3.Bucket)
  : AWSS3BucketV1 :=
  let details := (fetched a getBucketRegion bucket).1.1 in
  newSnapshot timestampNow (ToString (s3.Name bucket)) (policy details)
    (policyStatus details) (acls details) (tags details) (AccountID a).

(** The snapshot of the bucket in the output of the cycle, [h] being the
    store the previous result set lives in. *)
Definition bucketSnapshot (timestampNow : string → Z) (a : awsFetcher)
    (getBucketRegion : option string → string * option error) (existing : Resources)
    (h : store) (bucket : s3.Bucket) : AWSS3BucketV1 :=
  let new := freshSnapshot timestampNow a getBucketRegion bucket in
  match pickFirst h (S3Buckets existing) (sameIdentity a bucket) with
  | Some l =>
      match h !! l with
      | Some prior => mergedSnapshot prior new (fetched a getBucketRegion bucket).1.2
      | None => new
      end
  | None => new
  end.

(** The error of the bucket in the aggregate of the cycle. *)
Definition bucketErr (a : awsFetcher)
    (getBucketRegion : option string → string * option error) (bucket : s3.Bucket)
  : option error :=
  NewAggregate (fetched a getBucketRegion bucket).2.

(** The entry of the error list for one sub-fetch: none when the call gave
    no error or one [soft] accepts as a legitimate absence. *)
Definition reported (soft : error → bool) (format : string) (bucket : s3.Bucket)
    (err : option error) : list error :=
  match err with
  | Some e => if soft e then [] else [Wrapped format [ToString (s3.Name bucket)] e]
  | None => []
  end.

(** The flag of one sub-fetch: set for an error that [soft] does not accept. *)
Definition hardFailure (soft : error → bool) (err : option error) : bool :=
  match err with
  | Some e => negb (soft e)
  | None => false
  end.

(** The provider error carries the code [code]. *)
Definition hasCode (code : string) (e : error) : bool :=
  match errorsAsAws e with
  | Some (c, _) => String.eqb c code
  | None => false
  end.

End Snapshots.

(** ** Invariants of the batch run *)

Module Batch.
Import S3Sync Snapshots.

(** The closure holds the mutex. *)
Definition holding (t : thread) : bool :=
  match at_ t with
  | Locked _ _ | ErrsDone _ | S3sDone => true
  | _ => false
  end.

(** The closure is past the append to [errs], respectively to [s3s]. *)
Definition pastErrs (t : thread) : bool :=
  match at_ t with
  | ErrsDone _ | S3sDone | AtReturn | Returned _ => true
  | _ => false
  end.

Definition pastS3s (t : thread) : bool :=
  match at_ t with
  | S3sDone | AtReturn | Returned _ => true
  | _ => false
  end.

(** The steps a closure has left. *)
Definition remaining (t : thread) : nat :=
  match at_ t with
  | Spawned => 6
  | AtCollect _ _ => 5
  | Locked _ _ => 4
  | ErrsDone _ => 3
  | S3sDone => 2
  | AtReturn => 1
  | Returned _ => 0
  end.

Definition stepsLeft (g : group) : nat :=
  7 * length (pending g) + sum_list_with remaining (threads g).

Section Invariant.

Variable timestampNow : string → Z.
Variable a : awsFetcher.
Variable getBucketRegion : option string → string * option error.
Variable existing : Resources.

(** The store at the start of the cycle and the buckets listed. *)
Variable h0 : store.
Variable buckets : list s3.Bucket.

Definition expected (b : s3.Bucket) : AWSS3BucketV1 :=
  bucketSnapshot timestampNow a getBucketRegion existing h0 b.

(** What a closure holds in its variables, by where it is. *)
Definition threadOk (h : store) (t : thread) : Prop :=
  match at_ t with
  | Spawned | S3sDone | AtReturn => True
  | AtCollect s3 err | Locked s3 err =>
      (∃ l, s3 = Some l ∧ h !! l = Some (expected (bucket t)))
      ∧ err = bucketErr a getBucketRegion (bucket t)
  | ErrsDone s3 => ∃ l, s3 = Some l ∧ h !! l = Some (expected (bucket t))
  | Returned r => r = None
  end.

Record Inv (g : group) : Prop := {
  inv_heap : h0 ⊆ heap (vars g);
  inv_buckets : (bucket <$> threads g) ++ pending g = buckets;
  inv_mu :
    sum_list_with (λ t, if holding t then 1 else 0)%nat (threads g)
    = if mu (vars g) then 1%nat else 0%nat;
  inv_threads : Forall (threadOk (heap (vars g))) (threads g);
  inv_groupErr : groupErr (vars g) = None;
  inv_s3s :
    (λ l, heap (vars g) !! l) <$> s3s (vars g)
    ≡ₚ threads g ≫= (λ t, if pastS3s t then [Some (expected (bucket t))] else []);
  inv_errs :
    errs (vars g)
    ≡ₚ threads g ≫= (λ t, if pastErrs t
                          then option_list (bucketErr a getBucketRegion (bucket t))
                          else []);
  inv_limit : (active (threads g) ≤ 5)%nat
}.

End Invariant.

End Batch.

(** ** Ownership of the snapshots of a batch run *)

Module Ownership.
Import S3Sync.

(** The snapshot a closure has for [collect] and has not appended yet. *)
Definition held (t : thread) : list loc :=
  match at_ t with
  | AtCollect (Some l) _ | Locked (Some l) _ | ErrsDone (Some l) => [l]
  | _ => []
  end.

(** The snapshots the run has produced so far. *)
Definition produced (g : group) : list loc :=
  s3s (vars g) ++ (threads g ≫= held).

(** They are pairwise distinct records of the store, none of which was in
    the store [h0] the cycle started from. *)
Record Owned (h0 : store) (g : group) : Prop := {
  owned_distinct : NoDup (produced g);
  owned_new :
    Forall (λ l, is_Some (heap (vars g) !! l) ∧ h0 !! l = None) (produced g)
}.

End Ownership.

(** ** Sample inputs *)

(** Two snapshots of the bucket [logs] to run the merge on. *)
Definition priorLogs : AWSS3BucketV1 :=
  {| Name := "logs"; AccountId := "111122223333";
     PolicyDocument := String.list_byte_of_string "{}"; IsPublic := true;
     Acls := []; Tags := [ {| Key := "env"; Value := Some "prod" |} ];
     LastSyncTime := 100 |}.

Definition freshLogs : AWSS3BucketV1 :=
  {| Name := "logs"; AccountId := "111122223333";
     PolicyDocument := []; IsPublic := false; Acls := []; Tags := [];
     LastSyncTime := 200 |}.

Definition twoSnapshots : store := <[2%positive := freshLogs]> {[ 1%positive := priorLogs ]}.

Definition tagsFailed : S3Sync.failedRequests :=
  {| S3Sync.policyFailed := false; S3Sync.failedPolicyStatus := false;
     S3Sync.failedAcls := false; S3Sync.failedTags := true; S3Sync.headFailed := false |}.

(** A provider that lists the buckets [logs] and [media]: the region lookup
    of [logs] fails, [media] has no location constraint, no policy, ACLs that
    cannot be read and no tag set. *)
Definition sampleS3 : S3Sync.S3Client :=
  {| S3Sync.ListBucketsWithContext :=
       inr [ {| s3.Name := Some "logs" |}; {| s3.Name := Some "media" |} ];
     S3Sync.GetBucketLocationWithContext :=
       λ name, if String.eqb (ToString name) "logs"
               then inl (OtherErr "request timed out")
               else inr None;
     S3Sync.GetBucketPolicyWithContext :=
       λ _, (Some {| s3.Policy := None |}, Some (AwsErr "NoSuchBucketPolicy" "no policy"));
     S3Sync.GetBucketPolicyStatusWithContext :=
       λ _, (Some {| s3.PolicyStatus_ := None |},
             Some (Wrapped EmptyString [] (AwsErr "NoSuchBucketPolicy" "no policy")));
     S3Sync.GetBucketAclWithContext :=
       λ _, (None, Some (AwsErr "AccessDenied" "denied"));
     S3Sync.GetBucketTaggingWithContext :=
       λ _, (Some {| s3.TagSet := [] |}, Some (AwsErr "NoSuchTagSet" "no tags")) |}.

Definition sampleFetcher : S3Sync.awsFetcher :=
  {| S3Sync.AccountID := "111122223333";
     S3Sync.Regions := ["eu-west-1"];
     S3Sync.GetAWSS3Client := λ _, inr sampleS3;
     S3Sync.lastResult := {| S3Sync.S3Buckets := [1%positive] |} |}.

(** The same provider when the listing of the buckets fails. *)
Definition listingDown : S3Sync.S3Client :=
  {| S3Sync.ListBucketsWithContext := inl (OtherErr "connection reset");
     S3Sync.GetBucketLocationWithContext := S3Sync.GetBucketLocationWithContext sampleS3;
     S3Sync.GetBucketPolicyWithContext := S3Sync.GetBucketPolicyWithContext sampleS3;
     S3Sync.GetBucketPolicyStatusWithContext := S3Sync.GetBucketPolicyStatusWithContext sampleS3;
     S3Sync.GetBucketAclWithContext := S3Sync.GetBucketAclWithContext sampleS3;
     S3Sync.GetBucketTaggingWithContext := S3Sync.GetBucketTaggingWithContext sampleS3 |}.

Definition downFetcher : S3Sync.awsFetcher :=
  {| S3Sync.AccountID := "111122223333";
     S3Sync.Regions := ["eu-west-1"];
     S3Sync.GetAWSS3Client := λ _, inr listingDown;
     S3Sync.lastResult := {| S3Sync.S3Buckets := [1%positive] |} |}.

Definition sampleClock : string → Z := λ _, 200%Z.

(** The store after a cycle that returned the snapshot [priorLogs]. *)
Definition previousCycle : store := {[ 1%positive := priorLogs ]}.

Definition sampleBuckets : list s3.Bucket :=
  [ {| s3.Name := Some "logs" |}; {| s3.Name := Some "media" |} ].

(** Both closures started, their steps interleaved. *)
Definition sampleSched : list S3Sync.action :=
  [ S3Sync.Dispatch; S3Sync.Dispatch; S3Sync.Run 1; S3Sync.Run 0; S3Sync.Run 0;
    S3Sync.Run 0; S3Sync.Run 0; S3Sync.Run 0; S3Sync.Run 1; S3Sync.Run 1;
    S3Sync.Run 1; S3Sync.Run 1; S3Sync.Run 0; S3Sync.Run 1 ].

(** A database resource with what the conversions below put in it. *)
Record sampleDatabase := {
  dbName : string;
  dbURI : string;
  dbLabels : list (string * string)
}.

Definition sampleLabels (tags : list redshiftserverless.Tag) : list (string * string) :=
  (λ tag, (RedshiftServerless.StringValue (redshiftserverless.Key tag),
           RedshiftServerless.StringValue (redshiftserverless.Value tag))) <$> tags.

(** Conversions that fail for a resource without an address. *)
Definition sampleWorkgroupDatabase (workgroup : redshiftserverless.Workgroup)
    (tags : list redshiftserverless.Tag) : error + sampleDatabase :=
  match redshiftserverless.Endpoint workgroup with
  | None => inl (OtherErr "missing endpoint")
  | Some address =>
      inr {| dbName := RedshiftServerless.StringValue (redshiftserverless.WorkgroupName workgroup);
             dbURI := address; dbLabels := sampleLabels tags |}
  end.

Definition sampleEndpointDatabase (endpoint : redshiftserverless.EndpointAccess)
    (workgroup : redshiftserverless.Workgroup) (tags : list redshiftserverless.Tag)
  : error + sampleDatabase :=
  match redshiftserverless.Address endpoint with
  | None => inl (OtherErr "missing endpoint")
  | Some address =>
      inr {| dbName := RedshiftServerless.StringValue (redshiftserverless.EndpointName endpoint);
             dbURI := address; dbLabels := sampleLabels tags |}
  end.

Definition sampleAvailable (status : option string) : bool :=
  negb (String.eqb (RedshiftServerless.StringValue status) "DELETING").

Definition sampleAccessDenied (err : error) : bool :=
  match errorsAsAws err with
  | Some (code, _) => String.eqb code "AccessDeniedException"
  | None => false
  end.

Definition w1 : redshiftserverless.Workgroup :=
  {| redshiftserverless.WorkgroupName := Some "w1";
     redshiftserverless.WorkgroupArn := Some "arn:aws:redshift-serverless:eu-west-1:111122223333:workgroup/w1";
     redshiftserverless.Status := Some "AVAILABLE";
     redshiftserverless.Endpoint := Some "w1.111122223333.eu-west-1.redshift-serverless.amazonaws.com" |}.

Definition w1Tags : list redshiftserverless.Tag :=
  [ {| redshiftserverless.Key := Some "env"; redshiftserverless.Value := Some "prod" |} ].

Definition w1WithTags : RedshiftServerless.workgroupWithTags :=
  {| RedshiftServerless.Workgroup_ := w1; RedshiftServerless.Tags := w1Tags |}.

(** An endpoint of [w1], one of a workgroup [w2] that is not listed, and one
    of [w1] that has no address. *)
Definition e1 : redshiftserverless.EndpointAccess :=
  {| redshiftserverless.EndpointName := Some "e1";
     redshiftserverless.EndpointStatus := Some "ACTIVE";
     redshiftserverless.Address := Some "e1.vpce.eu-west-1.redshift-serverless.amazonaws.com";
     redshiftserverless.WorkgroupName_ := Some "w1" |}.

Definition e2 : redshiftserverless.EndpointAccess :=
  {| redshiftserverless.EndpointName := Some "e2";
     redshiftserverless.EndpointStatus := Some "ACTIVE";
     redshiftserverless.Address := Some "e2.vpce.eu-west-1.redshift-serverless.amazonaws.com";
     redshiftserverless.WorkgroupName_ := Some "w2" |}.

Definition e3 : redshiftserverless.EndpointAccess :=
  {| redshiftserverless.EndpointName := Some "e3";
     redshiftserverless.EndpointStatus := Some "ACTIVE";
     redshiftserverless.Address := None;
     redshiftserverless.WorkgroupName_ := Some "w1" |}.

Definition sampleRSS (endpoints : RedshiftServerless.pageResult redshiftserverless.EndpointAccess)
  : RedshiftServerless.rssAPI :=
  {| RedshiftServerless.ListWorkgroupsPages := λ _, RedshiftServerless.Page [w1] false;
     RedshiftServerless.ListEndpointAccessPages := λ _, endpoints;
     RedshiftServerless.ListTagsForResourceWithContext := λ _, inr w1Tags |}.

(** The provider of [sampleRSS] when the listing of the VPC endpoints,
    respectively of the workgroups, fails. *)
Definition vpcListingDown : RedshiftServerless.rssAPI :=
  sampleRSS (RedshiftServerless.PageError (OtherErr "throttled")).

Definition workgroupListingDown : RedshiftServerless.rssAPI :=
  {| RedshiftServerless.ListWorkgroupsPages :=
       λ _, RedshiftServerless.PageError (OtherErr "throttled");
     RedshiftServerless.ListEndpointAccessPages :=
       λ _, RedshiftServerless.Page [] false;
     RedshiftServerless.ListTagsForResourceWithContext := λ _, inr [] |}.

(** A provider whose listings never end: page [i] holds one item, named
    after [i], and announces a next page. *)
Definition endlessRSS : RedshiftServerless.rssAPI :=
  {| RedshiftServerless.ListWorkgroupsPages :=
       λ i, RedshiftServerless.Page
              [ {| redshiftserverless.WorkgroupName := Some (pretty i);
                   redshiftserverless.WorkgroupArn := None;
                   redshiftserverless.Status := Some "AVAILABLE";
                   redshiftserverless.Endpoint := None |} ] true;
     RedshiftServerless.ListEndpointAccessPages :=
       λ i, RedshiftServerless.Page
              [ {| redshiftserverless.EndpointName := Some (pretty i);
                   redshiftserverless.EndpointStatus := Some "ACTIVE";
                   redshiftserverless.Address := None;
                   redshiftserverless.WorkgroupName_ := Some "w1" |} ] true;
     RedshiftServerless.ListTagsForResourceWithContext := λ _, inr [] |}.

(** A snapshot of [media] of an earlier cycle, with the grant of its owner. *)
Definition priorMedia : AWSS3BucketV1 :=
  {| Name := "media"; AccountId := "111122223333";
     PolicyDocument := []; IsPublic := false;
     Acls := [ {| Grantee := {| Id := "owner"; DisplayName := "media-team";
                                Type_ := "CanonicalUser"; Uri := EmptyString;
                                EmailAddress := EmptyString |};
                  Permission := "FULL_CONTROL" |} ];
     Tags := []; LastSyncTime := 100 |}.

(** The store after a cycle that returned [priorLogs] and [priorMedia]. *)
Definition bothSnapshots : store := <[2%positive := priorMedia]> previousCycle.

(** [sampleFetcher] once a cycle has returned the snapshots at [out]. *)
Definition nextFetcher (out : list loc) : S3Sync.awsFetcher :=
  {| S3Sync.AccountID := "111122223333";
     S3Sync.Regions := ["eu-west-1"];
     S3Sync.GetAWSS3Client := λ _, inr sampleS3;
     S3Sync.lastResult := {| S3Sync.S3Buckets := out |} |}.

(** A fetcher that has a client for the region of the listing alone. *)
Definition regionalFetcher : S3Sync.awsFetcher :=
  {| S3Sync.AccountID := "111122223333";
     S3Sync.Regions := ["eu-west-1"];
     S3Sync.GetAWSS3Client :=
       λ region, if String.eqb region "eu-west-1"
                 then inr sampleS3
                 else inl (OtherErr "no credentials");
     S3Sync.lastResult := {| S3Sync.S3Buckets := [1%positive; 2%positive] |} |}.

(** A fetcher that has no client at all. *)
Definition noClientFetcher : S3Sync.awsFetcher :=
  {| S3Sync.AccountID := "111122223333";
     S3Sync.Regions := [];
     S3Sync.GetAWSS3Client := λ _, inl (OtherErr "no credentials");
     S3Sync.lastResult := {| S3Sync.S3Buckets := [1%positive] |} |}.

(** One closure after the other. *)
Definition sequentialSched : list S3Sync.action :=
  [ S3Sync.Dispatch; S3Sync.Run 0; S3Sync.Run 0; S3Sync.Run 0; S3Sync.Run 0;
    S3Sync.Run 0; S3Sync.Run 0;
    S3Sync.Dispatch; S3Sync.Run 1; S3Sync.Run 1; S3Sync.Run 1; S3Sync.Run 1;
    S3Sync.Run 1; S3Sync.Run 1 ].

Definition ownerGrant : s3.Grant :=
  {| s3.Grantee_ := {| s3.ID := Some "owner"; s3.DisplayName := Some "media-team";
                       s3.Type_ := Some "CanonicalUser"; s3.URI := None;
                       s3.EmailAddress := None |};
     s3.Permission := Some "FULL_CONTROL" |}.

Definition readGrant : s3.Grant :=
  {| s3.Grantee_ := {| s3.ID := None; s3.DisplayName := None;
                       s3.Type_ := Some "Group";
                       s3.URI := Some "http://acs.amazonaws.com/groups/global/AllUsers";
                       s3.EmailAddress := None |};
     s3.Permission := Some "READ" |}.

(** A provider with three pages of each listing, one item a page. *)
Definition threePages : RedshiftServerless.rssAPI :=
  {| RedshiftServerless.ListWorkgroupsPages :=
       λ i, RedshiftServerless.Page
              [ {| redshiftserverless.WorkgroupName := Some (pretty i);
                   redshiftserverless.WorkgroupArn := None;
                   redshiftserverless.Status := Some "AVAILABLE";
                   redshiftserverless.Endpoint := None |} ] (bool_decide (S i < 3)%nat);
     RedshiftServerless.ListEndpointAccessPages :=
       λ i, RedshiftServerless.Page
              [ {| redshiftserverless.EndpointName := Some (pretty i);
                   redshiftserverless.EndpointStatus := Some "ACTIVE";
                   redshiftserverless.Address := None;
                   redshiftserverless.WorkgroupName_ := Some "w1" |} ]
              (bool_decide (S i < 3)%nat);
     RedshiftServerless.ListTagsForResourceWithContext := λ _, inr [] |}.

(** The provider of [sampleRSS] when the tags cannot be listed. *)
Definition tagsDenied : RedshiftServerless.rssAPI :=
  {| RedshiftServerless.ListWorkgroupsPages := λ _, RedshiftServerless.Page [w1] false;
     RedshiftServerless.ListEndpointAccessPages := λ _, RedshiftServerless.Page [e1] false;
     RedshiftServerless.ListTagsForResourceWithContext :=
       λ _, inl (AwsErr "AccessDeniedException" "not authorized") |}.

(** * Properties *)

(** ** Properties of the reconciler *)

Section Merge.
Import S3Sync Snapshots.

Lemma fresh_lookup_None (h : store) : h !! fresh (dom h) = None.
Proof. apply not_elem_of_dom, is_fresh. Qed.

Lemma fresh_ne (h : store) (l : loc) (v : AWSS3BucketV1) :
  h !! l = Some v → l ≠ fresh (dom h).
Proof. intros Hl ->. rewrite fresh_lookup_None in Hl. discriminate. Qed.

(** The run of [mergeS3Protos] on two records of the store: one record is
    added, at the location of the clone. *)
Lemma mergeS3Protos_run (h : store) (pe pn : loc) (e n : AWSS3BucketV1)
    (flags : failedRequests) :
  h !! pe = Some e → h !! pn = Some n →
  mergeS3Protos (Some pe) (Some pn) flags h
  = Some (<[fresh (dom h) := mergedSnapshot e n flags]> h, Some (fresh (dom h))).
Proof.
  intros He Hn.
  pose proof (fresh_ne h pe e He) as Hpe.
  unfold mergeS3Protos, protoClone, bind, load, alloc, when, storeAt, ret.
  rewrite Hn. cbn zeta.
  destruct flags as [[] [] [] [] hd]; cbn [policyFailed failedPolicyStatus failedAcls failedTags];
    repeat (first [ rewrite lookup_insert_eq
                  | rewrite (lookup_insert_ne _ _ _ _ (not_eq_sym Hpe))
                  | rewrite (lookup_insert_ne _ _ _ _ Hpe)
                  | rewrite He
                  | rewrite insert_insert_eq ]);
    destruct n; reflexivity.
Qed.

(** C1 (merge correctness).  With nil for [prior] the merge returns [fresh],
    with nil for [fresh] it returns [prior], and the store is left as it
    was.  For two snapshots of the store it returns a snapshot that has the
    policy document, the public-access flag, the ACLs and the tags of [prior]
    where the flag of the field is set and of [fresh] where it is not, and
    every other field of [fresh]. *)
Theorem mergeS3Protos_fields (h : store) (flags : failedRequests) :
  (∀ fresh, mergeS3Protos None fresh flags h = Some (h, fresh)) ∧
  (∀ prior, mergeS3Protos prior None flags h = Some (h, prior)) ∧
  ∀ pe pn e n,
    h !! pe = Some e → h !! pn = Some n →
    ∃ h' l m,
      mergeS3Protos (Some pe) (Some pn) flags h = Some (h', Some l) ∧
      h' !! l = Some m ∧
      PolicyDocument m = (if policyFailed flags then PolicyDocument e else PolicyDocument n) ∧
      IsPublic m = (if failedPolicyStatus flags then IsPublic e else IsPublic n) ∧
      Acls m = (if failedAcls flags then Acls e else Acls n) ∧
      Tags m = (if failedTags flags then Tags e else Tags n) ∧
      Name m = Name n ∧ AccountId m = AccountId n ∧ LastSyncTime m = LastSyncTime n.
Proof.
  split; [|split].
  - reflexivity.
  - intros [prior|]; reflexivity.
  - intros pe pn e n He Hn.
    eexists _, _, _. split; [exact (mergeS3Protos_run h pe pn e n flags He Hn)|].
    rewrite lookup_insert_eq. repeat split; reflexivity.
Qed.

(** C9 (frame of the merge).  On two snapshots of the store the merge
    changes neither: both are read back as before, the snapshot returned is
    at a location that was not in use, so it is neither of the two, and no
    other record of the store is touched. *)
Theorem mergeS3Protos_frame (h : store) (pe pn : loc) (e n : AWSS3BucketV1)
    (flags : failedRequests) :
  h !! pe = Some e → h !! pn = Some n →
  ∃ h' l,
    mergeS3Protos (Some pe) (Some pn) flags h = Some (h', Some l) ∧
    h' !! pe = Some e ∧ h' !! pn = Some n ∧
    h !! l = None ∧ l ≠ pe ∧ l ≠ pn ∧
    (∀ q, q ≠ l → h' !! q = h !! q).
Proof.
  intros He Hn.
  pose proof (fresh_ne h pe e He) as Hpe.
  pose proof (fresh_ne h pn n Hn) as Hpn.
  eexists _, _. split; [exact (mergeS3Protos_run h pe pn e n flags He Hn)|].
  repeat split.
  - rewrite lookup_insert_ne; [exact He | congruence].
  - rewrite lookup_insert_ne; [exact Hn | congruence].
  - apply fresh_lookup_None.
  - congruence.
  - congruence.
  - intros q Hq. apply lookup_insert_ne. congruence.
Qed.

End Merge.

Lemma mergeS3Protos_fields_witness :
  ∃ h' l m,
    S3Sync.mergeS3Protos (Some 1%positive) (Some 2%positive) tagsFailed twoSnapshots
    = Some (h', Some l) ∧
    h' !! l = Some m ∧ Tags m = Tags priorLogs ∧ PolicyDocument m = PolicyDocument freshLogs.
Proof.
  destruct (mergeS3Protos_fields twoSnapshots tagsFailed) as (_ & _ & Hmerge).
  destruct (Hmerge 1%positive 2%positive priorLogs freshLogs eq_refl eq_refl)
    as (h' & l & m & Hrun & Hl & Hp & _ & _ & Ht & _).
  exists h', l, m. repeat split; assumption.
Defined.

Lemma mergeS3Protos_frame_witness :
  ∃ h' l,
    S3Sync.mergeS3Protos (Some 1%positive) (Some 2%positive) tagsFailed twoSnapshots
    = Some (h', Some l) ∧
    h' !! 1%positive = Some priorLogs ∧ h' !! 2%positive = Some freshLogs.
Proof.
  destruct (mergeS3Protos_frame twoSnapshots 1 2 priorLogs freshLogs tagsFailed)
    as (h' & l & Hrun & H1 & H2 & _); [reflexivity | reflexivity |].
  exists h', l. repeat split; assumption.
Defined.

(** ** Properties of the detail fetcher and of the listing *)

Section Details.
Import S3Sync Snapshots.

Variable knownRegion : string.
Variable timestampNow : string → Z.

(** C2 (soft-failure classification).  With a client for the region of the
    bucket, the error list of [getS3BucketDetails] has, in the order of the
    calls, one entry per sub-fetch whose error is not a legitimate absence,
    and the flag of a field is set exactly when its sub-fetch has such an
    entry: an error with code NoSuchBucketPolicy on the policy or the
    policy-status call, or NoSuchTagSet on the tags call, adds no entry and
    sets no flag; every other error adds its entry and sets the flag; every
    error of the ACL call does. *)
Theorem getS3BucketDetails_classification (a : awsFetcher) (bucket : s3.Bucket)
    (bucketRegion : string) (c : S3Client) :
  GetAWSS3Client a bucketRegion = inr c →
  let policyErr := (GetBucketPolicyWithContext c (s3.Name bucket)).2 in
  let statusErr := (GetBucketPolicyStatusWithContext c (s3.Name bucket)).2 in
  let aclErr := (GetBucketAclWithContext c (s3.Name bucket)).2 in
  let tagsErr := (GetBucketTaggingWithContext c (s3.Name bucket)).2 in
  let '(_, flags, errs) := getS3BucketDetails a bucket bucketRegion in
  errs = reported (hasCode "NoSuchBucketPolicy")
           "failed to fetch bucket %q inline policy" bucket policyErr
         ++ reported (hasCode "NoSuchBucketPolicy")
              "failed to fetch bucket %q policy status" bucket statusErr
         ++ reported (λ _, false) "failed to fetch bucket %q acls policies" bucket aclErr
         ++ reported (hasCode "NoSuchTagSet") "failed to fetch bucket %q tags" bucket tagsErr
  ∧ policyFailed flags = hardFailure (hasCode "NoSuchBucketPolicy") policyErr
  ∧ failedPolicyStatus flags = hardFailure (hasCode "NoSuchBucketPolicy") statusErr
  ∧ failedAcls flags = hardFailure (λ _, false) aclErr
  ∧ failedTags flags = hardFailure (hasCode "NoSuchTagSet") tagsErr
  ∧ headFailed flags = false.
Proof.
  intros Hc. unfold getS3BucketDetails. rewrite Hc.
  unfold isS3BucketPolicyNotFound, isS3BucketNoTagSet, reported, hardFailure, hasCode.
  destruct (GetBucketPolicyWithContext c (s3.Name bucket)) as [o1 [e1|]];
    destruct (GetBucketPolicyStatusWithContext c (s3.Name bucket)) as [o2 [e2|]];
    destruct (GetBucketAclWithContext c (s3.Name bucket)) as [o3 [e3|]];
    destruct (GetBucketTaggingWithContext c (s3.Name bucket)) as [o4 [e4|]];
    cbn [snd];
    repeat match goal with
           | |- context [errorsAsAws ?e] => destruct (errorsAsAws e) as [[? ?]|]
           | |- context [String.eqb ?x ?y] => destruct (String.eqb x y)
           end;
    cbn; repeat split; reflexivity.
Qed.

(** The region [listS3Buckets] asks a client for. *)
Lemma listS3Buckets_listing (a : awsFetcher) (c : S3Client) :
  GetAWSS3Client a (match Regions a with r :: _ => r | [] => knownRegion end) = inr c →
  listS3Buckets knownRegion a
  = match ListBucketsWithContext c with
    | inl err => inl (Wrap err)
    | inr buckets => inr (buckets, getBucketRegion c)
    end.
Proof. intros Hc. unfold listS3Buckets. rewrite Hc. reflexivity. Qed.

Lemma fetchS3Buckets_listing_failed (a : awsFetcher) (err : error)
    (sched : list action) (h : store) :
  listS3Buckets knownRegion a = inl err →
  fetchS3Buckets knownRegion timestampNow a sched h
  = Some (h, (S3Buckets (lastResult a), Some (Wrap err))).
Proof. intros Hl. unfold fetchS3Buckets. rewrite Hl. reflexivity. Qed.

(** C3 (listing failure).  When the call that lists the buckets fails,
    [fetchS3Buckets] returns the result set of the previous cycle as it is,
    with a non-nil error that wraps the one of the call; no closure is run,
    whatever the schedule, and the store is the one before the call: no
    record was built or merged. *)
Theorem fetchS3Buckets_listing_failure (a : awsFetcher) (c : S3Client) (err : error)
    (sched : list action) (h : store) :
  GetAWSS3Client a (match Regions a with r :: _ => r | [] => knownRegion end) = inr c →
  ListBucketsWithContext c = inl err →
  fetchS3Buckets knownRegion timestampNow a sched h
  = Some (h, (S3Buckets (lastResult a), Some (Wrap (Wrap err)))).
Proof.
  intros Hc Hl. apply fetchS3Buckets_listing_failed.
  rewrite (listS3Buckets_listing a c Hc), Hl. reflexivity.
Qed.

(** C10 (absent location constraint).  When [GetBucketLocation] succeeds
    with no location constraint, the region resolver that [listS3Buckets]
    returns gives us-east-1 and no error, and the closure of the bucket goes
    on to the detail calls in that region: what it hands to [collect] is the
    merge of the snapshot built from the details, with the flags and the
    errors of [getS3BucketDetails] alone. *)
Theorem getBucketRegion_nil_constraint (a : awsFetcher) (c : S3Client)
    (buckets : list s3.Bucket) (bucket : s3.Bucket) :
  GetAWSS3Client a (match Regions a with r :: _ => r | [] => knownRegion end) = inr c →
  ListBucketsWithContext c = inr buckets →
  GetBucketLocationWithContext c (s3.Name bucket) = inr None →
  ∃ resolver,
    listS3Buckets knownRegion a = inr (buckets, resolver) ∧
    resolver (s3.Name bucket) = ("us-east-1", None) ∧
    ∀ (existing : Resources) (h : store),
      task timestampNow a resolver existing bucket h
      = (do existingBucket <-
           sliceFilterPickFirst (S3Buckets existing)
             (λ b, String.eqb (Name b) (ToString (s3.Name bucket))
                   && String.eqb (AccountId b) (AccountID a));
         let '(details, failedReqs, errsL) := getS3BucketDetails a bucket "us-east-1" in
         do newBucket <-
           awsS3Bucket timestampNow (ToString (s3.Name bucket)) (policy details)
             (policyStatus details) (acls details) (tags details) (AccountID a);
         do merged <- mergeS3Protos existingBucket (Some newBucket) failedReqs;
         ret (merged, NewAggregate errsL)) h.
Proof.
  intros Hc Hl Hloc. exists (getBucketRegion c).
  assert (Hr : getBucketRegion c (s3.Name bucket) = ("us-east-1", None)).
  { unfold getBucketRegion. rewrite Hloc. reflexivity. }
  split; [|split].
  - rewrite (listS3Buckets_listing a c Hc), Hl. reflexivity.
  - exact Hr.
  - intros existing h. unfold task. rewrite Hr. reflexivity.
Qed.

End Details.

Lemma getS3BucketDetails_classification_witness :
  let '(_, flags, errs) :=
    S3Sync.getS3BucketDetails sampleFetcher {| s3.Name := Some "media" |} "us-east-1" in
  errs = [Wrapped "failed to fetch bucket %q acls policies" ["media"]
            (AwsErr "AccessDenied" "denied")]
  ∧ S3Sync.policyFailed flags = false ∧ S3Sync.failedPolicyStatus flags = false
  ∧ S3Sync.failedAcls flags = true ∧ S3Sync.failedTags flags = false.
Proof.
  pose proof (getS3BucketDetails_classification sampleFetcher
                {| s3.Name := Some "media" |} "us-east-1" sampleS3 eq_refl) as H.
  cbv zeta in H.
  destruct (S3Sync.getS3BucketDetails sampleFetcher {| s3.Name := Some "media" |} "us-east-1")
    as [[d flags] errs].
  destruct H as (He & H1 & H2 & H3 & H4 & _).
  repeat split; assumption.
Defined.

Lemma fetchS3Buckets_listing_failure_witness :
  S3Sync.fetchS3Buckets "us-east-1" sampleClock downFetcher [] twoSnapshots
  = Some (twoSnapshots, ([1%positive], Some (Wrap (Wrap (OtherErr "connection reset"))))).
Proof.
  exact (fetchS3Buckets_listing_failure "us-east-1" sampleClock downFetcher listingDown
           (OtherErr "connection reset") [] twoSnapshots eq_refl eq_refl).
Defined.

Lemma getBucketRegion_nil_constraint_witness :
  ∃ resolver,
    S3Sync.listS3Buckets "us-east-1" sampleFetcher
    = inr ([ {| s3.Name := Some "logs" |}; {| s3.Name := Some "media" |} ], resolver) ∧
    resolver (Some "media") = ("us-east-1", None).
Proof.
  destruct (getBucketRegion_nil_constraint "us-east-1" sampleClock sampleFetcher sampleS3
              [ {| s3.Name := Some "logs" |}; {| s3.Name := Some "media" |} ]
              {| s3.Name := Some "media" |} eq_refl eq_refl eq_refl)
    as (resolver & Hl & Hr & _).
  exists resolver. split; assumption.
Defined.

(** ** Runs on the store *)

Section Runs.
Import S3Sync Snapshots.

Variable timestampNow : string → Z.

Lemma bind_run {A B} (m : M A) (k : A → M B) (h h' : store) (x : A) :
  m h = Some (h', x) → bind m k h = k x h'.
Proof. intros Hm. unfold bind. rewrite Hm. reflexivity. Qed.

Lemma storeAt_run (l : loc) (f : AWSS3BucketV1 → AWSS3BucketV1) (h : store)
    (v : AWSS3BucketV1) :
  storeAt l f (<[l := v]> h) = Some (<[l := f v]> h, tt).
Proof. unfold storeAt. rewrite lookup_insert_eq, insert_insert_eq. reflexivity. Qed.

Lemma set_Tags_nil (v : AWSS3BucketV1) : set_Tags (Tags v ++ []) v = v.
Proof. destruct v. unfold set_Tags. cbn. rewrite app_nil_r. reflexivity. Qed.

(** The loop over the tag set appends the tags, in order, to the record. *)
Lemma tags_loop_run (l : loc) (conv : s3.Tag → AWSTag) (tagSet : list s3.Tag) :
  ∀ (m : M unit) (h h1 : store) (v : AWSS3BucketV1),
    m h = Some (<[l := v]> h1, tt) →
    foldl (λ m tag, m;; storeAt l (λ b, set_Tags (Tags b ++ [conv tag]) b)) m tagSet h
    = Some (<[l := set_Tags (Tags v ++ (conv <$> tagSet)) v]> h1, tt).
Proof.
  induction tagSet as [|tag tagSet IH]; intros m h h1 v Hm; cbn [foldl fmap list_fmap].
  - rewrite set_Tags_nil. exact Hm.
  - rewrite (IH _ h h1 (set_Tags (Tags v ++ [conv tag]) v)).
    + destruct v. unfold set_Tags. cbn. rewrite <- app_assoc. reflexivity.
    + rewrite (bind_run _ _ _ _ _ Hm). rewrite storeAt_run. reflexivity.
Qed.

Lemma awsS3Bucket_run (name : string) (policy : option s3.GetBucketPolicyOutput)
    (policyStatus : option s3.GetBucketPolicyStatusOutput)
    (acls : option s3.GetBucketAclOutput) (tags : option s3.GetBucketTaggingOutput)
    (accountID : string) (h : store) :
  awsS3Bucket timestampNow name policy policyStatus acls tags accountID h
  = Some (<[fresh (dom h) := newSnapshot timestampNow name policy policyStatus acls tags
                               accountID]> h,
          fresh (dom h)).
Proof.
  unfold awsS3Bucket, newSnapshot.
  rewrite (bind_run _ _ h _ _ eq_refl).
  set (l := fresh (dom h)).
  match goal with |- context [<[l := ?v]> h] => set (v0 := v) end.
  assert (H1 : ∃ v1, (match policy with
                      | Some policy' =>
                          storeAt l (set_PolicyDocument
                                       (String.list_byte_of_string (ToString (s3.Policy policy'))))
                      | None => ret tt
                      end) (<[l := v0]> h) = Some (<[l := v1]> h, tt)
                     ∧ v1 = match policy with
                            | Some policy' =>
                                set_PolicyDocument
                                  (String.list_byte_of_string (ToString (s3.Policy policy'))) v0
                            | None => v0
                            end).
  { destruct policy; eexists; (split; [first [rewrite storeAt_run; reflexivity | reflexivity] | reflexivity]). }
  destruct H1 as (v1 & H1 & Hv1). rewrite (bind_run _ _ _ _ _ H1). clear H1.
  assert (H2 : ∃ v2, (match policyStatus with
                      | Some {| s3.PolicyStatus_ := Some status |} =>
                          storeAt l (set_IsPublic (ToBool (s3.IsPublic status)))
                      | _ => ret tt
                      end) (<[l := v1]> h) = Some (<[l := v2]> h, tt)
                     ∧ v2 = match policyStatus with
                            | Some {| s3.PolicyStatus_ := Some status |} =>
                                set_IsPublic (ToBool (s3.IsPublic status)) v1
                            | _ => v1
                            end).
  { destruct policyStatus as [[[status|]]|]; eexists;
      (split; [first [rewrite storeAt_run; reflexivity | reflexivity] | reflexivity]). }
  destruct H2 as (v2 & H2 & Hv2). rewrite (bind_run _ _ _ _ _ H2). clear H2.
  assert (H3 : ∃ v3, (match acls with
                      | Some acls' => storeAt l (set_Acls (awsACLsToProtoACLs (s3.Grants acls')))
                      | None => ret tt
                      end) (<[l := v2]> h) = Some (<[l := v3]> h, tt)
                     ∧ v3 = match acls with
                            | Some acls' => set_Acls (awsACLsToProtoACLs (s3.Grants acls')) v2
                            | None => v2
                            end).
  { destruct acls; eexists; (split; [first [rewrite storeAt_run; reflexivity | reflexivity] | reflexivity]). }
  destruct H3 as (v3 & H3 & Hv3). rewrite (bind_run _ _ _ _ _ H3). clear H3.
  set (conv := λ tag : s3.Tag,
         {| Key := ToString (s3.Key tag); Value := strPtrToWrapper (s3.Value tag) |}).
  assert (H4 : (match tags with
                | Some tags' =>
                    foldl (λ m tag, m;; storeAt l (λ b, set_Tags (Tags b ++ [conv tag]) b))
                      (ret tt) (s3.TagSet tags')
                | None => ret tt
                end) (<[l := v3]> h)
               = Some (<[l := match tags with
                              | Some tags' => set_Tags (Tags v3 ++ (conv <$> s3.TagSet tags')) v3
                              | None => v3
                              end]> h, tt)).
  { destruct tags as [tags'|]; [|reflexivity].
    apply tags_loop_run. reflexivity. }
  rewrite (bind_run _ _ _ _ _ H4). clear H4.
  unfold ret. subst v3 v2 v1 v0.
  destruct policy, policyStatus as [[[status|]]|], acls, tags; reflexivity.
Qed.

Lemma sliceFilterPickFirst_run (s : list loc) (f : AWSS3BucketV1 → bool) (h : store) :
  Forall (λ l, is_Some (h !! l)) s →
  sliceFilterPickFirst s f h = Some (h, pickFirst h s f).
Proof.
  induction 1 as [|l s [b Hb] _ IH]; [reflexivity|].
  cbn [sliceFilterPickFirst]. unfold pickFirst. cbn [List.find].
  rewrite (bind_run _ _ h h b); [|unfold load; rewrite Hb; reflexivity].
  rewrite Hb. destruct (f b); [reflexivity | exact IH].
Qed.

Lemma pickFirst_Some (h : store) (s : list loc) (f : AWSS3BucketV1 → bool) (l : loc) :
  pickFirst h s f = Some l → ∃ b, h !! l = Some b ∧ f b = true ∧ l ∈ s.
Proof.
  unfold pickFirst. intros Hf. apply List.find_some in Hf as [Hin Hl].
  destruct (h !! l) as [b|]; [|discriminate].
  exists b. repeat split; [assumption | apply list_elem_of_In; assumption].
Qed.

(** The snapshots of the previous result set are read the same in every
    store that extends the one they live in. *)
Lemma pickFirst_weaken (h h' : store) (s : list loc) (f : AWSS3BucketV1 → bool) :
  h ⊆ h' → Forall (λ l, is_Some (h !! l)) s → pickFirst h' s f = pickFirst h s f.
Proof.
  intros Hsub Hs. unfold pickFirst.
  induction Hs as [|l s [b Hb] _ IH]; [reflexivity|].
  cbn [List.find]. rewrite Hb, (lookup_weaken _ _ _ _ Hb Hsub), IH. reflexivity.
Qed.

Lemma bucketSnapshot_weaken (a : awsFetcher)
    (resolver : option string → string * option error) (existing : Resources)
    (h h' : store) (b : s3.Bucket) :
  h ⊆ h' → Forall (λ l, is_Some (h !! l)) (S3Buckets existing) →
  bucketSnapshot timestampNow a resolver existing h' b
  = bucketSnapshot timestampNow a resolver existing h b.
Proof.
  intros Hsub Hs. unfold bucketSnapshot.
  rewrite (pickFirst_weaken h h' _ _ Hsub Hs).
  destruct (pickFirst h (S3Buckets existing) (sameIdentity a b)) as [l|] eqn:Hp;
    [|reflexivity].
  apply pickFirst_Some in Hp as (prior & Hl & _).
  rewrite Hl, (lookup_weaken _ _ _ _ Hl Hsub). reflexivity.
Qed.

(** The closure, in terms of what the provider calls give. *)
Lemma task_fetched (a : awsFetcher) (resolver : option string → string * option error)
    (existing : Resources) (b : s3.Bucket) (h : store) :
  task timestampNow a resolver existing b h
  = (do existingBucket <-
       sliceFilterPickFirst (S3Buckets existing) (sameIdentity a b);
     do newBucket <-
       awsS3Bucket timestampNow (ToString (s3.Name b))
         (policy (fetched a resolver b).1.1) (policyStatus (fetched a resolver b).1.1)
         (acls (fetched a resolver b).1.1) (tags (fetched a resolver b).1.1) (AccountID a);
     do merged <- mergeS3Protos existingBucket (Some newBucket) (fetched a resolver b).1.2;
     ret (merged, NewAggregate (fetched a resolver b).2)) h.
Proof.
  unfold task, fetched, sameIdentity.
  destruct (resolver (s3.Name b)) as [region [err|]]; [reflexivity|].
  destruct (getS3BucketDetails a b region) as [[details flags] errsL]. reflexivity.
Qed.

(** The run of a closure up to [collect]: it always hands over a snapshot,
    at a location that was not in use, the store is extended, and the
    snapshot and the error are the expected ones. *)
Lemma task_run (a : awsFetcher) (resolver : option string → string * option error)
    (existing : Resources) (b : s3.Bucket) (h : store) :
  Forall (λ l, is_Some (h !! l)) (S3Buckets existing) →
  ∃ h' l,
    task timestampNow a resolver existing b h
    = Some (h', (Some l, bucketErr a resolver b)) ∧
    h ⊆ h' ∧ h !! l = None ∧
    h' !! l = Some (bucketSnapshot timestampNow a resolver existing h b).
Proof.
  intros Hs. rewrite task_fetched.
  rewrite (bind_run _ _ _ _ _ (sliceFilterPickFirst_run _ _ h Hs)).
  rewrite (bind_run _ _ _ _ _ (awsS3Bucket_run _ _ _ _ _ _ h)).
  unfold bucketSnapshot, freshSnapshot, bucketErr.
  set (new := newSnapshot _ _ _ _ _ _ _).
  set (l1 := fresh (dom h)).
  assert (Hl1 : h !! l1 = None) by apply fresh_lookup_None.
  destruct (pickFirst h (S3Buckets existing) (sameIdentity a b)) as [pe|] eqn:Hp.
  - apply pickFirst_Some in Hp as (prior & Hpe & _).
    assert (Hne : pe ≠ l1) by (intros ->; congruence).
    rewrite Hpe.
    rewrite (bind_run _ _ _ _ _
               (mergeS3Protos_run (<[l1 := new]> h) pe l1 prior new _
                  ltac:(rewrite lookup_insert_ne; [exact Hpe | congruence])
                  ltac:(apply lookup_insert_eq))).
    set (l2 := fresh (dom (<[l1 := new]> h))).
    assert (Hl2 : (<[l1 := new]> h) !! l2 = None) by apply fresh_lookup_None.
    eexists _, _. split; [reflexivity|]. split; [|split].
    + etrans; [apply (insert_subseteq h l1 new Hl1) | apply insert_subseteq, Hl2].
    + apply (lookup_weaken_None h (<[l1 := new]> h)); [exact Hl2 |].
      apply insert_subseteq, Hl1.
    + apply lookup_insert_eq.
  - cbn [mergeS3Protos].
    eexists _, _. split; [reflexivity|]. split; [|split].
    + apply insert_subseteq, Hl1.
    + exact Hl1.
    + apply lookup_insert_eq.
Qed.

End Runs.

(** ** The batch run *)

Section BatchRun.
Import S3Sync Snapshots Batch.

Variable timestampNow : string → Z.
Variable a : awsFetcher.
Variable resolver : option string → string * option error.
Variable existing : Resources.
Variable h0 : store.
Variable buckets : list s3.Bucket.

Hypothesis existing_valid : Forall (λ l, is_Some (h0 !! l)) (S3Buckets existing).

Local Abbreviation Inv := (Inv timestampNow a resolver existing h0 buckets).
Local Abbreviation threadOk := (threadOk timestampNow a resolver existing h0).
Local Abbreviation expected := (expected timestampNow a resolver existing h0).
Local Abbreviation step := (step timestampNow a resolver existing).
Local Abbreviation exec := (exec timestampNow a resolver existing).
Local Abbreviation closureStep := (closureStep timestampNow a resolver existing).

Lemma Inv_start : Inv (start h0 buckets).
Proof.
  constructor; cbn; try reflexivity; try constructor. lia.
Qed.

Lemma insert_split {A} (l : list A) (i : nat) (x y : A) :
  l !! i = Some x →
  ∃ l1 l2, l = l1 ++ x :: l2 ∧ <[i := y]> l = l1 ++ y :: l2 ∧ length l1 = i.
Proof.
  intros Hl. exists (take i l), (drop (S i) l).
  pose proof (lookup_lt_Some _ _ _ Hl) as Hlt. split; [|split].
  - symmetry. apply take_drop_middle, Hl.
  - apply insert_take_drop, Hlt.
  - rewrite length_take. lia.
Qed.

Lemma snoc_middle {A} (xs l1 l2 : list A) (y : A) :
  xs ≡ₚ l1 ++ l2 → xs ++ [y] ≡ₚ l1 ++ y :: l2.
Proof.
  intros ->. rewrite <- app_assoc. apply Permutation_app_head.
  symmetry. apply Permutation_cons_append.
Qed.

Lemma valid_weaken (h : store) :
  h0 ⊆ h → Forall (λ l, is_Some (h !! l)) (S3Buckets existing).
Proof.
  intros Hsub. eapply Forall_impl; [exact existing_valid|].
  intros l [v Hv]. exists v. eapply lookup_weaken; eassumption.
Qed.

Lemma threadOk_weaken (h h' : store) (t : thread) :
  h ⊆ h' → threadOk h t → threadOk h' t.
Proof.
  intros Hsub. unfold Batch.threadOk.
  destruct (at_ t); try done.
  - intros [(l & -> & Hl) ->]. split; [|done]. exists l. split; [done|].
    eapply lookup_weaken; eassumption.
  - intros [(l & -> & Hl) ->]. split; [|done]. exists l. split; [done|].
    eapply lookup_weaken; eassumption.
  - intros (l & -> & Hl). exists l. split; [done|]. eapply lookup_weaken; eassumption.
Qed.

Lemma lookups_weaken (h h' : store) (ls : list loc) (vs : list (option AWSS3BucketV1)) :
  h ⊆ h' → (λ l, h !! l) <$> ls ≡ₚ vs → Forall is_Some vs →
  (λ l, h' !! l) <$> ls = (λ l, h !! l) <$> ls.
Proof.
  intros Hsub Hp Hv. rewrite <- Hp in Hv. clear Hp.
  induction ls as [|l ls IH]; [reflexivity|].
  cbn in *. apply Forall_cons in Hv as [[v Hl] Hv].
  rewrite IH by assumption. f_equal.
  rewrite Hl. eapply lookup_weaken; eassumption.
Qed.

Lemma recorded_is_Some (ts : list thread) :
  Forall is_Some (ts ≫= (λ t, if pastS3s t then [Some (expected (bucket t))] else [])).
Proof.
  induction ts as [|t ts IH]; [constructor|].
  rewrite bind_cons. apply Forall_app. split; [|exact IH].
  destruct (pastS3s t); repeat constructor. eauto.
Qed.

Lemma step_Inv (act : action) (g g' : group) :
  Inv g → step act g = Some g' → Inv g'.
Proof.
  intros [Hh Hb Hm Ht Hg Hs He Hl] Hstep.
  destruct g as [v pend ths]. cbn [vars pending threads] in *.
  destruct act as [|i]; cbn [S3Sync.step vars pending threads] in Hstep.
  - destruct pend as [|b rest]; [discriminate|].
    destruct (decide (active ths < 5)) as [Hlt|]; [|discriminate].
    injection Hstep as <-. unfold active in *.
    constructor; cbn [vars pending threads].
    + exact Hh.
    + rewrite fmap_app, <- app_assoc. exact Hb.
    + rewrite sum_list_with_app. cbn. lia.
    + apply Forall_app. split; [exact Ht|]. repeat constructor.
    + exact Hg.
    + rewrite bind_app. cbn. rewrite app_nil_r. exact Hs.
    + rewrite bind_app. cbn. rewrite app_nil_r. exact He.
    + unfold active. rewrite sum_list_with_app. cbn. lia.
  - destruct (ths !! i) as [t|] eqn:Hi; [|discriminate].
    destruct (closureStep t v) as [[p v']|] eqn:Hc; [|discriminate].
    injection Hstep as <-.
    destruct (insert_split ths i t {| bucket := bucket t; at_ := p |} Hi)
      as (l1 & l2 & -> & -> & _).
    unfold active in *.
    rewrite ?fmap_app, ?fmap_cons, ?sum_list_with_app, ?bind_app, ?bind_cons in *.
    apply Forall_app in Ht as [Ht1 Ht]. apply Forall_cons in Ht as [Htt Ht2].
    destruct t as [b q]. unfold S3Sync.closureStep in Hc. cbn [at_ bucket] in *.
    unfold Batch.threadOk in Htt. cbn [at_ bucket] in Htt.
    destruct q as [|s3 err|s3 err|s3| | |r]; cbn in Hm, Hs, He, Hl.
    + (* the body up to collect *)
      destruct (task_run timestampNow a resolver existing b (heap v) (valid_weaken _ Hh))
        as (h' & l & Hrun & Hsub & Hnew & Hl').
      rewrite Hrun in Hc. injection Hc as <- <-.
      rewrite (bucketSnapshot_weaken timestampNow a resolver existing h0 (heap v) b Hh
                 existing_valid) in Hl'.
      constructor; cbn [vars pending threads heap s3s errs mu groupErr].
      * etrans; eassumption.
      * rewrite fmap_app, fmap_cons. exact Hb.
      * rewrite sum_list_with_app. cbn. exact Hm.
      * apply Forall_app. split; [|apply Forall_cons; split].
        -- eapply Forall_impl; [exact Ht1|]. intros ?. apply threadOk_weaken, Hsub.
        -- unfold Batch.threadOk. cbn. split; [|reflexivity]. exists l. split; [reflexivity|exact Hl'].
        -- eapply Forall_impl; [exact Ht2|]. intros ?. apply threadOk_weaken, Hsub.
      * exact Hg.
      * rewrite bind_app, bind_cons. cbn.
        rewrite (lookups_weaken (heap v) h' (s3s v) _ Hsub Hs); [exact Hs|].
        apply Forall_app. split; apply recorded_is_Some.
      * rewrite bind_app, bind_cons. cbn. exact He.
      * unfold active. rewrite sum_list_with_app. cbn. exact Hl.
    + (* mu.Lock() *)
      destruct (mu v) eqn:Hmu; [discriminate|]. injection Hc as <- <-.
      constructor; cbn [vars pending threads heap s3s errs mu groupErr];
        unfold active;
        rewrite ?fmap_app, ?fmap_cons, ?sum_list_with_app, ?bind_app, ?bind_cons;
        cbn; try assumption; try lia.
      all: try (apply Forall_app; split; [assumption|]; apply Forall_cons; split; assumption).
    + (* errs = append(errs, err) *)
      injection Hc as <- <-.
      destruct Htt as [Hs3 ->].
      constructor; cbn [vars pending threads heap s3s errs mu groupErr];
        unfold active;
        rewrite ?fmap_app, ?fmap_cons, ?sum_list_with_app, ?bind_app, ?bind_cons;
        cbn; try assumption; try lia.
      * apply Forall_app. split; [assumption|]. apply Forall_cons. split; assumption.
      * destruct (bucketErr a resolver b) as [e|]; cbn; [|exact He].
        apply snoc_middle, He.
    + (* s3s = append(s3s, s3) *)
      injection Hc as <- <-.
      destruct Htt as (l & -> & Hl').
      constructor; cbn [vars pending threads heap s3s errs mu groupErr];
        unfold active;
        rewrite ?fmap_app, ?fmap_cons, ?sum_list_with_app, ?bind_app, ?bind_cons;
        cbn; try assumption; try lia.
      * apply Forall_app. split; [assumption|]. apply Forall_cons. split; [exact I|assumption].
      * rewrite Hl'. apply snoc_middle, Hs.
    + (* mu.Unlock() *)
      injection Hc as <- <-.
      constructor; cbn [vars pending threads heap s3s errs mu groupErr];
        unfold active;
        rewrite ?fmap_app, ?fmap_cons, ?sum_list_with_app, ?bind_app, ?bind_cons;
        cbn; try assumption; try (destruct (mu v); lia).
      apply Forall_app. split; [assumption|]. apply Forall_cons. split; [exact I|assumption].
    + (* return nil *)
      injection Hc as <- <-.
      constructor; cbn [vars pending threads heap s3s errs mu groupErr];
        unfold active;
        rewrite ?fmap_app, ?fmap_cons, ?sum_list_with_app, ?bind_app, ?bind_cons;
        cbn; try assumption; try lia.
      * apply Forall_app. split; [assumption|]. apply Forall_cons. split; [reflexivity|assumption].
      * rewrite Hg. reflexivity.
    + discriminate.
Qed.

Lemma exec_Inv (sched : list action) :
  ∀ g g', Inv g → exec sched g = Some g' → Inv g'.
Proof.
  induction sched as [|act sched IH]; intros g g' HI He; cbn in He.
  - injection He as <-. exact HI.
  - destruct (step act g) as [g1|] eqn:Hs; [|discriminate].
    eapply IH; [|exact He]. eapply step_Inv; eassumption.
Qed.

Lemma indicator_pos {A} (f : A → bool) (l : list A) :
  (0 < sum_list_with (λ x, if f x then 1 else 0) l)%nat →
  ∃ i x, l !! i = Some x ∧ f x = true.
Proof.
  induction l as [|x l IH]; cbn; [lia|].
  destruct (f x) eqn:Hx.
  - intros _. exists 0%nat, x. split; [reflexivity | exact Hx].
  - intros Hpos. destruct (IH Hpos) as (i & y & Hi & Hy). exists (S i), y. split; assumption.
Qed.

Lemma indicator_zero {A} (f : A → bool) (l : list A) :
  sum_list_with (λ x, if f x then 1 else 0)%nat l = 0%nat → Forall (λ x, f x = false) l.
Proof.
  induction l as [|x l IH]; cbn; [constructor|].
  destruct (f x) eqn:Hx; [lia|]. intros H0. constructor; [exact Hx | apply IH, H0].
Qed.

Lemma step_stepsLeft (act : action) (g g' : group) :
  step act g = Some g' → S (stepsLeft g') = stepsLeft g.
Proof.
  destruct g as [v pend ths]. unfold stepsLeft.
  destruct act as [|i]; cbn [S3Sync.step vars pending threads].
  - destruct pend as [|b rest]; [discriminate|].
    destruct (decide (active ths < 5)); [|discriminate].
    intros [= <-]. cbn [pending threads]. rewrite sum_list_with_app. cbn. lia.
  - destruct (ths !! i) as [t|] eqn:Hi; [|discriminate].
    destruct (closureStep t v) as [[p v']|] eqn:Hc; [|discriminate].
    intros [= <-]. cbn [pending threads].
    destruct (insert_split ths i t {| bucket := bucket t; at_ := p |} Hi)
      as (l1 & l2 & -> & -> & _).
    rewrite !sum_list_with_app. cbn [sum_list_with].
    assert (S (remaining {| bucket := bucket t; at_ := p |}) = remaining t); [|lia].
    unfold S3Sync.closureStep in Hc. unfold remaining. cbn [at_].
    destruct (at_ t); cbn in Hc.
    + destruct (task _ _ _ _ _ _) as [[? [? ?]]|]; [|discriminate].
      injection Hc as <- _. reflexivity.
    + destruct (mu v); [discriminate|]. injection Hc as <- _. reflexivity.
    + injection Hc as <- _. reflexivity.
    + injection Hc as <- _. reflexivity.
    + injection Hc as <- _. reflexivity.
    + injection Hc as <- _. reflexivity.
    + discriminate.
Qed.

(** No deadlock: as long as [eG.Wait()] has not returned, the loop or one
    of the closures can move. *)
Lemma progress (g : group) :
  Inv g → finished g = false → ∃ act g', step act g = Some g'.
Proof.
  intros [Hh Hb Hm Ht Hg Hs He Hl] Hfin.
  destruct g as [v pend ths]. cbn [vars pending threads] in *.
  assert (Hrun : ∀ i t, ths !! i = Some t → is_Some (closureStep t v) →
                        ∃ act g', step act {| vars := v; pending := pend; threads := ths |}
                                  = Some g').
  { intros i t Hi [[p v'] Hc]. exists (Run i). cbn [S3Sync.step vars pending threads].
    rewrite Hi, Hc. eauto. }
  destruct (mu v) eqn:Hmu.
  - destruct (indicator_pos holding ths) as (i & t & Hi & Hhold); [lia|].
    apply (Hrun i t Hi). unfold S3Sync.closureStep. unfold holding in Hhold.
    destruct (at_ t); try discriminate; eauto.
  - apply indicator_zero in Hm.
    destruct (decide (active ths = 0)) as [Hz|Hnz].
    + apply indicator_zero in Hz.
      destruct pend as [|b rest].
      * exfalso. unfold finished in Hfin. cbn [pending threads] in Hfin.
        assert (forallb (λ t, negb (running t)) ths = true); [|congruence].
        apply forallb_forall. intros t Hin. apply list_elem_of_In in Hin.
        rewrite Forall_forall in Hz. rewrite (Hz t Hin). reflexivity.
      * exists Dispatch. cbn [S3Sync.step vars pending threads].
        destruct (decide (active ths < 5)) as [|Hge]; [eauto|].
        exfalso. apply Hge. unfold active.
        clear -Hz. induction Hz as [|t ts Ht _ IH]; cbn; [lia|]. rewrite Ht. lia.
    + destruct (indicator_pos running ths) as (i & t & Hi & Hr); [unfold active in Hnz; lia|].
      apply (Hrun i t Hi).
      rewrite Forall_forall in Hm.
      assert (Hnh : holding t = false).
      { apply Hm. eapply list_elem_of_lookup_2, Hi. }
      unfold S3Sync.closureStep. unfold holding in Hnh. unfold running in Hr.
      destruct (at_ t); try discriminate; try (rewrite ?Hmu; eauto).
      destruct (task_run timestampNow a resolver existing (bucket t) (heap v)
                  (valid_weaken _ Hh)) as (h' & l & Hrun' & _).
      rewrite Hrun'. eauto.
Qed.

(** Every run can be brought to the return of [eG.Wait()]. *)
Lemma completion (n : nat) :
  ∀ g, (stepsLeft g ≤ n)%nat → Inv g →
       ∃ sched g', exec sched g = Some g' ∧ finished g' = true.
Proof.
  induction n as [|n IH]; intros g Hn HI.
  - destruct (finished g) eqn:Hfin; [exists [], g; split; [reflexivity | exact Hfin]|].
    destruct (progress g HI Hfin) as (act & g1 & Hstep).
    apply step_stepsLeft in Hstep. lia.
  - destruct (finished g) eqn:Hfin; [exists [], g; split; [reflexivity | exact Hfin]|].
    destruct (progress g HI Hfin) as (act & g1 & Hstep).
    destruct (IH g1) as (sched & g' & Hex & Hf).
    + apply step_stepsLeft in Hstep. lia.
    + eapply step_Inv; eassumption.
    + exists (act :: sched), g'. split; [|exact Hf]. cbn. rewrite Hstep. exact Hex.
Qed.

(** What [eG.Wait()] finds when it returns. *)
Lemma finished_all (g : group) :
  Inv g → finished g = true →
  (λ l, heap (vars g) !! l) <$> s3s (vars g) ≡ₚ (λ b, Some (expected b)) <$> buckets
  ∧ errs (vars g) ≡ₚ omap (bucketErr a resolver) buckets.
Proof.
  intros [Hh Hb Hm Ht Hg Hs He Hl] Hfin.
  destruct g as [v pend ths]. cbn [vars pending threads] in *.
  unfold finished in Hfin. cbn [pending threads] in Hfin.
  destruct pend; [|discriminate]. rewrite app_nil_r in Hb. subst buckets.
  rewrite Hs, He. clear -Hfin.
  induction ths as [|t ths IH]; [split; reflexivity|].
  cbn [forallb] in Hfin. apply andb_true_iff in Hfin as [Hr Hfin].
  destruct (IH Hfin) as [IH1 IH2].
  rewrite !bind_cons, fmap_cons. cbn [omap list_omap fmap list_fmap].
  unfold running in Hr. unfold pastS3s, pastErrs.
  destruct (at_ t); try discriminate. cbn. split.
  - rewrite IH1. reflexivity.
  - destruct (bucketErr a resolver (bucket t)); cbn; rewrite IH2; reflexivity.
Qed.


(** The two slices are only written by a closure that holds the mutex. *)
Lemma closureStep_writes (t : thread) (v v' : shared) (p : pc) :
  closureStep t v = Some (p, v') →
  s3s v' ≠ s3s v ∨ errs v' ≠ errs v → holding t = true.
Proof.
  unfold S3Sync.closureStep, holding. intros Hc Hw.
  destruct (at_ t); try reflexivity; exfalso; cbn in Hc.
  - destruct (task _ _ _ _ _ _) as [[? [? ?]]|]; [|discriminate].
    injection Hc as _ <-. cbn in Hw. destruct Hw; congruence.
  - destruct (mu v); [discriminate|]. injection Hc as _ <-. cbn in Hw.
    destruct Hw; congruence.
  - injection Hc as _ <-. cbn in Hw. destruct Hw; congruence.
  - discriminate.
Qed.

(** Mutual exclusion: a closure that holds the mutex is the only one, and
    the mutex is held. *)
Lemma holder_alone (g : group) (i : nat) (t : thread) :
  Inv g → threads g !! i = Some t → holding t = true →
  mu (vars g) = true ∧
  ∀ j t', j ≠ i → threads g !! j = Some t' → holding t' = false.
Proof.
  intros [_ _ Hm _ _ _ _ _] Hi Hhold.
  destruct (insert_split (threads g) i t t Hi) as (l1 & l2 & Heq & _ & Hlen).
  rewrite Heq in Hm |- *. rewrite sum_list_with_app in Hm. cbn in Hm.
  rewrite Hhold in Hm.
  destruct (mu (vars g)); [|lia]. split; [reflexivity|].
  assert (H1 : Forall (λ x, holding x = false) l1) by (apply indicator_zero; lia).
  assert (H2 : Forall (λ x, holding x = false) l2) by (apply indicator_zero; lia).
  rewrite Forall_forall in H1, H2.
  intros j t' Hne Hj.
  destruct (decide (j < length l1)%nat) as [Hlt|Hge].
  - rewrite lookup_app_l in Hj by exact Hlt.
    apply H1. eapply list_elem_of_lookup_2, Hj.
  - rewrite lookup_app_r in Hj by lia.
    destruct (j - length l1)%nat as [|k] eqn:Hk; [lia|].
    cbn in Hj. apply H2. eapply list_elem_of_lookup_2, Hj.
Qed.

(** C8 (the batch run).  In every state [g] that a schedule of the
    closures reaches from the start of the run:
    - at most five closures are running;
    - every closure that returned gave nil to the group, and the group has
      recorded no error;
    - a step that changes [s3s] or [errs] is a step of a closure that is
      inside [collect] with the mutex held, and no other closure holds it;
    - the run can be continued up to the return of [eG.Wait()];
    - [fetchS3Buckets] returns under this schedule exactly when the loop is
      over and every closure returned, and what it returns then are the
      snapshots of all the buckets listed, whatever their errors, and the
      aggregate of all the errors collected. *)
Theorem fetchS3Buckets_batch_run (knownRegion : string) (sched : list action) (g : group) :
  exec sched (start h0 buckets) = Some g →
  (active (threads g) ≤ 5)%nat
  ∧ (∀ t r, t ∈ threads g → at_ t = Returned r → r = None)
  ∧ groupErr (vars g) = None
  ∧ (∀ i t p v',
       threads g !! i = Some t → closureStep t (vars g) = Some (p, v') →
       s3s v' ≠ s3s (vars g) ∨ errs v' ≠ errs (vars g) →
       holding t = true ∧ mu (vars g) = true ∧
       ∀ j t', j ≠ i → threads g !! j = Some t' → holding t' = false)
  ∧ (∃ sched' g', exec sched' g = Some g' ∧ finished g' = true)
  ∧ (listS3Buckets knownRegion a = inr (buckets, resolver) → existing = lastResult a →
     fetchS3Buckets knownRegion timestampNow a sched h0
     = if finished g
       then Some (heap (vars g), (s3s (vars g), NewAggregate (errs (vars g))))
       else None)
  ∧ (finished g = true →
     (λ l, heap (vars g) !! l) <$> s3s (vars g) ≡ₚ (λ b, Some (expected b)) <$> buckets
     ∧ errs (vars g) ≡ₚ omap (bucketErr a resolver) buckets).
Proof.
  intros Hex.
  pose proof (exec_Inv sched _ _ Inv_start Hex) as HI.
  split; [|split; [|split; [|split; [|split; [|split]]]]].
  - exact (inv_limit _ _ _ _ _ _ _ HI).
  - intros t r Hin Hat. pose proof (inv_threads _ _ _ _ _ _ _ HI) as Ht.
    rewrite Forall_forall in Ht. specialize (Ht t Hin).
    unfold Batch.threadOk in Ht. rewrite Hat in Ht. exact Ht.
  - exact (inv_groupErr _ _ _ _ _ _ _ HI).
  - intros i t p v' Hi Hc Hw.
    pose proof (closureStep_writes t _ _ _ Hc Hw) as Hhold.
    split; [exact Hhold|]. exact (holder_alone g i t HI Hi Hhold).
  - exact (completion (stepsLeft g) g (le_n _) HI).
  - intros Hlist Hexisting. unfold fetchS3Buckets. cbv zeta.
    rewrite Hlist, <- Hexisting, Hex. reflexivity.
  - exact (finished_all g HI).
Qed.

(** C6 (region lookup failure).  For a listed bucket whose region lookup
    fails, the closure builds the snapshot from the name and the account
    alone and merges it, with all four field flags set, against the snapshot
    of the previous result set for that name and account.  The cycle has a
    run to the end, and whenever [fetchS3Buckets] returns, its output has
    one snapshot per listed bucket, among them one of this bucket, with its
    name and account and with the policy document, the public-access flag,
    the ACLs and the tags of the previous snapshot when there is one, and
    empty ones otherwise.  The failure is part of the aggregate error, and
    [pollAWSS3Buckets] puts the output in the result, hands the error to
    [collectErr] and returns nil. *)
Theorem region_failure_keeps_bucket (knownRegion : string)
    (bucket : s3.Bucket) (region : string) (err : error) :
  listS3Buckets knownRegion a = inr (buckets, resolver) → existing = lastResult a →
  bucket ∈ buckets → resolver (s3.Name bucket) = (region, Some err) →
  (∀ h,
     task timestampNow a resolver existing bucket h
     = (do existingBucket <-
          sliceFilterPickFirst (S3Buckets existing)
            (λ b, String.eqb (Name b) (ToString (s3.Name bucket))
                  && String.eqb (AccountId b) (AccountID a));
        do newBucket <-
          awsS3Bucket timestampNow (ToString (s3.Name bucket)) None None None None
            (AccountID a);
        do merged <-
          mergeS3Protos existingBucket (Some newBucket)
            {| policyFailed := true; failedPolicyStatus := true; failedAcls := true;
               failedTags := true; headFailed := false |};
        ret (merged, NewAggregate [Wrap err])) h)
  ∧ (∃ sched, is_Some (fetchS3Buckets knownRegion timestampNow a sched h0))
  ∧ ∀ sched h' out e,
      fetchS3Buckets knownRegion timestampNow a sched h0 = Some (h', (out, e)) →
      (∃ l m,
         l ∈ out ∧ h' !! l = Some m ∧
         Name m = ToString (s3.Name bucket) ∧ AccountId m = AccountID a ∧
         match pickFirst h0 (S3Buckets existing) (sameIdentity a bucket) with
         | Some pe =>
             ∃ prior, h0 !! pe = Some prior ∧
               PolicyDocument m = PolicyDocument prior ∧ IsPublic m = IsPublic prior ∧
               Acls m = Acls prior ∧ Tags m = Tags prior
         | None =>
             PolicyDocument m = [] ∧ IsPublic m = false ∧ Acls m = [] ∧ Tags m = []
         end)
      ∧ length out = length buckets
      ∧ (∃ e', e = Some e' ∧
           ∀ result collected,
             pollAWSS3Buckets knownRegion timestampNow a sched result collected h0
             = Some (h', ({| S3Buckets := out |},
                          collected ++ [Wrapped "failed to fetch s3 buckets" [] e'], None))).
Proof.
  intros Hlist Hexisting Hin Hres.
  assert (Hf : fetched a resolver bucket
               = ({| policy := None; policyStatus := None; acls := None; tags := None |},
                  allFieldsFailed, [Wrap err])).
  { unfold fetched. rewrite Hres. reflexivity. }
  split; [|split].
  - intros h. unfold task. rewrite Hres. reflexivity.
  - destruct (completion (stepsLeft (start h0 buckets)) _ (le_n _) Inv_start)
      as (sched & g & Hex & Hfin).
    exists sched. unfold fetchS3Buckets. cbv zeta.
    rewrite Hlist, <- Hexisting, Hex, Hfin. eauto.
  - intros sched h' out e Hfetch.
    pose proof Hfetch as Hfetch'.
    unfold fetchS3Buckets in Hfetch. cbv zeta in Hfetch.
    rewrite Hlist, <- Hexisting in Hfetch.
    destruct (exec sched (start h0 buckets)) as [g|] eqn:Hex; [|discriminate].
    destruct (finished g) eqn:Hfin; [|discriminate].
    injection Hfetch as <- <- <-.
    pose proof (exec_Inv sched _ _ Inv_start Hex) as HI.
    destruct (finished_all g HI Hfin) as [Hs He].
    split; [|split].
    + assert (Hm : Some (expected bucket) ∈ (λ l, heap (vars g) !! l) <$> s3s (vars g)).
      { rewrite Hs. apply (list_elem_of_fmap_2 (λ b, Some (expected b))), Hin. }
      apply list_elem_of_fmap in Hm as (l & Hl & Hlin).
      exists l, (expected bucket). split; [exact Hlin|]. split; [symmetry; exact Hl|].
      unfold Batch.expected, bucketSnapshot, freshSnapshot. rewrite Hf. cbn [fst snd].
      destruct (pickFirst h0 (S3Buckets existing) (sameIdentity a bucket)) as [pe|] eqn:Hp.
      * apply pickFirst_Some in Hp as (prior & Hpe & _). rewrite Hpe.
        split; [reflexivity|]. split; [reflexivity|].
        exists prior. repeat split.
      * repeat split.
    + apply Permutation_length in Hs. rewrite !length_fmap in Hs. exact Hs.
    + assert (Hne : ∃ x xs, errs (vars g) = x :: xs).
      { destruct (errs (vars g)) as [|x xs] eqn:Heq; [|eauto].
        exfalso. symmetry in He. apply Permutation_nil_r in He.
        assert (Hm : Aggregate [Wrap err] ∈ omap (bucketErr a resolver) buckets).
        { apply list_elem_of_omap. exists bucket. split; [exact Hin|].
          unfold bucketErr. rewrite Hf. reflexivity. }
        rewrite He in Hm. inversion Hm. }
      destruct Hne as (x & xs & Heq). exists (Aggregate (x :: xs)). split.
      * rewrite Heq. reflexivity.
      * intros result collected. unfold pollAWSS3Buckets.
        rewrite (bind_run _ _ _ _ _ Hfetch'). rewrite Heq. reflexivity.
Qed.

End BatchRun.

Lemma previousCycle_valid :
  Forall (λ l, is_Some (previousCycle !! l)) (S3Sync.S3Buckets (S3Sync.lastResult sampleFetcher)).
Proof. repeat constructor. exists priorLogs. reflexivity. Qed.

Lemma fetchS3Buckets_batch_run_witness :
  ∃ g,
    S3Sync.exec sampleClock sampleFetcher (S3Sync.getBucketRegion sampleS3)
      (S3Sync.lastResult sampleFetcher) sampleSched (S3Sync.start previousCycle sampleBuckets)
    = Some g
    ∧ (λ l, S3Sync.heap (S3Sync.vars g) !! l) <$> S3Sync.s3s (S3Sync.vars g)
      ≡ₚ (λ b, Some (Batch.expected sampleClock sampleFetcher
                       (S3Sync.getBucketRegion sampleS3)
                       (S3Sync.lastResult sampleFetcher) previousCycle b))
         <$> sampleBuckets.
Proof.
  eexists. split; [vm_compute; reflexivity|].
  apply (fetchS3Buckets_batch_run sampleClock sampleFetcher (S3Sync.getBucketRegion sampleS3)
           (S3Sync.lastResult sampleFetcher) previousCycle sampleBuckets previousCycle_valid
           "us-east-1" sampleSched); vm_compute; reflexivity.
Defined.

Lemma region_failure_keeps_bucket_witness :
  ∃ h' out e,
    S3Sync.fetchS3Buckets "us-east-1" sampleClock sampleFetcher sampleSched previousCycle
    = Some (h', (out, e))
    ∧ length out = 2%nat
    ∧ ∃ l m, l ∈ out ∧ h' !! l = Some m ∧ Name m = "logs" ∧ Tags m = Tags priorLogs.
Proof.
  eexists _, _, _. split; [vm_compute; reflexivity|].
  destruct (region_failure_keeps_bucket sampleClock sampleFetcher
              (S3Sync.getBucketRegion sampleS3) (S3Sync.lastResult sampleFetcher)
              previousCycle sampleBuckets previousCycle_valid "us-east-1"
              {| s3.Name := Some "logs" |} EmptyString
              (Wrapped "failed to fetch bucket %q region" ["logs"] (OtherErr "request timed out"))
              eq_refl eq_refl ltac:(repeat constructor) eq_refl)
    as (_ & _ & Hout).
  destruct (Hout sampleSched _ _ _ ltac:(vm_compute; reflexivity))
    as ((l & m & Hl & Hm & Hname & _ & Hprior) & Hlen & _).
  split; [exact Hlen|].
  exists l, m. split; [exact Hl|]. split; [exact Hm|]. split; [exact Hname|].
  destruct Hprior as (prior & Hp & _ & _ & _ & Ht).
  rewrite Ht. vm_compute in Hp. injection Hp as <-. reflexivity.
Defined.

(** ** The paginated collectors *)

Section Pagination.
Import redshiftserverless RedshiftServerless.

Context {A : Type}.
Variable maxAWSPages : nat.
Variable pages : nat → pageResult A.

(** The callback of both collectors. *)
Local Abbreviation keep :=
  (λ (page : list A) (lastPage : bool) (acc : list (list A)),
     (acc ++ [page], bool_decide (length (acc ++ [page]) ≤ maxAWSPages)%nat)).

(** With more requests allowed than the cap leaves room for, the collector
    returns: it has appended pages of the provider in the order of the
    requests, and holds at most one page more than the cap. *)
Lemma collect_terminates (fuel : nat) :
  ∀ i acc,
    (0 < fuel)%nat → (maxAWSPages < fuel + length acc)%nat →
    ∃ got err,
      PagesWithContext fuel pages i keep acc = Some (acc ++ got, err) ∧
      (length (acc ++ got) ≤ S (max maxAWSPages (length acc)))%nat ∧
      ∀ k page, got !! k = Some page → ∃ more, pages (i + k) = Page page more.
Proof.
  induction fuel as [|fuel IH]; intros i acc Hpos Hfuel; [lia|].
  cbn [PagesWithContext].
  destruct (pages i) as [items more|err] eqn:Hp.
  - cbn beta iota. case_bool_decide as Hlen; rewrite length_app in Hlen; cbn in Hlen.
    + destruct more; cbn [andb].
      * destruct (IH (S i) (acc ++ [items])) as (got & err & Hrun & Hbound & Hgot).
        { lia. }
        { rewrite length_app. cbn. lia. }
        exists (items :: got), err. rewrite Hrun, <- app_assoc. split; [reflexivity|].
        split.
        -- rewrite <- app_assoc in Hbound. cbn in Hbound.
           rewrite length_app in Hbound |- *. cbn in Hbound |- *.
           rewrite length_app in Hbound. cbn in Hbound. lia.
        -- intros [|k] page Hk; cbn in Hk.
           ++ injection Hk as <-. exists true. rewrite Nat.add_0_r. exact Hp.
           ++ destruct (Hgot k page Hk) as [m Hm]. exists m.
              rewrite <- Hm. f_equal. lia.
      * exists [items], None. split; [reflexivity|]. split.
        -- rewrite length_app. cbn. lia.
        -- intros [|k] page Hk; [|discriminate].
           injection Hk as <-. exists false. rewrite Nat.add_0_r. exact Hp.
    + exists [items], None. cbn [andb]. split; [reflexivity|]. split.
      * rewrite length_app. cbn. lia.
      * intros [|k] page Hk; [|discriminate].
        injection Hk as <-. exists more. rewrite Nat.add_0_r. exact Hp.
  - exists [], (Some err). rewrite app_nil_r. split; [reflexivity|]. split; [lia|].
    intros k page Hk. discriminate.
Qed.

(** On a listing that never ends the collector stops one page after the
    cap is reached. *)
Lemma collect_endless (f : nat → list A) :
  (∀ j, pages j = Page (f j) true) →
  ∀ fuel i acc,
    (length acc ≤ maxAWSPages)%nat → (maxAWSPages < fuel + length acc)%nat →
    PagesWithContext fuel pages i keep acc
    = Some (acc ++ (f <$> seq i (S maxAWSPages - length acc)), None).
Proof.
  intros Hpages. induction fuel as [|fuel IH]; intros i acc Hacc Hfuel; [lia|].
  cbn [PagesWithContext]. rewrite Hpages. cbn beta iota.
  case_bool_decide as Hlen; rewrite length_app in Hlen; cbn in Hlen; cbn [andb].
  - rewrite IH; rewrite ?length_app; cbn [length]; try lia.
    replace (S maxAWSPages - length acc)%nat with (S (S maxAWSPages - (length acc + 1)))
      by lia.
    cbn [seq fmap list_fmap]. rewrite <- app_assoc. reflexivity.
  - replace (S maxAWSPages - length acc)%nat with 1%nat by lia. reflexivity.
Qed.

End Pagination.

(** ** Properties of the Redshift Serverless plugin *)

Section Plugin.
Import redshiftserverless RedshiftServerless.

Variable Database : Type.
Variable maxAWSPages : nat.
Variable IsResourceAvailable : option string → bool.
Variable ConvertRequestFailureError : error → error.
Variable IsAccessDenied : error → bool.
Variable NewDatabaseFromRedshiftServerlessWorkgroup :
  Workgroup → list Tag → error + Database.
Variable NewDatabaseFromRedshiftServerlessVPCEndpoint :
  EndpointAccess → Workgroup → list Tag → error + Database.

Local Abbreviation getRSSWorkgroups :=
  (getRSSWorkgroups maxAWSPages ConvertRequestFailureError).
Local Abbreviation getRSSVPCEndpoints :=
  (getRSSVPCEndpoints maxAWSPages ConvertRequestFailureError).
Local Abbreviation getDatabasesFromWorkgroups :=
  (getDatabasesFromWorkgroups Database maxAWSPages IsResourceAvailable
     ConvertRequestFailureError IsAccessDenied NewDatabaseFromRedshiftServerlessWorkgroup).
Local Abbreviation endpointDatabase :=
  (endpointDatabase Database IsResourceAvailable NewDatabaseFromRedshiftServerlessVPCEndpoint).
Local Abbreviation endpointRecord :=
  (endpointRecord Database IsResourceAvailable NewDatabaseFromRedshiftServerlessVPCEndpoint).
Local Abbreviation getDatabasesFromVPCEndpoints :=
  (getDatabasesFromVPCEndpoints Database maxAWSPages IsResourceAvailable
     ConvertRequestFailureError NewDatabaseFromRedshiftServerlessVPCEndpoint).
Local Abbreviation GetDatabases :=
  (GetDatabases Database maxAWSPages IsResourceAvailable ConvertRequestFailureError
     IsAccessDenied NewDatabaseFromRedshiftServerlessWorkgroup
     NewDatabaseFromRedshiftServerlessVPCEndpoint).

(** Both collectors return for every provider, once more requests are
    allowed than the cap leaves room for. *)
Lemma collectors_terminate (fuel : nat) (client : rssAPI) :
  (maxAWSPages < fuel)%nat →
  is_Some (getRSSWorkgroups fuel client) ∧ is_Some (getRSSVPCEndpoints fuel client).
Proof.
  intros Hfuel. unfold RedshiftServerless.getRSSWorkgroups,
    RedshiftServerless.getRSSVPCEndpoints. cbv zeta. split.
  - destruct (collect_terminates maxAWSPages (ListWorkgroupsPages client) fuel 0 [])
      as (got & err & Hrun & _); [lia | cbn; lia |].
    rewrite Hrun. eauto.
  - destruct (collect_terminates maxAWSPages (ListEndpointAccessPages client) fuel 0 [])
      as (got & err & Hrun & _); [lia | cbn; lia |].
    rewrite Hrun. eauto.
Qed.

Lemma findWorkgroupWithName_Some (workgroups : list workgroupWithTags) (name : string)
    (w : workgroupWithTags) :
  findWorkgroupWithName workgroups name = Some w →
  w ∈ workgroups ∧ StringValue (WorkgroupName (Workgroup_ w)) = name.
Proof.
  induction workgroups as [|x workgroups IH]; cbn; [discriminate|].
  destruct (String.eqb _ name) eqn:Heq.
  - intros [= <-]. split; [left | apply String.eqb_eq, Heq].
  - intros Hf. destruct (IH Hf). split; [right|]; assumption.
Qed.

Lemma findWorkgroupWithName_None (workgroups : list workgroupWithTags) (name : string) :
  (∀ w, w ∈ workgroups → StringValue (WorkgroupName (Workgroup_ w)) ≠ name) →
  findWorkgroupWithName workgroups name = None.
Proof.
  induction workgroups as [|x workgroups IH]; intros Hall; cbn; [reflexivity|].
  destruct (String.eqb _ name) eqn:Heq.
  - apply String.eqb_eq in Heq. exfalso. apply (Hall x); [left | exact Heq].
  - apply IH. intros w Hw. apply Hall. right. exact Hw.
Qed.

Lemma findWorkgroupWithName_is_Some (workgroups : list workgroupWithTags) (name : string)
    (w : workgroupWithTags) :
  w ∈ workgroups → StringValue (WorkgroupName (Workgroup_ w)) = name →
  is_Some (findWorkgroupWithName workgroups name).
Proof.
  intros Hin Hname.
  destruct (findWorkgroupWithName workgroups name) as [w'|] eqn:Hf; [eauto|].
  exfalso. induction workgroups as [|x workgroups IH]; [inversion Hin|].
  cbn in Hf. destruct (String.eqb _ name) eqn:Heq; [discriminate|].
  apply String.eqb_neq in Heq.
  apply elem_of_cons in Hin as [->|Hin]; [congruence | exact (IH Hin Hf)].
Qed.

(** One turn of the loop adds the database of the endpoint, if it has one,
    and only appends to the log. *)
Lemma endpointDatabase_record (workgroups : list workgroupWithTags)
    (databases : list Database) (log : list logRecord) (endpoint : EndpointAccess) :
  ∃ logged,
    endpointDatabase workgroups (databases, log) endpoint
    = (databases ++ option_list (endpointRecord workgroups endpoint), log ++ logged).
Proof.
  unfold RedshiftServerless.endpointDatabase, RedshiftServerless.endpointRecord.
  destruct (findWorkgroupWithName _ _) as [w|].
  - destruct (IsResourceAvailable _); cbn [negb].
    + destruct (NewDatabaseFromRedshiftServerlessVPCEndpoint _ _ _).
      * eexists. cbn. rewrite app_nil_r. reflexivity.
      * exists []. cbn. rewrite app_nil_r. reflexivity.
    + eexists. cbn. rewrite app_nil_r. reflexivity.
  - eexists. cbn. rewrite app_nil_r. reflexivity.
Qed.

Lemma endpoints_loop (workgroups : list workgroupWithTags) (endpoints : list EndpointAccess) :
  ∀ databases log,
    ∃ logged,
      foldl (endpointDatabase workgroups) (databases, log) endpoints
      = (databases ++ omap (endpointRecord workgroups) endpoints, log ++ logged).
Proof.
  induction endpoints as [|endpoint endpoints IH]; intros databases log.
  - exists []. cbn. rewrite !app_nil_r. reflexivity.
  - cbn [foldl].
    destruct (endpointDatabase_record workgroups databases log endpoint) as [l1 ->].
    destruct (IH (databases ++ option_list (endpointRecord workgroups endpoint)) (log ++ l1))
      as [l2 ->].
    exists (l1 ++ l2). cbn [omap list_omap].
    rewrite <- !app_assoc. f_equal. f_equal.
    destruct (endpointRecord workgroups endpoint); reflexivity.
Qed.

(** C7, as amended.  For a listed endpoint, the run of
    [getDatabasesFromVPCEndpoints] raises no error and returns the
    databases of the other endpoints in their order, with
    - when a workgroup of the name the endpoint refers to is in the set, the
      status of the endpoint counts as available and the conversion of the
      endpoint succeeds: the database converted from the endpoint, the
      first workgroup of that name and the tags of that workgroup, at the
      place of the endpoint;
    - when no workgroup of that name is in the set: nothing at the place of
      the endpoint, and a debug record in the log. *)
Theorem endpoint_attribution (fuel : nat) (workgroups : list workgroupWithTags)
    (client : rssAPI) (log : list logRecord) (pre post : list EndpointAccess)
    (endpoint : EndpointAccess) :
  getRSSVPCEndpoints fuel client = Some (pre ++ endpoint :: post, None) →
  ∃ databases logged,
    getDatabasesFromVPCEndpoints fuel workgroups client log
    = Some (databases, None, log ++ logged)
    ∧ (∀ w, w ∈ workgroups →
            StringValue (WorkgroupName (Workgroup_ w)) = StringValue (WorkgroupName_ endpoint) →
            IsResourceAvailable (EndpointStatus endpoint) = true →
            ∃ w', findWorkgroupWithName workgroups (StringValue (WorkgroupName_ endpoint))
                  = Some w'
                  ∧ w' ∈ workgroups
                  ∧ StringValue (WorkgroupName (Workgroup_ w'))
                    = StringValue (WorkgroupName_ endpoint)
                  ∧ ∀ database,
                      NewDatabaseFromRedshiftServerlessVPCEndpoint endpoint
                        (Workgroup_ w') (Tags w') = inr database →
                      databases
                      = omap (endpointRecord workgroups) pre
                        ++ database :: omap (endpointRecord workgroups) post)
    ∧ ((∀ w, w ∈ workgroups →
             StringValue (WorkgroupName (Workgroup_ w))
             ≠ StringValue (WorkgroupName_ endpoint)) →
       databases
       = omap (endpointRecord workgroups) pre ++ omap (endpointRecord workgroups) post
       ∧ {| Level := LevelDebug;
            Message := "Could not find matching workgroup for Redshift Serverless endpoint";
            Attrs := [String_ "endpoint" (StringValue (EndpointName endpoint))] |}
         ∈ logged).
Proof.
  intros Hlist. unfold RedshiftServerless.getDatabasesFromVPCEndpoints. rewrite Hlist.
  rewrite foldl_app. cbn [foldl].
  destruct (endpoints_loop workgroups pre [] log) as [l1 ->].
  destruct (endpointDatabase_record workgroups ([] ++ omap (endpointRecord workgroups) pre)
              (log ++ l1) endpoint) as [le Hle].
  rewrite Hle.
  destruct (endpoints_loop workgroups post
              (([] ++ omap (endpointRecord workgroups) pre)
               ++ option_list (endpointRecord workgroups endpoint))
              ((log ++ l1) ++ le)) as [l2 ->].
  eexists _, (l1 ++ le ++ l2). split; [repeat rewrite <- app_assoc; reflexivity|].
  cbn [app]. split.
  - intros w Hin Hname Havail.
    destruct (findWorkgroupWithName_is_Some workgroups _ w Hin Hname) as [w' Hw'].
    destruct (findWorkgroupWithName_Some workgroups _ w' Hw') as [Hin' Hname'].
    exists w'. repeat split; try assumption.
    intros database Hconv. unfold RedshiftServerless.endpointRecord at 2.
    rewrite Hw', Havail, Hconv. reflexivity.
  - intros Hnone.
    pose proof (findWorkgroupWithName_None workgroups _ Hnone) as Hf.
    split.
    + unfold RedshiftServerless.endpointRecord at 2. rewrite Hf. reflexivity.
    + unfold RedshiftServerless.endpointDatabase in Hle. rewrite Hf in Hle.
      injection Hle as _ Hle. apply app_inv_head in Hle. subst le.
      apply elem_of_app. right. left.
Qed.

(** C4, as amended.  A failure of the top-level listing call ends the
    cycle of the plugin with that error: [fetchS3Buckets] returns it after
    the listing of the buckets, [GetDatabases] after the listing of the
    workgroups, with no database.  A failure of the listing of the VPC
    endpoints is logged, at debug level for access denied and as a warning
    otherwise, and [GetDatabases] returns the databases of the workgroups
    and no error. *)
Theorem listing_failures (fuel : nat) (cfg : awsFetcherConfig) (client : rssAPI)
    (log : list logRecord) :
  GetAWSRedshiftServerlessClient cfg = inr client →
  (∀ knownRegion timestampNow a c err sched h,
     S3Sync.GetAWSS3Client a
       (match S3Sync.Regions a with r :: _ => r | [] => knownRegion end) = inr c →
     S3Sync.ListBucketsWithContext c = inl err →
     S3Sync.fetchS3Buckets knownRegion timestampNow a sched h
     = Some (h, (S3Sync.S3Buckets (S3Sync.lastResult a), Some (Wrap (Wrap err)))))
  ∧ (∀ workgroups err,
       getRSSWorkgroups fuel client = Some (workgroups, Some err) →
       GetDatabases fuel cfg log = Some ([], Some (Wrap (Wrap err)), log))
  ∧ (∀ databases workgroups log1 endpoints err,
       getDatabasesFromWorkgroups fuel client log = Some (databases, workgroups, None, log1) →
       workgroups ≠ [] →
       getRSSVPCEndpoints fuel client = Some (endpoints, Some err) →
       GetDatabases fuel cfg log
       = Some (databases, None,
               log1 ++ [ if IsAccessDenied (Wrap err)
                         then {| Level := LevelDebug;
                                 Message := "No permission to get Redshift Serverless VPC endpoints";
                                 Attrs := [Error_ "error" (Wrap err)] |}
                         else {| Level := LevelWarn;
                                 Message := "Failed to get Redshift Serverless VPC endpoints";
                                 Attrs := [Error_ "error" (Wrap err)] |} ])).
Proof.
  intros Hclient. split; [|split].
  - intros knownRegion timestampNow a c err sched h Hc Hl.
    apply fetchS3Buckets_listing_failed.
    rewrite (listS3Buckets_listing knownRegion a c Hc), Hl. reflexivity.
  - intros workgroups err Hw. unfold RedshiftServerless.GetDatabases. rewrite Hclient.
    unfold RedshiftServerless.getDatabasesFromWorkgroups. rewrite Hw. reflexivity.
  - intros databases workgroups log1 endpoints err Hw Hne He.
    unfold RedshiftServerless.GetDatabases. rewrite Hclient, Hw.
    rewrite bool_decide_true by (destruct workgroups; [congruence | cbn; lia]).
    unfold RedshiftServerless.getDatabasesFromVPCEndpoints. rewrite He.
    rewrite app_nil_r. destruct (IsAccessDenied (Wrap err)); reflexivity.
Qed.

End Plugin.

Section Cap.
Import redshiftserverless RedshiftServerless.

Lemma fmap_concat_singletons {A B C} (f : A → B) (g : B → C) (l : list A) :
  g <$> concat ((λ j, [f j]) <$> l) = (λ j, g (f j)) <$> l.
Proof. induction l as [|i l IH]; [reflexivity|]. cbn. f_equal. exact IH. Qed.

Lemma length_concat_singletons {A B} (f : A → B) (l : list A) :
  length (concat ((λ j, [f j]) <$> l)) = length l.
Proof. induction l as [|i l IH]; [reflexivity|]. cbn. f_equal. exact IH. Qed.

(** C5.  On the provider whose listings never end, and for every value of
    the cap, both collectors return, with the pages in the order of the
    requests: the pages number 0 to [maxAWSPages], one more than the cap. *)
Theorem collectors_on_endless_listing (maxAWSPages : nat)
    (ConvertRequestFailureError : error → error) :
  (∃ workgroups,
     getRSSWorkgroups maxAWSPages ConvertRequestFailureError (maxAWSPages + 2) endlessRSS
     = Some (workgroups, None)
     ∧ WorkgroupName <$> workgroups = (λ i, Some (pretty i)) <$> seq 0 (S maxAWSPages)
     ∧ length workgroups = S maxAWSPages)
  ∧ (∃ endpoints,
       getRSSVPCEndpoints maxAWSPages ConvertRequestFailureError (maxAWSPages + 2) endlessRSS
       = Some (endpoints, None)
       ∧ EndpointName <$> endpoints = (λ i, Some (pretty i)) <$> seq 0 (S maxAWSPages)
       ∧ length endpoints = S maxAWSPages).
Proof.
  unfold getRSSWorkgroups, getRSSVPCEndpoints. cbv zeta. split.
  - rewrite (collect_endless maxAWSPages (ListWorkgroupsPages endlessRSS) _ (λ j, eq_refl));
      cbn [length]; [|lia|lia].
    rewrite Nat.sub_0_r. cbn [app fmap option_fmap option_map].
    eexists. split; [reflexivity|].
    unfold flatten. split.
    + rewrite fmap_concat_singletons. reflexivity.
    + rewrite length_concat_singletons, length_seq. reflexivity.
  - rewrite (collect_endless maxAWSPages (ListEndpointAccessPages endlessRSS) _ (λ j, eq_refl));
      cbn [length]; [|lia|lia].
    rewrite Nat.sub_0_r. cbn [app fmap option_fmap option_map].
    eexists. split; [reflexivity|].
    unfold flatten. split.
    + rewrite fmap_concat_singletons. reflexivity.
    + rewrite length_concat_singletons, length_seq. reflexivity.
Qed.

End Cap.

(** The listing of the VPC endpoints fails for a provider that lists the
    workgroup [w1]: [GetDatabases] returns the database of [w1] and a nil
    error, with a warning in the log. *)
Lemma vpc_listing_failure_swallowed :
  RedshiftServerless.getRSSVPCEndpoints 10 (λ e, e) 12 vpcListingDown
  = Some ([], Some (OtherErr "throttled"))
  ∧ RedshiftServerless.GetDatabases sampleDatabase 10 sampleAvailable (λ e, e)
      sampleAccessDenied sampleWorkgroupDatabase sampleEndpointDatabase 12
      {| RedshiftServerless.GetAWSRedshiftServerlessClient := inr vpcListingDown |} []
    = Some ([ {| dbName := "w1";
                 dbURI := "w1.111122223333.eu-west-1.redshift-serverless.amazonaws.com";
                 dbLabels := [("env", "prod")] |} ],
            None,
            [ {| Level := LevelWarn;
                 Message := "Failed to get Redshift Serverless VPC endpoints";
                 Attrs := [Error_ "error" (Wrap (OtherErr "throttled"))] |} ])
  ∧ ¬ ∃ e databases log,
        RedshiftServerless.GetDatabases sampleDatabase 10 sampleAvailable (λ e, e)
          sampleAccessDenied sampleWorkgroupDatabase sampleEndpointDatabase 12
          {| RedshiftServerless.GetAWSRedshiftServerlessClient := inr vpcListingDown |} []
        = Some (databases, Some e, log).
Proof.
  split; [vm_compute; reflexivity|]. split; [vm_compute; reflexivity|].
  intros (e & databases & log & H). vm_compute in H. discriminate.
Qed.

Lemma listing_failures_witness :
  RedshiftServerless.GetDatabases sampleDatabase 10 sampleAvailable (λ e, e)
    sampleAccessDenied sampleWorkgroupDatabase sampleEndpointDatabase 12
    {| RedshiftServerless.GetAWSRedshiftServerlessClient := inr workgroupListingDown |} []
  = Some ([], Some (Wrap (Wrap (OtherErr "throttled"))), [])
  ∧ RedshiftServerless.GetDatabases sampleDatabase 10 sampleAvailable (λ e, e)
      sampleAccessDenied sampleWorkgroupDatabase sampleEndpointDatabase 12
      {| RedshiftServerless.GetAWSRedshiftServerlessClient := inr vpcListingDown |} []
    = Some ([ {| dbName := "w1";
                 dbURI := "w1.111122223333.eu-west-1.redshift-serverless.amazonaws.com";
                 dbLabels := [("env", "prod")] |} ],
            None,
            [ {| Level := LevelWarn;
                 Message := "Failed to get Redshift Serverless VPC endpoints";
                 Attrs := [Error_ "error" (Wrap (OtherErr "throttled"))] |} ]).
Proof.
  split.
  - destruct (listing_failures sampleDatabase 10 sampleAvailable (λ e, e) sampleAccessDenied
                sampleWorkgroupDatabase sampleEndpointDatabase 12
                {| RedshiftServerless.GetAWSRedshiftServerlessClient := inr workgroupListingDown |}
                workgroupListingDown [] eq_refl) as (_ & Hw & _).
    exact (Hw [] (OtherErr "throttled") eq_refl).
  - destruct (listing_failures sampleDatabase 10 sampleAvailable (λ e, e) sampleAccessDenied
                sampleWorkgroupDatabase sampleEndpointDatabase 12
                {| RedshiftServerless.GetAWSRedshiftServerlessClient := inr vpcListingDown |}
                vpcListingDown [] eq_refl) as (_ & _ & Hv).
    exact (Hv _ [w1WithTags] [] [] (OtherErr "throttled") eq_refl
             ltac:(discriminate) eq_refl).
Defined.

(** The endpoint [e3] refers to the listed workgroup [w1] and is available,
    but has no address to convert: no database is returned for it. *)
Lemma endpoint_without_database :
  RedshiftServerless.findWorkgroupWithName [w1WithTags]
    (RedshiftServerless.StringValue (redshiftserverless.WorkgroupName_ e3))
  = Some w1WithTags
  ∧ sampleAvailable (redshiftserverless.EndpointStatus e3) = true
  ∧ RedshiftServerless.getDatabasesFromVPCEndpoints sampleDatabase 10 sampleAvailable
      (λ e, e) sampleEndpointDatabase 12 [w1WithTags]
      (sampleRSS (RedshiftServerless.Page [e3] false)) []
    = Some ([], None,
            [ {| Level := LevelInfo;
                 Message := "Could not convert Redshift Serverless endpoint to database resource";
                 Attrs := [String_ "endpoint" "e3";
                           Error_ "error" (OtherErr "missing endpoint")] |} ]).
Proof. repeat split; vm_compute; reflexivity. Qed.

Lemma endpoint_attribution_witness :
  ∃ databases logged,
    RedshiftServerless.getDatabasesFromVPCEndpoints sampleDatabase 10 sampleAvailable
      (λ e, e) sampleEndpointDatabase 12 [w1WithTags]
      (sampleRSS (RedshiftServerless.Page [e1; e2] false)) []
    = Some (databases, None, [] ++ logged)
    ∧ databases
      = [ {| dbName := "e1";
             dbURI := "e1.vpce.eu-west-1.redshift-serverless.amazonaws.com";
             dbLabels := [("env", "prod")] |} ].
Proof.
  destruct (endpoint_attribution sampleDatabase 10 sampleAvailable (λ e, e)
              sampleEndpointDatabase 12 [w1WithTags]
              (sampleRSS (RedshiftServerless.Page [e1; e2] false)) [] [] [e2] e1 eq_refl)
    as (databases & logged & Hrun & Hfound & _).
  exists databases, logged. split; [exact Hrun|].
  destruct (Hfound w1WithTags ltac:(left) eq_refl eq_refl) as (w' & Hw' & _ & _ & Hdb).
  vm_compute in Hw'. injection Hw' as <-.
  rewrite (Hdb _ eq_refl). reflexivity.
Defined.

(** * Further properties *)

(** ** The snapshot builder *)

Section Builder.
Import S3Sync Snapshots.

Variable timestampNow : string → Z.

Lemma awsACLsToProtoACLs_snoc (acc : list AWSS3BucketACL) (grants : list s3.Grant)
    (conv : s3.Grant → AWSS3BucketACL) :
  foldl (λ acls grant, acls ++ [conv grant]) acc grants = acc ++ (conv <$> grants).
Proof.
  revert acc. induction grants as [|grant grants IH]; intros acc; cbn.
  - rewrite app_nil_r. reflexivity.
  - rewrite IH, <- app_assoc. reflexivity.
Qed.

(** X1.  [awsACLsToProtoACLs] gives one ACL per grant, in the order of the
    grants; absent strings of a grant become empty strings. *)
Theorem awsACLsToProtoACLs_map (grants : list s3.Grant) :
  awsACLsToProtoACLs grants
  = (λ grant,
       {| Grantee :=
            {| Id := ToString (s3.ID (s3.Grantee_ grant));
               DisplayName := ToString (s3.DisplayName (s3.Grantee_ grant));
               Type_ := ToString (s3.Type_ (s3.Grantee_ grant));
               Uri := ToString (s3.URI (s3.Grantee_ grant));
               EmailAddress := ToString (s3.EmailAddress (s3.Grantee_ grant)) |};
          Permission := ToString (s3.Permission grant) |}) <$> grants
  ∧ length (awsACLsToProtoACLs grants) = length grants.
Proof.
  unfold awsACLsToProtoACLs. rewrite awsACLsToProtoACLs_snoc. cbn [app].
  split; [reflexivity | apply length_fmap].
Qed.

(** X2.  [awsS3Bucket] adds exactly one record to the store, at a location
    that was not in use, and changes no other.  The record has the name, the
    account and the time of the call; the policy document is the bytes of
    the policy, the public flag is the one of the policy status, there is
    one tag per entry of the tag set, in order; every field whose input is
    nil is empty, and the public flag is false when the policy status is
    missing inside its output. *)
Theorem awsS3Bucket_builds (name : string) (policy : option s3.GetBucketPolicyOutput)
    (policyStatus : option s3.GetBucketPolicyStatusOutput)
    (acls : option s3.GetBucketAclOutput) (tags : option s3.GetBucketTaggingOutput)
    (accountID : string) (h : store) :
  ∃ l m,
    awsS3Bucket timestampNow name policy policyStatus acls tags accountID h
    = Some (<[l := m]> h, l)
    ∧ h !! l = None
    ∧ Name m = name ∧ AccountId m = accountID ∧ LastSyncTime m = timestampNow name
    ∧ PolicyDocument m
      = from_option (λ p, String.list_byte_of_string (ToString (s3.Policy p))) [] policy
    ∧ IsPublic m
      = from_option (λ p, from_option (λ s, ToBool (s3.IsPublic s)) false (s3.PolicyStatus_ p))
          false policyStatus
    ∧ length (Acls m) = from_option (λ p, length (s3.Grants p)) 0%nat acls
    ∧ Tags m
      = from_option
          (λ p, (λ tag, {| Key := ToString (s3.Key tag); Value := s3.Value tag |})
                <$> s3.TagSet p)
          [] tags.
Proof.
  eexists _, _. split; [apply awsS3Bucket_run|].
  split; [apply fresh_lookup_None|].
  unfold newSnapshot. cbn [Name AccountId LastSyncTime PolicyDocument IsPublic Acls Tags].
  repeat apply conj; try reflexivity.
  - destruct policyStatus as [[[?|]]|]; reflexivity.
  - destruct acls as [p|]; [|reflexivity]. cbn.
    unfold awsACLsToProtoACLs. rewrite awsACLsToProtoACLs_snoc. apply length_fmap.
Qed.

End Builder.

(** ** The detail fetcher, once more *)

Section DetailFetcher.
Import S3Sync Snapshots.

(** What [getS3BucketDetails] returns with a client at hand. *)
Lemma getS3BucketDetails_client (a : awsFetcher) (bucket : s3.Bucket)
    (bucketRegion : string) (c : S3Client) :
  GetAWSS3Client a bucketRegion = inr c →
  getS3BucketDetails a bucket bucketRegion
  = ({| policy := (GetBucketPolicyWithContext c (s3.Name bucket)).1;
        policyStatus := (GetBucketPolicyStatusWithContext c (s3.Name bucket)).1;
        acls := (GetBucketAclWithContext c (s3.Name bucket)).1;
        tags := (GetBucketTaggingWithContext c (s3.Name bucket)).1 |},
     {| policyFailed :=
          hardFailure (hasCode "NoSuchBucketPolicy")
            (GetBucketPolicyWithContext c (s3.Name bucket)).2;
        failedPolicyStatus :=
          hardFailure (hasCode "NoSuchBucketPolicy")
            (GetBucketPolicyStatusWithContext c (s3.Name bucket)).2;
        failedAcls := hardFailure (λ _, false) (GetBucketAclWithContext c (s3.Name bucket)).2;
        failedTags :=
          hardFailure (hasCode "NoSuchTagSet")
            (GetBucketTaggingWithContext c (s3.Name bucket)).2;
        headFailed := false |},
     reported (hasCode "NoSuchBucketPolicy") "failed to fetch bucket %q inline policy"
       bucket (GetBucketPolicyWithContext c (s3.Name bucket)).2
     ++ reported (hasCode "NoSuchBucketPolicy") "failed to fetch bucket %q policy status"
          bucket (GetBucketPolicyStatusWithContext c (s3.Name bucket)).2
     ++ reported (λ _, false) "failed to fetch bucket %q acls policies"
          bucket (GetBucketAclWithContext c (s3.Name bucket)).2
     ++ reported (hasCode "NoSuchTagSet") "failed to fetch bucket %q tags"
          bucket (GetBucketTaggingWithContext c (s3.Name bucket)).2).
Proof.
  intros Hc. unfold getS3BucketDetails. rewrite Hc.
  unfold isS3BucketPolicyNotFound, isS3BucketNoTagSet, reported, hardFailure, hasCode.
  destruct (GetBucketPolicyWithContext c (s3.Name bucket)) as [o1 [e1|]];
    destruct (GetBucketPolicyStatusWithContext c (s3.Name bucket)) as [o2 [e2|]];
    destruct (GetBucketAclWithContext c (s3.Name bucket)) as [o3 [e3|]];
    destruct (GetBucketTaggingWithContext c (s3.Name bucket)) as [o4 [e4|]];
    cbn [fst snd];
    repeat match goal with
           | |- context [errorsAsAws ?e] => destruct (errorsAsAws e) as [[? ?]|]
           | |- context [String.eqb ?x ?y] => destruct (String.eqb x y)
           end;
    reflexivity.
Qed.

(** X3.  Flags and errors of [getS3BucketDetails] go together, with or
    without a client: the error list is empty exactly when no flag at all is
    set, it never has more than four entries, and [headFailed] is set
    exactly when no client could be created, in which case the four field
    flags are set too and there is a single error. *)
Theorem getS3BucketDetails_flags_and_errors (a : awsFetcher) (bucket : s3.Bucket)
    (bucketRegion : string) :
  let '(_, flags, errs) := getS3BucketDetails a bucket bucketRegion in
  (errs = [] ↔ flags = noFailedRequests)
  ∧ (length errs ≤ 4)%nat
  ∧ (headFailed flags = true ↔ ∃ err, GetAWSS3Client a bucketRegion = inl err)
  ∧ (headFailed flags = true →
     policyFailed flags = true ∧ failedPolicyStatus flags = true ∧
     failedAcls flags = true ∧ failedTags flags = true ∧ length errs = 1%nat).
Proof.
  destruct (GetAWSS3Client a bucketRegion) as [err|c] eqn:Hc.
  - unfold getS3BucketDetails. rewrite Hc. cbn.
    repeat apply conj; try done; try lia; eauto.
  - rewrite (getS3BucketDetails_client a bucket bucketRegion c Hc).
    unfold reported, hardFailure, noFailedRequests.
    assert (Hno : ¬ ∃ err : error, @inr error S3Client c = inl err)
      by (intros [? ?]; discriminate).
    destruct (GetBucketPolicyWithContext c (s3.Name bucket)) as [o1 [e1|]];
      destruct (GetBucketPolicyStatusWithContext c (s3.Name bucket)) as [o2 [e2|]];
      destruct (GetBucketAclWithContext c (s3.Name bucket)) as [o3 [e3|]];
      destruct (GetBucketTaggingWithContext c (s3.Name bucket)) as [o4 [e4|]];
      cbn [fst snd negb];
      repeat match goal with
             | |- context [hasCode ?c ?e] => destruct (hasCode c e)
             end;
      cbn; (repeat apply conj; try done; try lia; try tauto).
Qed.

End DetailFetcher.

(** ** The batch run, once more *)

Section BatchMore.
Import S3Sync Snapshots Batch Ownership.

Variable knownRegion : string.
Variable timestampNow : string → Z.
Variable a : awsFetcher.
Variable resolver : option string → string * option error.
Variable existing : Resources.
Variable h0 : store.
Variable buckets : list s3.Bucket.

Hypothesis existing_valid : Forall (λ l, is_Some (h0 !! l)) (S3Buckets existing).

Local Abbreviation Inv := (Inv timestampNow a resolver existing h0 buckets).
Local Abbreviation expected := (expected timestampNow a resolver existing h0).
Local Abbreviation step := (step timestampNow a resolver existing).
Local Abbreviation exec := (exec timestampNow a resolver existing).
Local Abbreviation closureStep := (closureStep timestampNow a resolver existing).
Local Abbreviation fetchS3Buckets := (fetchS3Buckets knownRegion timestampNow a).

Lemma Owned_start : Owned h0 (start h0 buckets).
Proof. constructor; cbn; constructor. Qed.

Lemma step_Owned (act : action) (g g' : group) :
  Inv g → Owned h0 g → step act g = Some g' → Owned h0 g'.
Proof.
  intros HI [Hnd Hnew] Hstep. pose proof (inv_heap _ _ _ _ _ _ _ HI) as Hh.
  destruct g as [v pend ths]. unfold produced in *. cbn [vars pending threads] in *.
  destruct act as [|i]; cbn [S3Sync.step vars pending threads] in Hstep.
  - destruct pend as [|b rest]; [discriminate|].
    destruct (decide (active ths < 5)); [|discriminate].
    injection Hstep as <-. constructor; unfold produced; cbn [vars pending threads];
      rewrite bind_app; cbn; rewrite !app_nil_r; assumption.
  - destruct (ths !! i) as [t|] eqn:Hi; [|discriminate].
    destruct (closureStep t v) as [[p v']|] eqn:Hc; [|discriminate].
    injection Hstep as <-.
    destruct (insert_split ths i t {| bucket := bucket t; at_ := p |} Hi)
      as (l1 & l2 & -> & -> & _).
    rewrite bind_app, bind_cons in Hnd, Hnew.
    destruct t as [b q]. unfold S3Sync.closureStep in Hc. cbn [at_ bucket] in *.
    destruct q as [|s3 err|s3 err|s3| | |r].
    + destruct (task_run timestampNow a resolver existing b (heap v)
                  (valid_weaken existing h0 existing_valid _ Hh))
        as (h' & l & Hrun & Hsub & Hfresh & Hl').
      rewrite Hrun in Hc. injection Hc as <- <-.
      cbn in Hnd, Hnew.
      assert (Hnotin : l ∉ s3s v ++ (l1 ≫= held) ++ (l2 ≫= held)).
      { intros Hin. rewrite Forall_forall in Hnew.
        destruct (Hnew l Hin) as [[x Hx] _]. congruence. }
      constructor; unfold produced; cbn [vars pending threads heap s3s];
        rewrite bind_app, bind_cons; cbn.
      * rewrite app_assoc. apply NoDup_app. rewrite app_assoc in Hnd, Hnotin.
        apply NoDup_app in Hnd as (Hn1 & Hn2 & Hn3).
        split; [exact Hn1|]. split.
        -- intros x Hx Hx'. apply elem_of_cons in Hx' as [->|Hx'].
           ++ apply Hnotin, elem_of_app. left. exact Hx.
           ++ exact (Hn2 x Hx Hx').
        -- apply NoDup_cons. split; [|exact Hn3].
           intros Hx. apply Hnotin, elem_of_app. right. exact Hx.
      * rewrite app_assoc. rewrite app_assoc in Hnew.
        apply Forall_app in Hnew as [Hnew1 Hnew2].
        assert (Hw : ∀ x, is_Some (heap v !! x) ∧ h0 !! x = None →
                          is_Some (h' !! x) ∧ h0 !! x = None).
        { intros x [[y Hy] H0]. split; [|exact H0].
          exists y. eapply lookup_weaken; eassumption. }
        apply Forall_app. split; [eapply Forall_impl; [exact Hnew1 | exact Hw]|].
        apply Forall_cons. split.
        -- split; [eauto|]. eapply lookup_weaken_None; eassumption.
        -- eapply Forall_impl; [exact Hnew2 | exact Hw].
    + destruct (mu v); [discriminate|]. injection Hc as <- <-.
      constructor; unfold produced; cbn [vars pending threads heap s3s];
        rewrite bind_app, bind_cons; assumption.
    + injection Hc as <- <-.
      constructor; unfold produced; cbn [vars pending threads heap s3s];
        rewrite bind_app, bind_cons; assumption.
    + injection Hc as <- <-.
      destruct s3 as [l|]; cbn in Hnd, Hnew.
      * assert (Hp : (s3s v ++ [l]) ++ (l1 ≫= held) ++ (l2 ≫= held)
                     ≡ₚ s3s v ++ (l1 ≫= held) ++ l :: (l2 ≫= held)).
        { rewrite <- app_assoc. apply Permutation_app_head. cbn.
          apply Permutation_middle. }
        constructor; unfold produced; cbn [vars pending threads heap s3s];
          rewrite bind_app, bind_cons; cbn; rewrite Hp; assumption.
      * constructor; unfold produced; cbn [vars pending threads heap s3s];
          rewrite bind_app, bind_cons; assumption.
    + injection Hc as <- <-.
      constructor; unfold produced; cbn [vars pending threads heap s3s];
        rewrite bind_app, bind_cons; assumption.
    + injection Hc as <- <-.
      constructor; unfold produced; cbn [vars pending threads heap s3s];
        rewrite bind_app, bind_cons; assumption.
    + discriminate.
Qed.

Lemma exec_Owned (sched : list action) :
  ∀ g g', Inv g → Owned h0 g → exec sched g = Some g' → Owned h0 g'.
Proof.
  induction sched as [|act sched IH]; intros g g' HI HO He; cbn in He.
  - injection He as <-. exact HO.
  - destruct (step act g) as [g1|] eqn:Hs; [|discriminate].
    eapply (IH g1); [| |exact He].
    + eapply step_Inv; eassumption.
    + eapply step_Owned; eassumption.
Qed.

Lemma finished_produced (g : group) :
  finished g = true → produced g = s3s (vars g).
Proof.
  unfold finished, produced. destruct (pending g); [|discriminate].
  intros Hf. induction (threads g) as [|t ts IH]; [apply app_nil_r|].
  cbn [forallb] in Hf. apply andb_true_iff in Hf as [Ht Hf].
  rewrite bind_cons. unfold running in Ht. unfold held at 1.
  destruct (at_ t); try discriminate. cbn. exact (IH Hf).
Qed.

(** What a return of [fetchS3Buckets] after a listing says about the run. *)
Lemma fetchS3Buckets_finished (sched : list action) (h' : store) (out : list loc)
    (e : option error) :
  listS3Buckets knownRegion a = inr (buckets, resolver) → existing = lastResult a →
  fetchS3Buckets sched h0 = Some (h', (out, e)) →
  ∃ g, exec sched (start h0 buckets) = Some g ∧ finished g = true
       ∧ h' = heap (vars g) ∧ out = s3s (vars g) ∧ e = NewAggregate (errs (vars g)).
Proof.
  intros Hlist Hexisting Hfetch.
  unfold S3Sync.fetchS3Buckets in Hfetch. cbv zeta in Hfetch.
  rewrite Hlist, <- Hexisting in Hfetch.
  destruct (exec sched (start h0 buckets)) as [g|] eqn:Hex; [|discriminate].
  destruct (finished g) eqn:Hfin; [|discriminate].
  injection Hfetch as <- <- <-. exists g. repeat split; assumption.
Qed.

(** The store after a cycle extends the one before it by the snapshots
    returned. *)
Lemma fetchS3Buckets_store (sched : list action) (h' : store) (out : list loc)
    (e : option error) :
  listS3Buckets knownRegion a = inr (buckets, resolver) → existing = lastResult a →
  fetchS3Buckets sched h0 = Some (h', (out, e)) →
  h0 ⊆ h' ∧ NoDup out ∧ Forall (λ l, h0 !! l = None ∧ is_Some (h' !! l)) out.
Proof.
  intros Hlist Hexisting Hfetch.
  destruct (fetchS3Buckets_finished sched h' out e Hlist Hexisting Hfetch)
    as (g & Hex & Hfin & -> & -> & ->).
  pose proof (exec_Inv timestampNow a resolver existing h0 buckets existing_valid
                sched _ _ (Inv_start _ _ _ _ _ _) Hex) as HI.
  pose proof (exec_Owned sched _ _ (Inv_start _ _ _ _ _ _) Owned_start Hex) as [Hnd Hnew].
  rewrite (finished_produced g Hfin) in Hnd, Hnew.
  split; [exact (inv_heap _ _ _ _ _ _ _ HI)|]. split; [exact Hnd|].
  eapply Forall_impl; [exact Hnew|]. intros l [H1 H2]. split; assumption.
Qed.

(** X4.  A cycle leaves the store it started from as it was: every record
    of it, and so every snapshot of the previous result set, is read back
    unchanged.  The snapshots it returns are records that were not in that
    store, pairwise distinct, and all present in the store it returns. *)
Theorem fetchS3Buckets_frame (sched : list action) (h' : store) (out : list loc)
    (e : option error) :
  listS3Buckets knownRegion a = inr (buckets, resolver) → existing = lastResult a →
  fetchS3Buckets sched h0 = Some (h', (out, e)) →
  (∀ l v, h0 !! l = Some v → h' !! l = Some v)
  ∧ NoDup out
  ∧ Forall (λ l, h0 !! l = None ∧ is_Some (h' !! l)) out.
Proof.
  intros Hlist Hexisting Hfetch.
  destruct (fetchS3Buckets_store sched h' out e Hlist Hexisting Hfetch) as (Hsub & Hnd & Hnew).
  split; [|split; assumption].
  intros l v Hl. eapply lookup_weaken; [exact Hl | exact Hsub].
Qed.

Lemma fetchS3Buckets_all (sched : list action) (h' : store) (out : list loc)
    (e : option error) :
  listS3Buckets knownRegion a = inr (buckets, resolver) → existing = lastResult a →
  fetchS3Buckets sched h0 = Some (h', (out, e)) →
  (λ l, h' !! l) <$> out ≡ₚ (λ b, Some (expected b)) <$> buckets
  ∧ ∃ errs, e = NewAggregate errs ∧ errs ≡ₚ omap (bucketErr a resolver) buckets.
Proof.
  intros Hlist Hexisting Hfetch.
  destruct (fetchS3Buckets_finished sched h' out e Hlist Hexisting Hfetch)
    as (g & Hex & Hfin & -> & -> & ->).
  pose proof (exec_Inv timestampNow a resolver existing h0 buckets existing_valid
                sched _ _ (Inv_start _ _ _ _ _ _) Hex) as HI.
  destruct (finished_all _ _ _ _ _ _ g HI Hfin) as [Hs He].
  split; [exact Hs|]. exists (errs (vars g)). split; [reflexivity | exact He].
Qed.

Lemma fetchS3Buckets_snapshot (sched : list action) (h' : store) (out : list loc)
    (e : option error) (b : s3.Bucket) :
  listS3Buckets knownRegion a = inr (buckets, resolver) → existing = lastResult a →
  fetchS3Buckets sched h0 = Some (h', (out, e)) → b ∈ buckets →
  ∃ l, l ∈ out ∧ h' !! l = Some (expected b).
Proof.
  intros Hlist Hexisting Hfetch Hin.
  destruct (fetchS3Buckets_all sched h' out e Hlist Hexisting Hfetch) as [Hs _].
  assert (Hm : Some (expected b) ∈ (λ l, h' !! l) <$> out).
  { rewrite Hs. apply (list_elem_of_fmap_2 (λ b, Some (expected b))), Hin. }
  apply list_elem_of_fmap in Hm as (l & Hl & Hlin). eauto.
Qed.

Lemma NewAggregate_None (errs : list error) : NewAggregate errs = None ↔ errs = [].
Proof. destruct errs; cbn; split; intros; congruence. Qed.

Lemma expected_identity (b : s3.Bucket) :
  Name (expected b) = ToString (s3.Name b) ∧ AccountId (expected b) = AccountID a
  ∧ LastSyncTime (expected b) = timestampNow (ToString (s3.Name b)).
Proof.
  unfold Batch.expected, bucketSnapshot, freshSnapshot.
  destruct (pickFirst _ _ _) as [l|]; [destruct (h0 !! l)|]; repeat split.
Qed.

(** X5.  The result of a cycle does not depend on how its closures are
    scheduled, except for the order: two runs to the end from the same
    store return the same snapshots up to a permutation, and aggregates of
    the same errors up to a permutation; one has a nil error exactly when
    the other has. *)
Theorem fetchS3Buckets_schedule_independent (sched1 sched2 : list action)
    (h1 h2 : store) (out1 out2 : list loc) (e1 e2 : option error) :
  listS3Buckets knownRegion a = inr (buckets, resolver) → existing = lastResult a →
  fetchS3Buckets sched1 h0 = Some (h1, (out1, e1)) →
  fetchS3Buckets sched2 h0 = Some (h2, (out2, e2)) →
  (λ l, h1 !! l) <$> out1 ≡ₚ (λ l, h2 !! l) <$> out2
  ∧ (e1 = None ↔ e2 = None)
  ∧ ∀ errs1 errs2, e1 = Some (Aggregate errs1) → e2 = Some (Aggregate errs2) →
                   errs1 ≡ₚ errs2.
Proof.
  intros Hlist Hexisting Hf1 Hf2.
  destruct (fetchS3Buckets_all sched1 h1 out1 e1 Hlist Hexisting Hf1)
    as (Hs1 & errs1 & -> & He1).
  destruct (fetchS3Buckets_all sched2 h2 out2 e2 Hlist Hexisting Hf2)
    as (Hs2 & errs2 & -> & He2).
  assert (Hp : errs1 ≡ₚ errs2) by (rewrite He1, He2; reflexivity).
  split; [rewrite Hs1, Hs2; reflexivity|]. split.
  - rewrite !NewAggregate_None. split; intros ->.
    + apply Permutation_nil_l in Hp. congruence.
    + apply Permutation_nil_r in Hp. congruence.
  - intros l1 l2 H1 H2. destruct errs1, errs2; try discriminate.
    cbn in H1, H2. injection H1 as <-. injection H2 as <-. exact Hp.
Qed.

(** X6.  A cycle that ran to the end returns a nil error exactly when, for
    every listed bucket, the region lookup gave no error and
    [getS3BucketDetails] recorded none. *)
Theorem fetchS3Buckets_nil_error (sched : list action) (h' : store) (out : list loc)
    (e : option error) :
  listS3Buckets knownRegion a = inr (buckets, resolver) → existing = lastResult a →
  fetchS3Buckets sched h0 = Some (h', (out, e)) →
  (e = None ↔
   ∀ b, b ∈ buckets →
        ∃ region, resolver (s3.Name b) = (region, None)
                  ∧ (getS3BucketDetails a b region).2 = []).
Proof.
  intros Hlist Hexisting Hfetch.
  destruct (fetchS3Buckets_all sched h' out e Hlist Hexisting Hfetch)
    as (_ & errs & -> & He).
  rewrite NewAggregate_None.
  assert (Hb : ∀ b, bucketErr a resolver b = None ↔
                    ∃ region, resolver (s3.Name b) = (region, None)
                              ∧ (getS3BucketDetails a b region).2 = []).
  { intros b. unfold bucketErr, fetched.
    destruct (resolver (s3.Name b)) as [region [err|]]; cbn.
    - split; [discriminate|]. intros (r & Hr & _). discriminate.
    - rewrite NewAggregate_None. split.
      + intros Hd. exists region. split; [reflexivity | exact Hd].
      + intros (r & Hr & Hd). injection Hr as <-. exact Hd. }
  split.
  - intros ->. apply Permutation_nil_l in He.
    intros b Hin. apply Hb.
    destruct (bucketErr a resolver b) as [x|] eqn:Hx; [|reflexivity].
    assert (Hm : x ∈ omap (bucketErr a resolver) buckets)
      by (apply list_elem_of_omap; eauto).
    rewrite <- He in Hm. inversion Hm.
  - intros Hall.
    assert (Hnil : omap (bucketErr a resolver) buckets = []).
    { clear -Hall Hb. induction buckets as [|b bs IH]; [reflexivity|].
      cbn. rewrite (proj2 (Hb b) (Hall b ltac:(left))).
      apply IH. intros b' Hb'. apply Hall. right. exact Hb'. }
    rewrite Hnil in He. apply Permutation_nil_r in He. exact He.
Qed.

(** X7.  The output of a cycle reflects the listing alone: it has as many
    snapshots as buckets were listed, so none for an empty listing, and
    every snapshot carries the name of a listed bucket, the account of the
    fetcher and the time at which it was built in this cycle.  The previous
    snapshot of a bucket that is no longer listed is not carried over. *)
Theorem fetchS3Buckets_reflects_listing (sched : list action) (h' : store)
    (out : list loc) (e : option error) :
  listS3Buckets knownRegion a = inr (buckets, resolver) → existing = lastResult a →
  fetchS3Buckets sched h0 = Some (h', (out, e)) →
  length out = length buckets
  ∧ (buckets = [] → out = [] ∧ e = None)
  ∧ Forall (λ l, ∃ b m, b ∈ buckets ∧ h' !! l = Some m
                        ∧ Name m = ToString (s3.Name b)
                        ∧ AccountId m = AccountID a
                        ∧ LastSyncTime m = timestampNow (ToString (s3.Name b))) out.
Proof.
  intros Hlist Hexisting Hfetch.
  destruct (fetchS3Buckets_all sched h' out e Hlist Hexisting Hfetch)
    as (Hs & errs & -> & He).
  assert (Hlen : length out = length buckets).
  { apply Permutation_length in Hs. rewrite !length_fmap in Hs. exact Hs. }
  split; [exact Hlen|]. split.
  - intros Hnil. rewrite Hnil in Hlen, He. cbn in Hlen, He.
    apply nil_length_inv in Hlen. apply Permutation_nil_r in He. subst. split; reflexivity.
  - apply Forall_forall. intros l Hl.
    assert (Hm : h' !! l ∈ (λ l, h' !! l) <$> out)
      by (apply (list_elem_of_fmap_2 (λ l, h' !! l)), Hl).
    rewrite Hs in Hm. apply list_elem_of_fmap in Hm as (b & Hb & Hin).
    exists b, (expected b). split; [exact Hin|]. split; [exact Hb|].
    apply expected_identity.
Qed.

(** X8.  History fills the gaps of a detail fetch.  For a listed bucket
    whose region is resolved and for which a client exists, the output of a
    cycle has a snapshot that is the one built from the answers of the four
    calls when the previous result set has no snapshot of that name and
    account; when it has one, each of the four fields is the previous one
    if the call for the field failed with an error that is not a legitimate
    absence, and the one built from the answer otherwise. *)
Theorem detail_failure_restored (sched : list action) (h' : store) (out : list loc)
    (e : option error) (b : s3.Bucket) (region : string) (c : S3Client) :
  listS3Buckets knownRegion a = inr (buckets, resolver) → existing = lastResult a →
  fetchS3Buckets sched h0 = Some (h', (out, e)) →
  b ∈ buckets → resolver (s3.Name b) = (region, None) → GetAWSS3Client a region = inr c →
  let policyCall := GetBucketPolicyWithContext c (s3.Name b) in
  let statusCall := GetBucketPolicyStatusWithContext c (s3.Name b) in
  let aclCall := GetBucketAclWithContext c (s3.Name b) in
  let tagsCall := GetBucketTaggingWithContext c (s3.Name b) in
  let new := newSnapshot timestampNow (ToString (s3.Name b)) policyCall.1 statusCall.1
               aclCall.1 tagsCall.1 (AccountID a) in
  ∃ l m,
    l ∈ out ∧ h' !! l = Some m ∧
    match pickFirst h0 (S3Buckets existing) (sameIdentity a b) with
    | None => m = new
    | Some pe =>
        ∃ prior,
          h0 !! pe = Some prior ∧
          PolicyDocument m
          = (if hardFailure (hasCode "NoSuchBucketPolicy") policyCall.2
             then PolicyDocument prior else PolicyDocument new) ∧
          IsPublic m
          = (if hardFailure (hasCode "NoSuchBucketPolicy") statusCall.2
             then IsPublic prior else IsPublic new) ∧
          Acls m = (if hardFailure (λ _, false) aclCall.2 then Acls prior else Acls new) ∧
          Tags m
          = (if hardFailure (hasCode "NoSuchTagSet") tagsCall.2
             then Tags prior else Tags new) ∧
          Name m = Name new ∧ AccountId m = AccountId new
          ∧ LastSyncTime m = LastSyncTime new
    end.
Proof.
  intros Hlist Hexisting Hfetch Hin Hres Hc. cbv zeta.
  destruct (fetchS3Buckets_snapshot sched h' out e b Hlist Hexisting Hfetch Hin)
    as (l & Hl & Hm).
  exists l, (expected b). split; [exact Hl|]. split; [exact Hm|].
  unfold Batch.expected, bucketSnapshot, freshSnapshot, fetched. rewrite Hres.
  rewrite (getS3BucketDetails_client a b region c Hc). cbn [fst snd policy policyStatus acls tags].
  destruct (pickFirst h0 (S3Buckets existing) (sameIdentity a b)) as [pe|] eqn:Hp;
    [|reflexivity].
  apply pickFirst_Some in Hp as (prior & Hpe & _). rewrite Hpe.
  exists prior. repeat split.
Qed.

(** X9.  For a listed bucket whose region is resolved but for which no S3
    client can be created, the closure makes none of the four calls: the
    output of a cycle has a snapshot with the name and the account of the
    bucket and, for its four fields, those of the previous snapshot when
    there is one and empty ones otherwise; the cycle returns a non-nil
    error. *)
Theorem client_failure_keeps_bucket (sched : list action) (h' : store) (out : list loc)
    (e : option error) (b : s3.Bucket) (region : string) (err : error) :
  listS3Buckets knownRegion a = inr (buckets, resolver) → existing = lastResult a →
  fetchS3Buckets sched h0 = Some (h', (out, e)) →
  b ∈ buckets → resolver (s3.Name b) = (region, None) → GetAWSS3Client a region = inl err →
  is_Some e
  ∧ ∃ l m,
      l ∈ out ∧ h' !! l = Some m ∧
      Name m = ToString (s3.Name b) ∧ AccountId m = AccountID a ∧
      match pickFirst h0 (S3Buckets existing) (sameIdentity a b) with
      | Some pe =>
          ∃ prior, h0 !! pe = Some prior ∧
            PolicyDocument m = PolicyDocument prior ∧ IsPublic m = IsPublic prior ∧
            Acls m = Acls prior ∧ Tags m = Tags prior
      | None => PolicyDocument m = [] ∧ IsPublic m = false ∧ Acls m = [] ∧ Tags m = []
      end.
Proof.
  intros Hlist Hexisting Hfetch Hin Hres Hc.
  assert (Hf : fetched a resolver b
               = ({| policy := None; policyStatus := None; acls := None; tags := None |},
                  {| headFailed := true; policyFailed := true; failedPolicyStatus := true;
                     failedAcls := true; failedTags := true |},
                  [Wrapped "failed to create s3 client for bucket %q"
                     [ToString (s3.Name b)] err])).
  { unfold fetched, getS3BucketDetails. rewrite Hres, Hc. reflexivity. }
  split.
  - destruct (fetchS3Buckets_all sched h' out e Hlist Hexisting Hfetch)
      as (_ & errs & -> & He).
    destruct errs as [|x xs]; [|cbn; eauto].
    exfalso. symmetry in He. apply Permutation_nil_r in He.
    assert (Hm : Aggregate [Wrapped "failed to create s3 client for bucket %q"
                              [ToString (s3.Name b)] err]
                 ∈ omap (bucketErr a resolver) buckets).
    { apply list_elem_of_omap. exists b. split; [exact Hin|].
      unfold bucketErr. rewrite Hf. reflexivity. }
    rewrite He in Hm. inversion Hm.
  - destruct (fetchS3Buckets_snapshot sched h' out e b Hlist Hexisting Hfetch Hin)
      as (l & Hl & Hm).
    exists l, (expected b). split; [exact Hl|]. split; [exact Hm|].
    unfold Batch.expected, bucketSnapshot, freshSnapshot. rewrite Hf. cbn [fst snd].
    destruct (pickFirst h0 (S3Buckets existing) (sameIdentity a b)) as [pe|] eqn:Hp.
    + apply pickFirst_Some in Hp as (prior & Hpe & _). rewrite Hpe.
      split; [reflexivity|]. split; [reflexivity|]. exists prior. repeat split.
    + repeat split.
Qed.

End BatchMore.

(** ** From one cycle to the next *)

Section Cycles.
Import S3Sync Snapshots Batch.

Variable knownRegion : string.
Variable timestampNow : string → Z.

Lemma pickFirst_found (h : store) (s : list loc) (f : AWSS3BucketV1 → bool) (l : loc)
    (m : AWSS3BucketV1) :
  l ∈ s → h !! l = Some m → f m = true → is_Some (pickFirst h s f).
Proof.
  intros Hin Hl Hf. unfold pickFirst.
  destruct (List.find _ s) as [x|] eqn:Hfind; [eauto|].
  apply list_elem_of_In in Hin.
  pose proof (List.find_none _ _ Hfind l Hin) as Hnone. cbn in Hnone.
  rewrite Hl in Hnone. congruence.
Qed.

(** X10.  What a cycle fetched survives a failed region lookup in the next
    cycle.  The second cycle runs on the store the first one left, with the
    output of the first as its previous result set.  For a bucket listed in
    both whose region lookup fails in the second, the output of the second
    cycle has a snapshot of the bucket whose policy document, public-access
    flag, ACLs and tags are those of a snapshot of that name and account in
    the output of the first cycle; that earlier snapshot is still in the
    store, unchanged. *)
Theorem region_failure_after_a_cycle (a1 a2 : awsFetcher)
    (buckets1 buckets2 : list s3.Bucket)
    (resolver1 resolver2 : option string → string * option error)
    (sched1 sched2 : list action) (h0 h1 h2 : store) (out1 out2 : list loc)
    (e1 e2 : option error) (b : s3.Bucket) (region : string) (err : error) :
  Forall (λ l, is_Some (h0 !! l)) (S3Buckets (lastResult a1)) →
  listS3Buckets knownRegion a1 = inr (buckets1, resolver1) →
  fetchS3Buckets knownRegion timestampNow a1 sched1 h0 = Some (h1, (out1, e1)) →
  S3Buckets (lastResult a2) = out1 → AccountID a2 = AccountID a1 →
  listS3Buckets knownRegion a2 = inr (buckets2, resolver2) →
  fetchS3Buckets knownRegion timestampNow a2 sched2 h1 = Some (h2, (out2, e2)) →
  b ∈ buckets1 → b ∈ buckets2 → resolver2 (s3.Name b) = (region, Some err) →
  ∃ l1 m1 l2 m2,
    l1 ∈ out1 ∧ h1 !! l1 = Some m1 ∧ h2 !! l1 = Some m1
    ∧ Name m1 = ToString (s3.Name b) ∧ AccountId m1 = AccountID a1
    ∧ l2 ∈ out2 ∧ (l2 ∉ out1) ∧ h2 !! l2 = Some m2
    ∧ Name m2 = ToString (s3.Name b) ∧ AccountId m2 = AccountID a1
    ∧ PolicyDocument m2 = PolicyDocument m1 ∧ IsPublic m2 = IsPublic m1
    ∧ Acls m2 = Acls m1 ∧ Tags m2 = Tags m1.
Proof.
  intros Hvalid0 Hlist1 Hfetch1 Hlast Hacc Hlist2 Hfetch2 Hin1 Hin2 Hres.
  destruct (fetchS3Buckets_store knownRegion timestampNow a1 resolver1 (lastResult a1) h0
              buckets1 Hvalid0 sched1 h1 out1 e1 Hlist1 eq_refl Hfetch1)
    as (Hsub1 & Hnd1 & Hnew1).
  assert (Hvalid1 : Forall (λ l, is_Some (h1 !! l)) (S3Buckets (lastResult a2))).
  { rewrite Hlast. eapply Forall_impl; [exact Hnew1|]. intros l [_ Hl]. exact Hl. }
  destruct (fetchS3Buckets_store knownRegion timestampNow a2 resolver2 (lastResult a2) h1
              buckets2 Hvalid1 sched2 h2 out2 e2 Hlist2 eq_refl Hfetch2)
    as (Hsub2 & Hnd2 & Hnew2).
  destruct (fetchS3Buckets_snapshot knownRegion timestampNow a1 resolver1 (lastResult a1) h0
              buckets1 Hvalid0 sched1 h1 out1 e1 b Hlist1 eq_refl Hfetch1 Hin1)
    as (l & Hl & Hm).
  destruct (fetchS3Buckets_snapshot knownRegion timestampNow a2 resolver2 (lastResult a2) h1
              buckets2 Hvalid1 sched2 h2 out2 e2 b Hlist2 eq_refl Hfetch2 Hin2)
    as (l2 & Hl2 & Hm2).
  destruct (expected_identity timestampNow a1 resolver1 (lastResult a1) h0 b)
    as (Hn & Ha & _).
  assert (Hsame : sameIdentity a2 b
                    (expected timestampNow a1 resolver1 (lastResult a1) h0 b) = true).
  { unfold sameIdentity. rewrite Hn, Ha, Hacc, !String.eqb_refl. reflexivity. }
  destruct (pickFirst_found h1 out1 (sameIdentity a2 b) l _ Hl Hm Hsame) as [l1 Hpick].
  destruct (pickFirst_Some _ _ _ _ Hpick) as (m1 & Hm1 & Hid & Hl1).
  unfold sameIdentity in Hid. apply andb_true_iff in Hid as [Hid1 Hid2].
  apply String.eqb_eq in Hid1, Hid2.
  exists l1, m1, l2, (expected timestampNow a2 resolver2 (lastResult a2) h1 b).
  split; [exact Hl1|]. split; [exact Hm1|].
  split; [eapply lookup_weaken; [exact Hm1 | exact Hsub2]|].
  split; [exact Hid1|]. split; [congruence|]. split; [exact Hl2|].
  split.
  { intros Hin. rewrite Forall_forall in Hnew1, Hnew2.
    destruct (Hnew2 l2 Hl2) as [Hnone _]. destruct (Hnew1 l2 Hin) as [_ [x Hx]].
    congruence. }
  split; [exact Hm2|].
  unfold Batch.expected, bucketSnapshot, freshSnapshot, fetched.
  rewrite Hres, Hlast, Hpick, Hm1. cbn. rewrite Hacc. repeat split.
Qed.

(** X11.  A cycle whose listing fails, for want of a client or with an
    error of [ListBuckets], reports through [collectErr] and not through its
    result: [pollAWSS3Buckets] returns nil, puts the previous result set in
    the result, hands one error to [collectErr], after those it was given
    before, and leaves the store as it was. *)
Theorem pollAWSS3Buckets_listing_failure (a : awsFetcher) (sched : list action)
    (result : Resources) (collected : list error) (h : store) (err : error) :
  GetAWSS3Client a (match Regions a with r :: _ => r | [] => knownRegion end) = inl err
  ∨ (∃ c, GetAWSS3Client a (match Regions a with r :: _ => r | [] => knownRegion end) = inr c
          ∧ ListBucketsWithContext c = inl err) →
  pollAWSS3Buckets knownRegion timestampNow a sched result collected h
  = Some (h, ({| S3Buckets := S3Buckets (lastResult a) |},
              collected ++ [Wrapped "failed to fetch s3 buckets" [] (Wrap (Wrap err))],
              None)).
Proof.
  intros Hfail.
  assert (Hlist : listS3Buckets knownRegion a = inl (Wrap err)).
  { unfold listS3Buckets. cbv zeta.
    destruct Hfail as [-> | (c & -> & ->)]; reflexivity. }
  unfold pollAWSS3Buckets.
  rewrite (bind_run _ _ _ _ _ (fetchS3Buckets_listing_failed knownRegion timestampNow a
                                 (Wrap err) sched h Hlist)).
  reflexivity.
Qed.

End Cycles.

Lemma awsACLsToProtoACLs_map_witness :
  S3Sync.awsACLsToProtoACLs [ownerGrant; readGrant]
  = [ {| Grantee := {| Id := "owner"; DisplayName := "media-team"; Type_ := "CanonicalUser";
                       Uri := EmptyString; EmailAddress := EmptyString |};
         Permission := "FULL_CONTROL" |};
      {| Grantee := {| Id := EmptyString; DisplayName := EmptyString; Type_ := "Group";
                       Uri := "http://acs.amazonaws.com/groups/global/AllUsers";
                       EmailAddress := EmptyString |};
         Permission := "READ" |} ].
Proof.
  rewrite (proj1 (awsACLsToProtoACLs_map [ownerGrant; readGrant])). reflexivity.
Defined.

Lemma awsS3Bucket_builds_witness :
  ∃ l m,
    S3Sync.awsS3Bucket sampleClock "media" None None
      (Some {| s3.Grants := [ownerGrant; readGrant] |}) None "111122223333" previousCycle
    = Some (<[l := m]> previousCycle, l)
    ∧ previousCycle !! l = None ∧ Name m = "media" ∧ length (Acls m) = 2%nat.
Proof.
  destruct (awsS3Bucket_builds sampleClock "media" None None
              (Some {| s3.Grants := [ownerGrant; readGrant] |}) None "111122223333"
              previousCycle)
    as (l & m & Hrun & Hfresh & Hname & _ & _ & _ & _ & Hacls & _).
  exists l, m. repeat split; assumption.
Defined.

Lemma getS3BucketDetails_flags_and_errors_witness :
  let '(_, flags, errs) :=
    S3Sync.getS3BucketDetails regionalFetcher {| s3.Name := Some "media" |} "us-east-1" in
  S3Sync.headFailed flags = true ∧ S3Sync.failedTags flags = true ∧ length errs = 1%nat.
Proof.
  pose proof (getS3BucketDetails_flags_and_errors regionalFetcher
                {| s3.Name := Some "media" |} "us-east-1") as H.
  destruct (S3Sync.getS3BucketDetails regionalFetcher {| s3.Name := Some "media" |} "us-east-1")
    as [[d flags] errs].
  destruct H as (_ & _ & Hhead & Hall).
  assert (Hh : S3Sync.headFailed flags = true)
    by (apply Hhead; exists (OtherErr "no credentials"); reflexivity).
  destruct (Hall Hh) as (_ & _ & _ & Ht & Hl).
  repeat split; assumption.
Defined.

Lemma bothSnapshots_valid :
  Forall (λ l, is_Some (bothSnapshots !! l)) [1%positive; 2%positive].
Proof. repeat constructor; eexists; reflexivity. Qed.

Lemma fetchS3Buckets_frame_witness :
  ∃ h' out e,
    S3Sync.fetchS3Buckets "us-east-1" sampleClock sampleFetcher sampleSched previousCycle
    = Some (h', (out, e))
    ∧ h' !! 1%positive = Some priorLogs ∧ NoDup out
    ∧ Forall (λ l, previousCycle !! l = None ∧ is_Some (h' !! l)) out.
Proof.
  eexists _, _, _. split; [vm_compute; reflexivity|].
  destruct (fetchS3Buckets_frame "us-east-1" sampleClock sampleFetcher
              (S3Sync.getBucketRegion sampleS3) (S3Sync.lastResult sampleFetcher)
              previousCycle sampleBuckets previousCycle_valid sampleSched _ _ _
              eq_refl eq_refl ltac:(vm_compute; reflexivity))
    as (Hframe & Hnd & Hnew).
  split; [apply Hframe; reflexivity|]. split; assumption.
Defined.

Lemma fetchS3Buckets_schedule_independent_witness :
  ∃ h1 out1 e1 h2 out2 e2,
    S3Sync.fetchS3Buckets "us-east-1" sampleClock sampleFetcher sampleSched previousCycle
    = Some (h1, (out1, e1))
    ∧ S3Sync.fetchS3Buckets "us-east-1" sampleClock sampleFetcher sequentialSched previousCycle
      = Some (h2, (out2, e2))
    ∧ (λ l, h1 !! l) <$> out1 ≡ₚ (λ l, h2 !! l) <$> out2
    ∧ (e1 = None ↔ e2 = None).
Proof.
  eexists _, _, _, _, _, _.
  split; [vm_compute; reflexivity|]. split; [vm_compute; reflexivity|].
  destruct (fetchS3Buckets_schedule_independent "us-east-1" sampleClock sampleFetcher
              (S3Sync.getBucketRegion sampleS3) (S3Sync.lastResult sampleFetcher)
              previousCycle sampleBuckets previousCycle_valid sampleSched sequentialSched
              _ _ _ _ _ _ eq_refl eq_refl
              ltac:(vm_compute; reflexivity) ltac:(vm_compute; reflexivity))
    as (Hs & He & _).
  split; assumption.
Defined.

Lemma fetchS3Buckets_nil_error_witness :
  ∃ h' out e,
    S3Sync.fetchS3Buckets "us-east-1" sampleClock sampleFetcher sampleSched previousCycle
    = Some (h', (out, e))
    ∧ (e = None ↔
       ∀ b, b ∈ sampleBuckets →
            ∃ region, S3Sync.getBucketRegion sampleS3 (s3.Name b) = (region, None)
                      ∧ (S3Sync.getS3BucketDetails sampleFetcher b region).2 = []).
Proof.
  eexists _, _, _. split; [vm_compute; reflexivity|].
  exact (fetchS3Buckets_nil_error "us-east-1" sampleClock sampleFetcher
           (S3Sync.getBucketRegion sampleS3) (S3Sync.lastResult sampleFetcher)
           previousCycle sampleBuckets previousCycle_valid sampleSched _ _ _
           eq_refl eq_refl ltac:(vm_compute; reflexivity)).
Defined.

Lemma fetchS3Buckets_reflects_listing_witness :
  ∃ h' out e,
    S3Sync.fetchS3Buckets "us-east-1" sampleClock sampleFetcher sampleSched previousCycle
    = Some (h', (out, e))
    ∧ length out = 2%nat
    ∧ Forall (λ l, ∃ b m, b ∈ sampleBuckets ∧ h' !! l = Some m
                          ∧ Name m = ToString (s3.Name b)
                          ∧ AccountId m = "111122223333"
                          ∧ LastSyncTime m = 200%Z) out.
Proof.
  eexists _, _, _. split; [vm_compute; reflexivity|].
  destruct (fetchS3Buckets_reflects_listing "us-east-1" sampleClock sampleFetcher
              (S3Sync.getBucketRegion sampleS3) (S3Sync.lastResult sampleFetcher)
              previousCycle sampleBuckets previousCycle_valid sampleSched _ _ _
              eq_refl eq_refl ltac:(vm_compute; reflexivity))
    as (Hlen & _ & Hall).
  split; [exact Hlen | exact Hall].
Defined.

Lemma detail_failure_restored_witness :
  ∃ h' out e,
    S3Sync.fetchS3Buckets "us-east-1" sampleClock (nextFetcher [1%positive; 2%positive])
      sampleSched bothSnapshots
    = Some (h', (out, e))
    ∧ ∃ l m, l ∈ out ∧ h' !! l = Some m ∧ Name m = "media"
             ∧ Acls m = Acls priorMedia ∧ Tags m = [] ∧ LastSyncTime m = 200%Z.
Proof.
  eexists _, _, _. split; [vm_compute; reflexivity|].
  destruct (detail_failure_restored "us-east-1" sampleClock
              (nextFetcher [1%positive; 2%positive]) (S3Sync.getBucketRegion sampleS3)
              (S3Sync.lastResult (nextFetcher [1%positive; 2%positive]))
              bothSnapshots sampleBuckets bothSnapshots_valid sampleSched _ _ _
              {| s3.Name := Some "media" |} "us-east-1" sampleS3
              eq_refl eq_refl ltac:(vm_compute; reflexivity)
              ltac:(right; left) eq_refl eq_refl)
    as (l & m & Hl & Hm & Hfields).
  exists l, m. split; [exact Hl|]. split; [exact Hm|].
  destruct Hfields as (prior & Hp & _ & _ & Ha & Ht & Hn & _ & Hs).
  vm_compute in Hp. injection Hp as <-.
  repeat split; assumption.
Defined.

Lemma client_failure_keeps_bucket_witness :
  ∃ h' out e,
    S3Sync.fetchS3Buckets "us-east-1" sampleClock regionalFetcher sampleSched bothSnapshots
    = Some (h', (out, e))
    ∧ is_Some e
    ∧ ∃ l m, l ∈ out ∧ h' !! l = Some m ∧ Name m = "media" ∧ Acls m = Acls priorMedia.
Proof.
  eexists _, _, _. split; [vm_compute; reflexivity|].
  destruct (client_failure_keeps_bucket "us-east-1" sampleClock regionalFetcher
              (S3Sync.getBucketRegion sampleS3) (S3Sync.lastResult regionalFetcher)
              bothSnapshots sampleBuckets bothSnapshots_valid sampleSched _ _ _
              {| s3.Name := Some "media" |} "us-east-1" (OtherErr "no credentials")
              eq_refl eq_refl ltac:(vm_compute; reflexivity)
              ltac:(right; left) eq_refl eq_refl)
    as (He & l & m & Hl & Hm & Hn & _ & Hfields).
  split; [exact He|]. exists l, m. split; [exact Hl|]. split; [exact Hm|].
  split; [exact Hn|].
  destruct Hfields as (prior & Hp & _ & _ & Ha & _).
  vm_compute in Hp. injection Hp as <-. exact Ha.
Defined.

Lemma region_failure_after_a_cycle_witness :
  ∃ h1 out1 e1 h2 out2 e2,
    S3Sync.fetchS3Buckets "us-east-1" sampleClock sampleFetcher sampleSched previousCycle
    = Some (h1, (out1, e1))
    ∧ S3Sync.fetchS3Buckets "us-east-1" sampleClock (nextFetcher out1) sequentialSched h1
      = Some (h2, (out2, e2))
    ∧ ∃ l1 m1 l2 m2,
        l1 ∈ out1 ∧ h2 !! l1 = Some m1 ∧ l2 ∈ out2 ∧ (l2 ∉ out1) ∧ h2 !! l2 = Some m2
        ∧ Name m2 = "logs" ∧ Tags m2 = Tags m1.
Proof.
  eexists _, _, _, _, _, _.
  split; [vm_compute; reflexivity|]. split; [vm_compute; reflexivity|].
  destruct (region_failure_after_a_cycle "us-east-1" sampleClock sampleFetcher
              (nextFetcher _) sampleBuckets sampleBuckets
              (S3Sync.getBucketRegion sampleS3) (S3Sync.getBucketRegion sampleS3)
              sampleSched sequentialSched previousCycle _ _ _ _ _ _
              {| s3.Name := Some "logs" |} EmptyString
              (Wrapped "failed to fetch bucket %q region" ["logs"] (OtherErr "request timed out"))
              previousCycle_valid eq_refl ltac:(vm_compute; reflexivity) eq_refl eq_refl
              eq_refl ltac:(vm_compute; reflexivity) ltac:(left) ltac:(left) eq_refl)
    as (l1 & m1 & l2 & m2 & H1 & _ & H2 & _ & _ & H3 & H4 & H5 & H6 & _ & _ & _ & _ & H7).
  exists l1, m1, l2, m2. repeat split; assumption.
Defined.

Lemma pollAWSS3Buckets_listing_failure_witness :
  S3Sync.pollAWSS3Buckets "us-east-1" sampleClock noClientFetcher sampleSched
    {| S3Sync.S3Buckets := [] |} [OtherErr "earlier"] previousCycle
  = Some (previousCycle,
          ({| S3Sync.S3Buckets := [1%positive] |},
           [OtherErr "earlier";
            Wrapped "failed to fetch s3 buckets" [] (Wrap (Wrap (OtherErr "no credentials")))],
           None)).
Proof.
  exact (pollAWSS3Buckets_listing_failure "us-east-1" sampleClock noClientFetcher sampleSched
           {| S3Sync.S3Buckets := [] |} [OtherErr "earlier"] previousCycle
           (OtherErr "no credentials") (or_introl eq_refl)).
Defined.

(** ** The paginated collectors, once more *)

Section PaginationMore.
Import redshiftserverless RedshiftServerless.

Context {A : Type}.
Variable maxAWSPages : nat.
Variable pages : nat → pageResult A.

Local Abbreviation keep :=
  (λ (page : list A) (lastPage : bool) (acc : list (list A)),
     (acc ++ [page], bool_decide (length (acc ++ [page]) ≤ maxAWSPages)%nat)).

(** More requests than needed change nothing, for every callback. *)
Lemma PagesWithContext_more {St : Type} (fn : list A → bool → St → St * bool) (fuel : nat) :
  ∀ i st r,
    PagesWithContext fuel pages i fn st = Some r →
    PagesWithContext (S fuel) pages i fn st = Some r.
Proof.
  induction fuel as [|fuel IH]; intros i st r; [discriminate|].
  intros Hrun. cbn [PagesWithContext] in Hrun |- *.
  destruct (pages i) as [items more|err]; [|exact Hrun].
  destruct (fn items (negb more) st) as [st' continue].
  destruct (continue && more); [|exact Hrun].
  apply IH in Hrun. exact Hrun.
Qed.

Lemma PagesWithContext_mono {St : Type} (fn : list A → bool → St → St * bool)
    (fuel fuel' : nat) (i : nat) (st : St) (r : St * option error) :
  (fuel ≤ fuel')%nat →
  PagesWithContext fuel pages i fn st = Some r →
  PagesWithContext fuel' pages i fn st = Some r.
Proof.
  induction 1 as [|fuel' _ IH]; [trivial|].
  intros Hrun. apply PagesWithContext_more, IH, Hrun.
Qed.

(** The collector on a listing of [n] pages that fits under the cap: all
    pages, in order, and no error. *)
Lemma collect_complete (items : nat → list A) (n : nat) :
  ∀ fuel i acc,
    (0 < n)%nat → (n ≤ fuel)%nat → (length acc + n ≤ S maxAWSPages)%nat →
    (∀ k, (k < n)%nat → pages (i + k) = Page (items (i + k)) (bool_decide (S k < n)%nat)) →
    PagesWithContext fuel pages i keep acc = Some (acc ++ (items <$> seq i n), None).
Proof.
  induction n as [|n IH]; intros fuel i acc Hpos Hfuel Hcap Hpages; [lia|].
  destruct fuel as [|fuel]; [lia|]. cbn [PagesWithContext].
  pose proof (Hpages 0%nat (Nat.lt_0_succ _)) as H0. rewrite Nat.add_0_r in H0. rewrite H0.
  cbn beta iota. destruct n as [|n].
  - rewrite (bool_decide_false (1 < 1)%nat) by lia. rewrite andb_false_r. reflexivity.
  - rewrite (bool_decide_true (1 < S (S n))%nat) by lia.
    rewrite bool_decide_true by (rewrite length_app; cbn; lia). cbn [andb].
    rewrite (IH fuel (S i) (acc ++ [items i])).
    + cbn [seq fmap list_fmap]. rewrite <- app_assoc. reflexivity.
    + lia.
    + lia.
    + rewrite length_app. cbn. lia.
    + intros k Hk. assert (Hk' : (S k < S (S n))%nat) by lia.
      specialize (Hpages (S k) Hk').
      replace (S i + k)%nat with (i + S k)%nat by lia. rewrite Hpages.
      f_equal. apply bool_decide_ext. lia.
Qed.

(** The collector on a listing whose page [k], under the cap, fails: the
    pages before, and the error. *)
Lemma collect_error (items : nat → list A) (err : error) (k : nat) :
  ∀ fuel i acc,
    (k < fuel)%nat → (length acc + k ≤ maxAWSPages)%nat →
    (∀ j, (j < k)%nat → pages (i + j) = Page (items (i + j)) true) →
    pages (i + k) = PageError err →
    PagesWithContext fuel pages i keep acc = Some (acc ++ (items <$> seq i k), Some err).
Proof.
  induction k as [|k IH]; intros fuel i acc Hfuel Hcap Hpages Herr;
    (destruct fuel as [|fuel]; [lia|]); cbn [PagesWithContext].
  - rewrite Nat.add_0_r in Herr. rewrite Herr. cbn. rewrite app_nil_r. reflexivity.
  - pose proof (Hpages 0%nat (Nat.lt_0_succ _)) as H0. rewrite Nat.add_0_r in H0. rewrite H0.
    cbn beta iota. rewrite bool_decide_true by (rewrite length_app; cbn; lia).
    cbn [andb]. rewrite (IH fuel (S i) (acc ++ [items i])).
    + cbn [seq fmap list_fmap]. rewrite <- app_assoc. reflexivity.
    + lia.
    + rewrite length_app. cbn. lia.
    + intros j Hj. replace (S i + j)%nat with (i + S j)%nat by lia. apply Hpages. lia.
    + replace (S i + k)%nat with (i + S k)%nat by lia. exact Herr.
Qed.

End PaginationMore.

(** ** The Redshift Serverless plugin, once more *)

Section PluginMore.
Import redshiftserverless RedshiftServerless.

Variable Database : Type.
Variable maxAWSPages : nat.
Variable IsResourceAvailable : option string → bool.
Variable ConvertRequestFailureError : error → error.
Variable IsAccessDenied : error → bool.
Variable NewDatabaseFromRedshiftServerlessWorkgroup :
  Workgroup → list Tag → error + Database.
Variable NewDatabaseFromRedshiftServerlessVPCEndpoint :
  EndpointAccess → Workgroup → list Tag → error + Database.

Local Abbreviation getRSSWorkgroups :=
  (getRSSWorkgroups maxAWSPages ConvertRequestFailureError).
Local Abbreviation getRSSVPCEndpoints :=
  (getRSSVPCEndpoints maxAWSPages ConvertRequestFailureError).
Local Abbreviation getRSSResourceTags := (getRSSResourceTags IsAccessDenied).
Local Abbreviation getDatabasesFromWorkgroups :=
  (getDatabasesFromWorkgroups Database maxAWSPages IsResourceAvailable
     ConvertRequestFailureError IsAccessDenied NewDatabaseFromRedshiftServerlessWorkgroup).
Local Abbreviation endpointDatabase :=
  (endpointDatabase Database IsResourceAvailable NewDatabaseFromRedshiftServerlessVPCEndpoint).
Local Abbreviation endpointRecord :=
  (endpointRecord Database IsResourceAvailable NewDatabaseFromRedshiftServerlessVPCEndpoint).
Local Abbreviation getDatabasesFromVPCEndpoints :=
  (getDatabasesFromVPCEndpoints Database maxAWSPages IsResourceAvailable
     ConvertRequestFailureError NewDatabaseFromRedshiftServerlessVPCEndpoint).
Local Abbreviation GetDatabases :=
  (GetDatabases Database maxAWSPages IsResourceAvailable ConvertRequestFailureError
     IsAccessDenied NewDatabaseFromRedshiftServerlessWorkgroup
     NewDatabaseFromRedshiftServerlessVPCEndpoint).

(** X12.  A listing that ends within the cap is collected whole: when the
    provider has [n] pages, at most [maxAWSPages + 1], each collector
    returns all their items in the order of the pages, and no error. *)
Theorem collectors_complete_listing (fuel : nat) (client : rssAPI) (n : nat)
    (workgroupPages : nat → list Workgroup) (endpointPages : nat → list EndpointAccess) :
  (0 < n)%nat → (n ≤ fuel)%nat → (n ≤ S maxAWSPages)%nat →
  ((∀ k, (k < n)%nat →
         ListWorkgroupsPages client k = Page (workgroupPages k) (bool_decide (S k < n)%nat)) →
   getRSSWorkgroups fuel client = Some (concat (workgroupPages <$> seq 0 n), None))
  ∧ ((∀ k, (k < n)%nat →
           ListEndpointAccessPages client k
           = Page (endpointPages k) (bool_decide (S k < n)%nat)) →
     getRSSVPCEndpoints fuel client = Some (concat (endpointPages <$> seq 0 n), None)).
Proof.
  intros Hpos Hfuel Hcap. split; intros Hpages.
  - unfold RedshiftServerless.getRSSWorkgroups. cbv zeta.
    rewrite (collect_complete maxAWSPages (ListWorkgroupsPages client) workgroupPages n
               fuel 0 [] Hpos Hfuel Hcap Hpages). reflexivity.
  - unfold RedshiftServerless.getRSSVPCEndpoints. cbv zeta.
    rewrite (collect_complete maxAWSPages (ListEndpointAccessPages client) endpointPages n
               fuel 0 [] Hpos Hfuel Hcap Hpages). reflexivity.
Qed.

(** X13.  An error of the provider on a page within the cap stops the
    collector, which returns the converted error; [GetDatabases] then
    returns that error, wrapped, and none of the workgroups of the pages
    before it. *)
Theorem workgroup_page_error (fuel : nat) (cfg : awsFetcherConfig) (client : rssAPI)
    (log : list logRecord) (k : nat) (workgroupPages : nat → list Workgroup) (err : error) :
  GetAWSRedshiftServerlessClient cfg = inr client →
  (k < fuel)%nat → (k ≤ maxAWSPages)%nat →
  (∀ j, (j < k)%nat → ListWorkgroupsPages client j = Page (workgroupPages j) true) →
  ListWorkgroupsPages client k = PageError err →
  getRSSWorkgroups fuel client
  = Some (concat (workgroupPages <$> seq 0 k), Some (ConvertRequestFailureError err))
  ∧ GetDatabases fuel cfg log
    = Some ([], Some (Wrap (Wrap (ConvertRequestFailureError err))), log).
Proof.
  intros Hclient Hfuel Hcap Hpages Herr.
  assert (Hw : getRSSWorkgroups fuel client
               = Some (concat (workgroupPages <$> seq 0 k),
                       Some (ConvertRequestFailureError err))).
  { unfold RedshiftServerless.getRSSWorkgroups. cbv zeta.
    rewrite (collect_error maxAWSPages (ListWorkgroupsPages client) workgroupPages err k
               fuel 0 [] Hfuel Hcap Hpages Herr). reflexivity. }
  split; [exact Hw|].
  unfold RedshiftServerless.GetDatabases. rewrite Hclient.
  unfold RedshiftServerless.getDatabasesFromWorkgroups. rewrite Hw. reflexivity.
Qed.

(** X14.  For every provider, both collectors return once more requests are
    allowed than the cap leaves room for: what they return are the items of
    the first pages of the provider, in order, from at most
    [maxAWSPages + 1] pages. *)
Theorem collectors_bounded (fuel : nat) (client : rssAPI) :
  (maxAWSPages < fuel)%nat →
  (∃ pages err,
     getRSSWorkgroups fuel client = Some (concat pages, err)
     ∧ (length pages ≤ S maxAWSPages)%nat
     ∧ ∀ k page, pages !! k = Some page →
                 ∃ more, ListWorkgroupsPages client k = Page page more)
  ∧ (∃ pages err,
       getRSSVPCEndpoints fuel client = Some (concat pages, err)
       ∧ (length pages ≤ S maxAWSPages)%nat
       ∧ ∀ k page, pages !! k = Some page →
                   ∃ more, ListEndpointAccessPages client k = Page page more).
Proof.
  intros Hfuel. split.
  - destruct (collect_terminates maxAWSPages (ListWorkgroupsPages client) fuel 0 [])
      as (got & err & Hrun & Hlen & Hgot); [lia | cbn; lia |].
    exists got, (ConvertRequestFailureError <$> err).
    unfold RedshiftServerless.getRSSWorkgroups. cbv zeta. rewrite Hrun.
    cbn in Hlen. rewrite Nat.max_0_r in Hlen. repeat split; assumption.
  - destruct (collect_terminates maxAWSPages (ListEndpointAccessPages client) fuel 0 [])
      as (got & err & Hrun & Hlen & Hgot); [lia | cbn; lia |].
    exists got, (ConvertRequestFailureError <$> err).
    unfold RedshiftServerless.getRSSVPCEndpoints. cbv zeta. rewrite Hrun.
    cbn in Hlen. rewrite Nat.max_0_r in Hlen. repeat split; assumption.
Qed.

Lemma collect_fuel {A : Type} (pages : nat → pageResult A) (fuel fuel' : nat) :
  (maxAWSPages < fuel)%nat → (maxAWSPages < fuel')%nat →
  PagesWithContext fuel pages 0
    (λ (page : list A) (lastPage : bool) (acc : list (list A)),
       (acc ++ [page], bool_decide (length (acc ++ [page]) ≤ maxAWSPages)%nat)) []
  = PagesWithContext fuel' pages 0
      (λ (page : list A) (lastPage : bool) (acc : list (list A)),
         (acc ++ [page], bool_decide (length (acc ++ [page]) ≤ maxAWSPages)%nat)) [].
Proof.
  intros Hf Hf'.
  destruct (collect_terminates maxAWSPages pages fuel 0 [])
    as (got & err & Hrun & _); [lia | cbn; lia |].
  destruct (collect_terminates maxAWSPages pages fuel' 0 [])
    as (got' & err' & Hrun' & _); [lia | cbn; lia |].
  pose proof (PagesWithContext_mono pages _ fuel (fuel `max` fuel') 0 [] _
                (Nat.le_max_l _ _) Hrun) as H1.
  pose proof (PagesWithContext_mono pages _ fuel' (fuel `max` fuel') 0 [] _
                (Nat.le_max_r _ _) Hrun') as H2.
  congruence.
Qed.

(** X15.  [GetDatabases] returns for every provider, also one whose
    listings never end, as soon as more page requests are allowed than the
    cap leaves room for, and what it returns does not depend on how many
    more. *)
Theorem GetDatabases_returns (fuel fuel' : nat) (cfg : awsFetcherConfig)
    (log : list logRecord) :
  (maxAWSPages < fuel)%nat → (maxAWSPages < fuel')%nat →
  is_Some (GetDatabases fuel cfg log)
  ∧ GetDatabases fuel' cfg log = GetDatabases fuel cfg log.
Proof.
  intros Hf Hf'.
  assert (Hw : ∀ client, getRSSWorkgroups fuel' client = getRSSWorkgroups fuel client).
  { intros client. unfold RedshiftServerless.getRSSWorkgroups. cbv zeta.
    rewrite (collect_fuel (ListWorkgroupsPages client) fuel' fuel Hf' Hf). reflexivity. }
  assert (He : ∀ client, getRSSVPCEndpoints fuel' client = getRSSVPCEndpoints fuel client).
  { intros client. unfold RedshiftServerless.getRSSVPCEndpoints. cbv zeta.
    rewrite (collect_fuel (ListEndpointAccessPages client) fuel' fuel Hf' Hf). reflexivity. }
  split.
  - unfold RedshiftServerless.GetDatabases.
    destruct (GetAWSRedshiftServerlessClient cfg) as [err|client]; [eauto|].
    unfold RedshiftServerless.getDatabasesFromWorkgroups.
    destruct (collectors_terminate maxAWSPages ConvertRequestFailureError fuel client Hf)
      as [[[ws [e|]] ->] [[es ee] Hes]]; [eauto|].
    destruct (foldl _ _ ws) as [[dbs wgs] log1].
    case_bool_decide; [|eauto].
    unfold RedshiftServerless.getDatabasesFromVPCEndpoints. rewrite Hes.
    destruct ee; [eauto|]. destruct (foldl _ _ es). eauto.
  - unfold RedshiftServerless.GetDatabases, RedshiftServerless.getDatabasesFromWorkgroups,
      RedshiftServerless.getDatabasesFromVPCEndpoints.
    destruct (GetAWSRedshiftServerlessClient cfg) as [err|client]; [reflexivity|].
    rewrite Hw, He. reflexivity.
Qed.

(** The loop of [getDatabasesFromWorkgroups] over the workgroups listed:
    what it returns, for the workgroups [ws] of the listing. *)
Lemma getDatabasesFromWorkgroups_loop (fuel : nat) (client : rssAPI) (log : list logRecord)
    (ws : list Workgroup) :
  getRSSWorkgroups fuel client = Some (ws, None) →
  ∃ dbs wgs logged,
    getDatabasesFromWorkgroups fuel client log = Some (dbs, wgs, None, log ++ logged)
    ∧ Forall2 (λ db wg,
                 NewDatabaseFromRedshiftServerlessWorkgroup (Workgroup_ wg) (Tags wg) = inr db)
        dbs wgs
    ∧ Forall (λ wg,
                IsResourceAvailable (Status (Workgroup_ wg)) = true
                ∧ Tags wg = (getRSSResourceTags (WorkgroupArn (Workgroup_ wg)) client).1) wgs
    ∧ (Workgroup_ <$> wgs) `sublist_of` ws
    ∧ ∀ w, w ∈ ws → IsResourceAvailable (Status w) = true →
           (∀ r, r ∈ (getRSSResourceTags (WorkgroupArn w) client).2 → r ∈ logged)
           ∧ ∀ db,
               NewDatabaseFromRedshiftServerlessWorkgroup w
                 (getRSSResourceTags (WorkgroupArn w) client).1 = inr db →
               db ∈ dbs
               ∧ {| Workgroup_ := w; Tags := (getRSSResourceTags (WorkgroupArn w) client).1 |}
                 ∈ wgs.
Proof.
  intros Hlist. unfold RedshiftServerless.getDatabasesFromWorkgroups. rewrite Hlist.
  match goal with |- context [foldl ?f _ _] => set (body := f) end.
  clear Hlist. induction ws as [|w ws IH] using rev_ind.
  - exists [], [], []. cbn [foldl]. rewrite app_nil_r.
    split; [reflexivity|]. split; [constructor|]. split; [constructor|].
    split; [constructor|]. intros w0 Hw0. inversion Hw0.
  - destruct IH as (dbs & wgs & logged & Hrun & H2 & Hav & Hsub & Hall).
    rewrite foldl_app. cbn [foldl].
    destruct (foldl body ([], [], log) ws) as [[dbs0 wgs0] lg0].
    injection Hrun as -> -> ->.
    assert (Hold : ∀ dbs' wgs' logged',
               dbs `prefix_of` dbs' → wgs `prefix_of` wgs' → logged `prefix_of` logged' →
               ∀ w', w' ∈ ws → IsResourceAvailable (Status w') = true →
                 (∀ r, r ∈ (getRSSResourceTags (WorkgroupArn w') client).2 → r ∈ logged')
                 ∧ ∀ db,
                     NewDatabaseFromRedshiftServerlessWorkgroup w'
                       (getRSSResourceTags (WorkgroupArn w') client).1 = inr db →
                     db ∈ dbs'
                     ∧ {| Workgroup_ := w';
                          Tags := (getRSSResourceTags (WorkgroupArn w') client).1 |} ∈ wgs').
    { intros dbs' wgs' logged' [d ->] [g ->] [l ->] w' Hw' Ha'.
      destruct (Hall w' Hw' Ha') as [Hr Hd]. split.
      - intros r Hin. apply elem_of_app. left. apply Hr, Hin.
      - intros db Hdb. destruct (Hd db Hdb). split; apply elem_of_app; left; assumption. }
    unfold body at 1. cbn beta iota.
    destruct (IsResourceAvailable (Status w)) eqn:Hw; cbn [negb].
    + destruct (getRSSResourceTags (WorkgroupArn w) client) as [tags lg] eqn:Htags.
      destruct (NewDatabaseFromRedshiftServerlessWorkgroup w tags) as [err|db] eqn:Hconv.
      * eexists dbs, wgs, (logged ++ lg ++ [_]).
        split; [rewrite <- !app_assoc; reflexivity|].
        split; [exact H2|]. split; [exact Hav|].
        split; [apply sublist_inserts_r, Hsub|].
        intros w' Hw' Ha'. apply elem_of_app in Hw' as [Hw'|Hw'].
        -- apply (Hold dbs wgs _); try reflexivity; try assumption.
           apply prefix_app_r. reflexivity.
        -- apply list_elem_of_singleton in Hw' as ->. rewrite Htags. cbn [fst snd]. split.
           ++ intros r Hr. apply elem_of_app. right. apply elem_of_app. left. exact Hr.
           ++ intros db Hdb. congruence.
      * exists (dbs ++ [db]), (wgs ++ [ {| Workgroup_ := w; Tags := tags |} ]), (logged ++ lg).
        split; [rewrite <- !app_assoc; reflexivity|].
        split; [apply Forall2_app; [exact H2 | repeat constructor; exact Hconv]|].
        split.
        { apply Forall_app. split; [exact Hav|]. repeat constructor; cbn.
          - exact Hw.
          - rewrite Htags. reflexivity. }
        split; [rewrite fmap_app; apply sublist_app; [exact Hsub | reflexivity]|].
        intros w' Hw' Ha'. apply elem_of_app in Hw' as [Hw'|Hw'].
        -- apply (Hold _ _ _); try assumption; apply prefix_app_r; reflexivity.
        -- apply list_elem_of_singleton in Hw' as ->. rewrite Htags. cbn [fst snd]. split.
           ++ intros r Hr. apply elem_of_app. right. exact Hr.
           ++ intros db' Hdb. rewrite Hconv in Hdb. injection Hdb as <-.
              split; apply elem_of_app; right; left.
    + eexists dbs, wgs, (logged ++ [_]).
      split; [rewrite <- !app_assoc; reflexivity|].
      split; [exact H2|]. split; [exact Hav|].
      split; [apply sublist_inserts_r, Hsub|].
      intros w' Hw' Ha'. apply elem_of_app in Hw' as [Hw'|Hw'].
      * apply (Hold dbs wgs _); try reflexivity; try assumption.
        apply prefix_app_r. reflexivity.
      * apply list_elem_of_singleton in Hw' as ->. congruence.
Qed.

(** X16.  After a listing of the workgroups without error, the databases
    and the workgroups with tags that [getDatabasesFromWorkgroups] returns
    go in pairs: the nth database is the conversion of the nth workgroup
    with the tags kept for it.  Every workgroup kept is available, has the
    tags [getRSSResourceTags] gave for its ARN, and the workgroups kept are,
    in the order of the listing, some of the workgroups listed; an available
    workgroup whose conversion succeeds is among them.  The log is only
    appended to. *)
Theorem workgroups_and_databases_paired (fuel : nat) (client : rssAPI)
    (log : list logRecord) (ws : list Workgroup) :
  getRSSWorkgroups fuel client = Some (ws, None) →
  ∃ dbs wgs logged,
    getDatabasesFromWorkgroups fuel client log = Some (dbs, wgs, None, log ++ logged)
    ∧ Forall2 (λ db wg,
                 NewDatabaseFromRedshiftServerlessWorkgroup (Workgroup_ wg) (Tags wg) = inr db)
        dbs wgs
    ∧ Forall (λ wg,
                IsResourceAvailable (Status (Workgroup_ wg)) = true
                ∧ Tags wg = (getRSSResourceTags (WorkgroupArn (Workgroup_ wg)) client).1) wgs
    ∧ (Workgroup_ <$> wgs) `sublist_of` ws
    ∧ ∀ w db, w ∈ ws → IsResourceAvailable (Status w) = true →
              NewDatabaseFromRedshiftServerlessWorkgroup w
                (getRSSResourceTags (WorkgroupArn w) client).1 = inr db →
              db ∈ dbs.
Proof.
  intros Hlist.
  destruct (getDatabasesFromWorkgroups_loop fuel client log ws Hlist)
    as (dbs & wgs & logged & Hrun & H2 & Hav & Hsub & Hall).
  exists dbs, wgs, logged. repeat split; try assumption.
  intros w db Hw Ha Hdb. destruct (Hall w Hw Ha) as [_ Hd]. apply (Hd db Hdb).
Qed.

(** X17.  A failure to list the tags of a workgroup does not lose the
    workgroup: it is logged, at debug level for access denied and as a
    warning otherwise, the workgroup is converted with no tags, and when
    that conversion succeeds its database is returned and the workgroup is
    kept, with no tags, for its endpoints. *)
Theorem tag_failure_keeps_workgroup (fuel : nat) (client : rssAPI) (log : list logRecord)
    (ws : list Workgroup) (w : Workgroup) (err : error) (db : Database) :
  getRSSWorkgroups fuel client = Some (ws, None) →
  w ∈ ws → IsResourceAvailable (Status w) = true →
  ListTagsForResourceWithContext client (WorkgroupArn w) = inl err →
  NewDatabaseFromRedshiftServerlessWorkgroup w [] = inr db →
  ∃ dbs wgs logged,
    getDatabasesFromWorkgroups fuel client log = Some (dbs, wgs, None, log ++ logged)
    ∧ db ∈ dbs
    ∧ {| Workgroup_ := w; Tags := [] |} ∈ wgs
    ∧ {| Level := if IsAccessDenied err then LevelDebug else LevelWarn;
         Message := if IsAccessDenied err
                    then "No Permission to get Redshift Serverless tags"
                    else "Failed to get Redshift Serverless tags";
         Attrs := [String_ "arn" (StringValue (WorkgroupArn w)); Error_ "error" err] |}
      ∈ logged.
Proof.
  intros Hlist Hw Ha Htags Hconv.
  destruct (getDatabasesFromWorkgroups_loop fuel client log ws Hlist)
    as (dbs & wgs & logged & Hrun & _ & _ & _ & Hall).
  exists dbs, wgs, logged. split; [exact Hrun|].
  destruct (Hall w Hw Ha) as [Hr Hd].
  unfold RedshiftServerless.getRSSResourceTags in Hr, Hd. rewrite Htags in Hr, Hd.
  destruct (IsAccessDenied err); cbn [fst snd] in Hr, Hd;
    (destruct (Hd db Hconv) as [H1 H2]; repeat split; [exact H1 | exact H2 |]);
    apply Hr; left.
Qed.

(** X18.  [GetDatabases] returns an error in two cases only, no client or a
    failed listing of the workgroups, and then it returns no database and
    has logged nothing. *)
Theorem GetDatabases_error (fuel : nat) (cfg : awsFetcherConfig) (log log' : list logRecord)
    (dbs : list Database) (e : error) :
  GetDatabases fuel cfg log = Some (dbs, Some e, log') →
  dbs = [] ∧ log' = log
  ∧ ((∃ err, GetAWSRedshiftServerlessClient cfg = inl err ∧ e = Wrap err)
     ∨ (∃ client ws err,
          GetAWSRedshiftServerlessClient cfg = inr client
          ∧ getRSSWorkgroups fuel client = Some (ws, Some err)
          ∧ e = Wrap (Wrap err))).
Proof.
  unfold RedshiftServerless.GetDatabases.
  destruct (GetAWSRedshiftServerlessClient cfg) as [err|client] eqn:Hc.
  - intros [= <- <- <-]. repeat split. left. eauto.
  - unfold RedshiftServerless.getDatabasesFromWorkgroups.
    destruct (getRSSWorkgroups fuel client) as [[ws [err|]]|] eqn:Hw; [| |discriminate].
    + intros [= <- <- <-]. repeat split. right. exists client, ws, err. eauto.
    + destruct (foldl _ _ ws) as [[d wgs] lg].
      case_bool_decide; [|discriminate].
      destruct (getDatabasesFromVPCEndpoints fuel wgs client lg) as [[[? ?] ?]|];
        discriminate.
Qed.

(** X19.  When no listed workgroup is kept, the endpoints are not listed at
    all: [GetDatabases] returns no database and no error, whatever the
    listing of the endpoints of the provider would give. *)
Theorem no_workgroup_no_endpoint_listing (fuel : nat) (client : rssAPI)
    (log log1 : list logRecord) (dbs : list Database)
    (endpointPages : nat → pageResult EndpointAccess) :
  getDatabasesFromWorkgroups fuel client log = Some (dbs, [], None, log1) →
  GetDatabases fuel
    {| GetAWSRedshiftServerlessClient :=
         inr {| ListWorkgroupsPages := ListWorkgroupsPages client;
                ListEndpointAccessPages := endpointPages;
                ListTagsForResourceWithContext := ListTagsForResourceWithContext client |} |}
    log
  = Some ([], None, log1).
Proof.
  intros Hw.
  assert (Hdbs : dbs = []).
  { unfold RedshiftServerless.getDatabasesFromWorkgroups in Hw.
    destruct (getRSSWorkgroups fuel client) as [[ws [err|]]|] eqn:Hlist; try discriminate.
    destruct (getDatabasesFromWorkgroups_loop fuel client log ws Hlist)
      as (dbs' & wgs' & logged & Hrun & H2 & _).
    unfold RedshiftServerless.getDatabasesFromWorkgroups in Hrun. rewrite Hlist in Hrun.
    rewrite Hrun in Hw. injection Hw as <- -> _.
    apply Forall2_nil_inv_r in H2. exact H2. }
  subst dbs. unfold RedshiftServerless.GetDatabases.
  cbn [GetAWSRedshiftServerlessClient].
  change (getDatabasesFromWorkgroups fuel
            {| ListWorkgroupsPages := ListWorkgroupsPages client;
               ListEndpointAccessPages := endpointPages;
               ListTagsForResourceWithContext := ListTagsForResourceWithContext client |} log)
    with (getDatabasesFromWorkgroups fuel client log).
  rewrite Hw. reflexivity.
Qed.

(** X20.  After both listings succeeded, [GetDatabases] returns the
    databases of the workgroups followed by those of the endpoints, and no
    error.  There is at most one database per endpoint, and a database is
    among those of the endpoints exactly when it is the conversion of a
    listed endpoint whose status counts as available, with the first kept
    workgroup of the name it refers to and the tags of that workgroup. *)
Theorem GetDatabases_composition (fuel : nat) (cfg : awsFetcherConfig) (client : rssAPI)
    (log log1 : list logRecord) (wdbs : list Database) (wgs : list workgroupWithTags)
    (endpoints : list EndpointAccess) :
  GetAWSRedshiftServerlessClient cfg = inr client →
  getDatabasesFromWorkgroups fuel client log = Some (wdbs, wgs, None, log1) →
  wgs ≠ [] →
  getRSSVPCEndpoints fuel client = Some (endpoints, None) →
  ∃ edbs logged,
    GetDatabases fuel cfg log = Some (wdbs ++ edbs, None, log1 ++ logged)
    ∧ (length edbs ≤ length endpoints)%nat
    ∧ ∀ db, db ∈ edbs ↔
            ∃ endpoint w,
              endpoint ∈ endpoints
              ∧ findWorkgroupWithName wgs (StringValue (WorkgroupName_ endpoint)) = Some w
              ∧ IsResourceAvailable (EndpointStatus endpoint) = true
              ∧ NewDatabaseFromRedshiftServerlessVPCEndpoint endpoint
                  (Workgroup_ w) (Tags w) = inr db.
Proof.
  intros Hclient Hw Hne He.
  destruct (endpoints_loop Database IsResourceAvailable
              NewDatabaseFromRedshiftServerlessVPCEndpoint wgs endpoints [] log1)
    as [logged Hloop].
  exists (omap (endpointRecord wgs) endpoints), logged. split; [|split].
  - unfold RedshiftServerless.GetDatabases. rewrite Hclient, Hw.
    rewrite bool_decide_true by (destruct wgs; [congruence | cbn; lia]).
    unfold RedshiftServerless.getDatabasesFromVPCEndpoints. rewrite He, Hloop.
    reflexivity.
  - clear. induction endpoints as [|endpoint endpoints IH]; [reflexivity|].
    cbn [omap list_omap]. destruct (endpointRecord wgs endpoint); cbn [length]; lia.
  - intros db. rewrite list_elem_of_omap. split.
    + intros (endpoint & Hin & Hrec). unfold RedshiftServerless.endpointRecord in Hrec.
      destruct (findWorkgroupWithName wgs _) as [w|] eqn:Hf; [|discriminate].
      destruct (IsResourceAvailable _) eqn:Ha; [|discriminate].
      destruct (NewDatabaseFromRedshiftServerlessVPCEndpoint _ _ _) as [?|db'] eqn:Hc;
        [discriminate|].
      injection Hrec as <-. exists endpoint, w. repeat split; assumption.
    + intros (endpoint & w & Hin & Hf & Ha & Hc). exists endpoint. split; [exact Hin|].
      unfold RedshiftServerless.endpointRecord. rewrite Hf, Ha, Hc. reflexivity.
Qed.

End PluginMore.

Section Find.
Import redshiftserverless RedshiftServerless.

(** X21.  [findWorkgroupWithName] returns the first workgroup of the list
    with the name asked for, where a missing name counts as the empty name,
    and nothing exactly when no workgroup of the list has it. *)
Theorem findWorkgroupWithName_first (workgroups : list workgroupWithTags) (name : string) :
  (∀ w, findWorkgroupWithName workgroups name = Some w ↔
        ∃ before after,
          workgroups = before ++ w :: after
          ∧ StringValue (WorkgroupName (Workgroup_ w)) = name
          ∧ Forall (λ w', StringValue (WorkgroupName (Workgroup_ w')) ≠ name) before)
  ∧ (findWorkgroupWithName workgroups name = None ↔
     Forall (λ w', StringValue (WorkgroupName (Workgroup_ w')) ≠ name) workgroups).
Proof.
  induction workgroups as [|x workgroups [IHs IHn]]; cbn [findWorkgroupWithName].
  - split.
    + intros w. split; [discriminate|].
      intros (before & after & Heq & _). destruct before; discriminate.
    + split; [constructor | reflexivity].
  - destruct (String.eqb _ name) eqn:Heq.
    + apply String.eqb_eq in Heq. split.
      * intros w. split.
        -- intros [= <-]. exists [], workgroups. repeat split; [exact Heq | constructor].
        -- intros (before & after & Hl & Hname & Hbefore).
           destruct before as [|y before]; cbn in Hl; injection Hl as <- _; [reflexivity|].
           apply Forall_cons in Hbefore as [Hy _]. congruence.
      * split; [discriminate|]. intros Hall. apply Forall_cons in Hall as [Hx _]. congruence.
    + apply String.eqb_neq in Heq. split.
      * intros w. rewrite IHs. split.
        -- intros (before & after & -> & Hname & Hbefore).
           exists (x :: before), after. repeat split; [exact Hname|].
           constructor; assumption.
        -- intros (before & after & Hl & Hname & Hbefore).
           destruct before as [|y before]; cbn in Hl; injection Hl as <- ->; [congruence|].
           apply Forall_cons in Hbefore as [_ Hbefore].
           exists before, after. repeat split; assumption.
      * rewrite IHn. split; [intros Hall; constructor; assumption|].
        intros Hall. apply Forall_cons in Hall as [_ Hall]. exact Hall.
Qed.

End Find.

Lemma collectors_complete_listing_witness :
  ∃ workgroups,
    RedshiftServerless.getRSSWorkgroups 2 (λ e, e) 5 threePages = Some (workgroups, None)
    ∧ redshiftserverless.WorkgroupName <$> workgroups = [Some "0"; Some "1"; Some "2"].
Proof.
  eexists. split.
  - apply (proj1 (collectors_complete_listing 2 (λ e, e) 5 threePages 3
                    (λ i, [ {| redshiftserverless.WorkgroupName := Some (pretty i);
                               redshiftserverless.WorkgroupArn := None;
                               redshiftserverless.Status := Some "AVAILABLE";
                               redshiftserverless.Endpoint := None |} ])
                    (λ i, [ {| redshiftserverless.EndpointName := Some (pretty i);
                               redshiftserverless.EndpointStatus := Some "ACTIVE";
                               redshiftserverless.Address := None;
                               redshiftserverless.WorkgroupName_ := Some "w1" |} ])
                    ltac:(lia) ltac:(lia) ltac:(lia))).
    intros k Hk. reflexivity.
  - vm_compute. reflexivity.
Defined.

Lemma workgroup_page_error_witness :
  RedshiftServerless.getRSSWorkgroups 10 (λ e, e) 12 workgroupListingDown
  = Some ([], Some (OtherErr "throttled"))
  ∧ RedshiftServerless.GetDatabases sampleDatabase 10 sampleAvailable (λ e, e)
      sampleAccessDenied sampleWorkgroupDatabase sampleEndpointDatabase 12
      {| RedshiftServerless.GetAWSRedshiftServerlessClient := inr workgroupListingDown |} []
    = Some ([], Some (Wrap (Wrap (OtherErr "throttled"))), []).
Proof.
  apply (workgroup_page_error sampleDatabase 10 sampleAvailable (λ e, e) sampleAccessDenied
           sampleWorkgroupDatabase sampleEndpointDatabase 12
           {| RedshiftServerless.GetAWSRedshiftServerlessClient := inr workgroupListingDown |}
           workgroupListingDown [] 0 (λ _, []) (OtherErr "throttled") eq_refl);
    [lia | lia | intros j Hj; lia | reflexivity].
Defined.

Lemma collectors_bounded_witness :
  ∃ pages err,
    RedshiftServerless.getRSSWorkgroups 2 (λ e, e) 5 endlessRSS = Some (concat pages, err)
    ∧ (length pages ≤ 3)%nat.
Proof.
  destruct (collectors_bounded 2 (λ e, e) 5 endlessRSS ltac:(lia))
    as [(pages & err & Hrun & Hlen & _) _].
  exists pages, err. split; assumption.
Defined.

Lemma GetDatabases_returns_witness :
  is_Some (RedshiftServerless.GetDatabases sampleDatabase 2 sampleAvailable (λ e, e)
             sampleAccessDenied sampleWorkgroupDatabase sampleEndpointDatabase 3
             {| RedshiftServerless.GetAWSRedshiftServerlessClient := inr endlessRSS |} [])
  ∧ RedshiftServerless.GetDatabases sampleDatabase 2 sampleAvailable (λ e, e)
      sampleAccessDenied sampleWorkgroupDatabase sampleEndpointDatabase 40
      {| RedshiftServerless.GetAWSRedshiftServerlessClient := inr endlessRSS |} []
    = RedshiftServerless.GetDatabases sampleDatabase 2 sampleAvailable (λ e, e)
        sampleAccessDenied sampleWorkgroupDatabase sampleEndpointDatabase 3
        {| RedshiftServerless.GetAWSRedshiftServerlessClient := inr endlessRSS |} [].
Proof.
  apply (GetDatabases_returns sampleDatabase 2 sampleAvailable (λ e, e) sampleAccessDenied
           sampleWorkgroupDatabase sampleEndpointDatabase 3 40); lia.
Defined.

Lemma workgroups_and_databases_paired_witness :
  ∃ dbs wgs logged,
    RedshiftServerless.getDatabasesFromWorkgroups sampleDatabase 10 sampleAvailable (λ e, e)
      sampleAccessDenied sampleWorkgroupDatabase 12
      (sampleRSS (RedshiftServerless.Page [e1] false)) []
    = Some (dbs, wgs, None, [] ++ logged)
    ∧ Forall2 (λ db wg,
                 sampleWorkgroupDatabase (RedshiftServerless.Workgroup_ wg)
                   (RedshiftServerless.Tags wg) = inr db) dbs wgs
    ∧ (RedshiftServerless.Workgroup_ <$> wgs) `sublist_of` [w1].
Proof.
  destruct (workgroups_and_databases_paired sampleDatabase 10 sampleAvailable (λ e, e)
              sampleAccessDenied sampleWorkgroupDatabase 12
              (sampleRSS (RedshiftServerless.Page [e1] false)) [] [w1] eq_refl)
    as (dbs & wgs & logged & Hrun & H2 & _ & Hsub & _).
  exists dbs, wgs, logged. repeat split; assumption.
Defined.

Lemma tag_failure_keeps_workgroup_witness :
  ∃ dbs wgs logged,
    RedshiftServerless.getDatabasesFromWorkgroups sampleDatabase 10 sampleAvailable (λ e, e)
      sampleAccessDenied sampleWorkgroupDatabase 12 tagsDenied []
    = Some (dbs, wgs, None, [] ++ logged)
    ∧ {| dbName := "w1";
         dbURI := "w1.111122223333.eu-west-1.redshift-serverless.amazonaws.com";
         dbLabels := [] |} ∈ dbs
    ∧ {| RedshiftServerless.Workgroup_ := w1; RedshiftServerless.Tags := [] |} ∈ wgs
    ∧ {| Level := LevelDebug;
         Message := "No Permission to get Redshift Serverless tags";
         Attrs := [String_ "arn" "arn:aws:redshift-serverless:eu-west-1:111122223333:workgroup/w1";
                   Error_ "error" (AwsErr "AccessDeniedException" "not authorized")] |}
      ∈ logged.
Proof.
  exact (tag_failure_keeps_workgroup sampleDatabase 10 sampleAvailable (λ e, e)
           sampleAccessDenied sampleWorkgroupDatabase 12 tagsDenied [] [w1] w1
           (AwsErr "AccessDeniedException" "not authorized") _
           eq_refl ltac:(left) eq_refl eq_refl eq_refl).
Defined.

Lemma GetDatabases_error_witness :
  ∃ ws,
    RedshiftServerless.getRSSWorkgroups 10 (λ e, e) 12 workgroupListingDown
    = Some (ws, Some (OtherErr "throttled")).
Proof.
  destruct (GetDatabases_error sampleDatabase 10 sampleAvailable (λ e, e) sampleAccessDenied
              sampleWorkgroupDatabase sampleEndpointDatabase 12
              {| RedshiftServerless.GetAWSRedshiftServerlessClient := inr workgroupListingDown |}
              [] [] [] (Wrap (Wrap (OtherErr "throttled"))) eq_refl)
    as (_ & _ & [(err & Hc & _) | (client & ws & err & Hc & Hw & He)]).
  - discriminate Hc.
  - injection Hc as <-. injection He as <-. exists ws. exact Hw.
Defined.

Lemma no_workgroup_no_endpoint_listing_witness :
  ∃ log1,
    RedshiftServerless.GetDatabases sampleDatabase 2 sampleAvailable (λ e, e)
      sampleAccessDenied sampleWorkgroupDatabase sampleEndpointDatabase 5
      {| RedshiftServerless.GetAWSRedshiftServerlessClient :=
           inr {| RedshiftServerless.ListWorkgroupsPages :=
                    RedshiftServerless.ListWorkgroupsPages endlessRSS;
                  RedshiftServerless.ListEndpointAccessPages :=
                    λ _, RedshiftServerless.PageError (OtherErr "throttled");
                  RedshiftServerless.ListTagsForResourceWithContext :=
                    RedshiftServerless.ListTagsForResourceWithContext endlessRSS |} |} []
    = Some ([], None, log1).
Proof.
  eexists.
  eapply (no_workgroup_no_endpoint_listing sampleDatabase 2 sampleAvailable (λ e, e)
            sampleAccessDenied sampleWorkgroupDatabase sampleEndpointDatabase 5 endlessRSS
            [] _ [] (λ _, RedshiftServerless.PageError (OtherErr "throttled"))).
  vm_compute. reflexivity.
Defined.

Lemma GetDatabases_composition_witness :
  ∃ edbs logged,
    RedshiftServerless.GetDatabases sampleDatabase 10 sampleAvailable (λ e, e)
      sampleAccessDenied sampleWorkgroupDatabase sampleEndpointDatabase 12
      {| RedshiftServerless.GetAWSRedshiftServerlessClient :=
           inr (sampleRSS (RedshiftServerless.Page [e1; e2; e3] false)) |} []
    = Some ([ {| dbName := "w1";
                 dbURI := "w1.111122223333.eu-west-1.redshift-serverless.amazonaws.com";
                 dbLabels := [("env", "prod")] |} ] ++ edbs, None, [] ++ logged)
    ∧ (length edbs ≤ 3)%nat.
Proof.
  destruct (GetDatabases_composition sampleDatabase 10 sampleAvailable (λ e, e)
              sampleAccessDenied sampleWorkgroupDatabase sampleEndpointDatabase 12
              {| RedshiftServerless.GetAWSRedshiftServerlessClient :=
                   inr (sampleRSS (RedshiftServerless.Page [e1; e2; e3] false)) |}
              (sampleRSS (RedshiftServerless.Page [e1; e2; e3] false)) [] []
              [ {| dbName := "w1";
                   dbURI := "w1.111122223333.eu-west-1.redshift-serverless.amazonaws.com";
                   dbLabels := [("env", "prod")] |} ]
              [w1WithTags] [e1; e2; e3] eq_refl eq_refl ltac:(discriminate) eq_refl)
    as (edbs & logged & Hrun & Hlen & _).
  exists edbs, logged. split; assumption.
Defined.

Lemma findWorkgroupWithName_first_witness :
  RedshiftServerless.findWorkgroupWithName [w1WithTags] "w2" = None.
Proof.
  apply (proj2 (findWorkgroupWithName_first [w1WithTags] "w2")).
  repeat constructor. discriminate.
Defined.
